(** * html-jparser: the tree builder, the selector engine and path addressing

    A shallow embedding of [html_jparser/core.py].

    Python objects live in a heap: a list of [HtmlTag.t] records in which an
    object is named by its index (its allocation order).  A reference to a
    tag is a [nat]; [None] is Python's [None].  Every method that mutates a
    tag ([children], [parent], [text], [comments]) becomes an update of the
    heap at that index ([alter f i h]: the object [i] of [h] becomes [f] of
    itself), so two references to one object see the same fields.

    Exceptions are results: [Raise e].  The loops that need not end are
    written with fuel, and a loop that uses its fuel up returns [Diverge]:
    the two [while] loops that follow [parent] references get one unit more
    than the heap has objects, which is enough unless the references form a
    cycle, and the queue loop of [select] gets the fuel its caller gives. *)

From Stdlib Require Import Ascii String ZArith Lia.
From Stdlib Require Import DecimalString DecimalNat.
From stdpp Require Import base option list gmap strings.


(** ** Results of running Python code *)

Inductive exn : Type :=
| AttributeError   (* an attribute of None was read *)
| ValueError       (* int() of a non-number, or an unpacking of the wrong length *)
| IndexError       (* a list indexed outside its range *)
| TypeError        (* a membership test on None *)
| BadRef.          (* an index outside the heap: no Python reference is one *)

Inductive result (A : Type) : Type :=
| Ok (a : A)
| Raise (e : exn)
| Diverge.

Arguments Ok {A} a.
Arguments Raise {A} e.
Arguments Diverge {A}.

(** Sequencing: the first exception, or the first loop that does not end,
    is the result of the whole. *)
#[global] Instance result_bind : MBind result := λ A B k r,
  match r with
  | Ok a => k a
  | Raise e => Raise e
  | Diverge => Diverge
  end.

#[global] Instance exn_eq_dec : EqDecision exn.
Proof. solve_decision. Defined.

(** ** Python strings *)

(** A string is the sequence of its characters, each of a code below 256. *)

(** [s.split(sep)] for a separator of one character: the pieces between the
    occurrences of [sep]; never an empty list. *)
Fixpoint split (sep : ascii) (s : string) : list string :=
  match s with
  | EmptyString => [EmptyString]
  | String c s' =>
    if decide (c = sep) then EmptyString :: split sep s'
    else match split sep s' with
         | piece :: pieces => String c piece :: pieces
         | [] => [String c EmptyString]
         end
  end.

(** [c in s] for a character [c] and a string [s] of separators. *)
Fixpoint char_in (c : ascii) (s : string) : bool :=
  match s with
  | EmptyString => false
  | String c' s' => bool_decide (c = c') || char_in c s'
  end.

(** [s[i:]] and [s[:i]] and [s[i:j]] for indices that are not negative. *)
Fixpoint string_drop (i : nat) (s : string) : string :=
  match i, s with
  | 0, _ => s
  | S i, EmptyString => EmptyString
  | S i, String _ s' => string_drop i s'
  end.

Fixpoint string_take (i : nat) (s : string) : string :=
  match i, s with
  | 0, _ => EmptyString
  | S i, EmptyString => EmptyString
  | S i, String c s' => String c (string_take i s')
  end.

Definition slice (i j : nat) (s : string) : string :=
  string_drop i (string_take j s).

(** [sub in s] for two strings: [sub] occurs in [s]. *)
Fixpoint substring_in (sub s : string) : bool :=
  String.prefix sub s ||
  match s with
  | EmptyString => false
  | String _ s' => substring_in sub s'
  end.

(** ** Tags *)

(** A value of a tag's [attrs] dictionary: a string, [None] for an attribute
    that was written without a value, or for the key ["class"] the list
    [handle_starttag] splits the string into. *)
Inductive value : Type :=
| Str (s : string)
| StrList (l : list string)
| NoneValue.

#[global] Instance value_eq_dec : EqDecision value.
Proof. solve_decision. Defined.

Module HtmlTag.

Record t : Type := mk {
  tag : string;
  attrs : gmap string value;
  parent : option nat;
  children : list nat;
  comments : list string;
  text : string;
}.

(** [HtmlTag(tag, attrs, parent)] *)
Definition init (tag : string) (attrs : gmap string value)
    (parent : option nat) : t :=
  mk tag attrs parent [] [] EmptyString.

Definition set_parent (p : option nat) (n : t) : t :=
  mk (tag n) (attrs n) p (children n) (comments n) (text n).

Definition set_children (cs : list nat) (n : t) : t :=
  mk (tag n) (attrs n) (parent n) cs (comments n) (text n).

Definition set_comments (cs : list string) (n : t) : t :=
  mk (tag n) (attrs n) (parent n) (children n) cs (text n).

Definition set_text (s : string) (n : t) : t :=
  mk (tag n) (attrs n) (parent n) (children n) (comments n) s.

(** [self.children.append(c)] *)
Definition add_child (c : nat) (n : t) : t :=
  set_children (children n ++ [c]) n.

(** [self.comments.append(c)] *)
Definition add_comment (c : string) (n : t) : t :=
  set_comments (comments n ++ [c]) n.

End HtmlTag.

Abbreviation heap := (list HtmlTag.t).

(** Reading the object a reference names. *)
Definition deref (h : heap) (i : nat) : result HtmlTag.t :=
  match h !! i with
  | Some n => Ok n
  | None => Raise BadRef
  end.

(** Reading an attribute of [x] where [x] may be [None]. *)
Definition deref_opt (h : heap) (x : option nat) : result (nat * HtmlTag.t) :=
  match x with
  | None => Raise AttributeError
  | Some i => n ← deref h i; Ok (i, n)
  end.

(** ** The tree builder *)

(** What the tokenizer calls the handlers with.  The value of an attribute
    is a string, or [None] when the attribute was written without a value
    (as the class of [<div class>]). *)
Inductive event : Type :=
| Open (tag : string) (attrs : list (string * option string))
| Close (tag : string)
| Text (data : string)
| Comment (data : string).

Module CustomHTMLParser.

Record t : Type := mk {
  heap_of : heap;
  root : nat;
  cur_tag : option nat;
}.

(** [__init__]: the root is the first object, and the cursor is on it. *)
Definition init : t :=
  mk [HtmlTag.init "root" ∅ None] 0 (Some 0).

(** [dict(attrs)]: a later pair of a key replaces an earlier one. *)
Definition dict {A : Type} (attrs : list (string * A)) : gmap string A :=
  foldl (λ d kv, <[kv.1 := kv.2]> d) ∅ attrs.

(** An attribute value as the dictionary of a tag holds it. *)
Definition attr_value (v : option string) : value :=
  match v with
  | Some s => Str s
  | None => NoneValue
  end.

(** Lines 13-15: the dictionary of a new tag, its class split at spaces.
    A class without a value is [None], which has no [split]. *)
Definition starttag_attrs (attrs : list (string * option string))
    : result (gmap string value) :=
  let d := dict attrs in
  match d !! "class" with
  | Some (Some c) => Ok (<["class" := StrList (split " " c)]> (attr_value <$> d))
  | Some None => Raise AttributeError
  | None => Ok (attr_value <$> d)
  end.

Definition handle_starttag (tag : string) (attrs : list (string * option string))
    (p : t) : result t :=
  attrs ← starttag_attrs attrs;
  let h := heap_of p in
  let t := length h in
  let h := h ++ [HtmlTag.init tag attrs (cur_tag p)] in
  '(c, _) ← deref_opt h (cur_tag p);
  Ok (mk (alter (HtmlTag.add_child t) c h) (root p) (Some t)).

(** The [while] loop of [handle_endtag], lines 23-26. *)
Fixpoint walk (fuel : nat) (tag : string) (h : heap) (cur : option nat)
    (tags : list nat) : result (heap * nat * list nat) :=
  match fuel with
  | 0 => Diverge
  | S fuel =>
    '(c, n) ← deref_opt h cur;
    if decide (HtmlTag.tag n = tag) then Ok (h, c, tags)
    else walk fuel tag (alter (HtmlTag.set_children []) c h)
              (HtmlTag.parent n) (tags ++ HtmlTag.children n)
  end.

(** The [for] loop of [handle_endtag], lines 28-30. *)
Definition adopt (target : nat) (tags : list nat) (h : heap) : heap :=
  foldl (λ h t,
           alter (λ n, HtmlTag.set_children [] (HtmlTag.set_parent (Some target) n)) t h)
        h tags.

(** A heap of [N] objects holds no chain of [parent] references that visits
    more than [N] objects without visiting one twice, and the loop changes
    neither a [tag] nor a [parent]: a walk of more than [N] steps never ends. *)
Definition handle_endtag (tag : string) (p : t) : result t :=
  '(h, c, tags) ← walk (S (length (heap_of p))) tag (heap_of p) (cur_tag p) [];
  let h := adopt c tags h in
  n ← deref h c;
  Ok (mk (alter (λ n, HtmlTag.set_children (HtmlTag.children n ++ tags) n) c h)
         (root p) (HtmlTag.parent n)).

Definition handle_data (data : string) (p : t) : result t :=
  '(c, _) ← deref_opt (heap_of p) (cur_tag p);
  Ok (mk (alter (λ n, HtmlTag.set_text (HtmlTag.text n +:+ data) n) c (heap_of p))
         (root p) (cur_tag p)).

Definition handle_comment (data : string) (p : t) : result t :=
  '(c, _) ← deref_opt (heap_of p) (cur_tag p);
  Ok (mk (alter (HtmlTag.add_comment data) c (heap_of p)) (root p) (cur_tag p)).

Definition handle (e : event) (p : t) : result t :=
  match e with
  | Open tag attrs => handle_starttag tag attrs p
  | Close tag => handle_endtag tag p
  | Text data => handle_data data p
  | Comment data => handle_comment data p
  end.

(** The handler calls of one [feed], in the order of the events. *)
Fixpoint run (es : list event) (p : t) : result t :=
  match es with
  | [] => Ok p
  | e :: es => p' ← handle e p; run es p'
  end.

(** [feed]: the heap and the root it returns. *)
Definition feed (es : list event) : result (heap * nat) :=
  p ← run es init; Ok (heap_of p, root p).

End CustomHTMLParser.

(** ** Selectors *)

Module Selector.

Definition cls_sep : string := ".".
Definition id_sep : string := "#".
Definition attr_sep : string := "[]".
Definition sep : ascii := " "%char.

Record t : Type := mk {
  cmd : string;
  tag : string;
  cls : list string;
  id : string;
  attrs : gmap string string;
}.

(** [__clean_tag]: the command up to its first separator character. *)
Fixpoint clean_tag_loop (cmd seps : string) (i : nat) (rest : string) : string :=
  match rest with
  | EmptyString => cmd
  | String c rest =>
    if char_in c seps then string_take i cmd
    else clean_tag_loop cmd seps (S i) rest
  end.

Definition clean_tag (cmd : string) : string :=
  let seps := cls_sep +:+ id_sep +:+ attr_sep in
  clean_tag_loop cmd seps 0 cmd.

(** [start] as a condition: [None] and [0] are false. *)
Definition truthy (start : option nat) : bool :=
  match start with
  | None | Some 0 => false
  | Some (S _) => true
  end.

(** The loop of [__clean], lines 141-148: [rest] is what is left of [cmd]
    from index [i] on. *)
Fixpoint clean_loop (cmd : string) (start_sep : ascii) (stop_sep : string)
    (i : nat) (rest : string) (start : option nat) (cls_list : list string)
    : list string :=
  match rest with
  | EmptyString =>
    match start with
    | Some s => cls_list ++ [string_drop (S s) cmd]
    | None => cls_list
    end
  | String c rest =>
    let '(cls_list, start) :=
      if char_in c stop_sep && truthy start
      then (cls_list ++ [slice (S (default 0 start)) i cmd], None)
      else (cls_list, start) in
    let start := if decide (c = start_sep) then Some i else start in
    clean_loop cmd start_sep stop_sep (S i) rest start cls_list
  end.

Definition clean (cmd : string) (start_sep : ascii) (stop_sep : string)
    : list string :=
  if negb (char_in start_sep cmd) then []
  else clean_loop cmd start_sep stop_sep 0 cmd None [].

(** [__clean_cls]: [cls_sep] is one character. *)
Definition clean_cls (cmd : string) : list string :=
  let stop_seps := cls_sep +:+ id_sep +:+ attr_sep in
  clean cmd "."%char stop_seps.

Definition clean_id (cmd : string) : string :=
  let stop_seps := cls_sep +:+ id_sep +:+ attr_sep in
  match clean cmd "#"%char stop_seps with
  | _id :: _ => _id
  | [] => EmptyString
  end.

(** [key, value = attr.split('=')]: exactly two pieces, or a [ValueError]. *)
Definition split_attr (attr : string) : result (string * string) :=
  match split "="%char attr with
  | [key; value] => Ok (key, value)
  | _ => Raise ValueError
  end.

(** The loop of [__clean_attrs], lines 171-175. *)
Fixpoint attrs_loop (attrs : list string) (attrs_dict : gmap string string)
    : result (gmap string string) :=
  match attrs with
  | [] => Ok attrs_dict
  | attr :: attrs =>
    '(key, value) ← split_attr attr;
    attrs_loop attrs (<[key := value]> attrs_dict)
  end.

Definition clean_attrs (cmd : string) : result (gmap string string) :=
  attrs ← match attr_sep with
          | String a (String b _) => Ok (clean cmd a (String b EmptyString))
          | String a EmptyString =>
            Ok (clean cmd a (cls_sep +:+ id_sep +:+ attr_sep))
          | EmptyString => Raise IndexError
          end;
  attrs_loop attrs ∅.

(** [Selector(cmd)] *)
Definition init (cmd : string) : result t :=
  let tag := clean_tag cmd in
  let cls := clean_cls cmd in
  let id := clean_id cmd in
  attrs ← clean_attrs cmd;
  Ok (mk cmd tag cls id attrs).

(** The list comprehension of [parse]. *)
Fixpoint init_all (cmd_parts : list string) : result (list t) :=
  match cmd_parts with
  | [] => Ok []
  | cmd_part :: cmd_parts =>
    s ← init cmd_part;
    ss ← init_all cmd_parts;
    Ok (s :: ss)
  end.

Definition parse (cmd : string) : result (list t) :=
  init_all (split sep cmd).

Definition check_tag (s : t) (html_tag : HtmlTag.t) : bool :=
  if negb (bool_decide (tag s = EmptyString))
  then bool_decide (tag s = HtmlTag.tag html_tag)
  else true.

Definition check_id (s : t) (html_tag : HtmlTag.t) : bool :=
  if negb (bool_decide (id s = EmptyString))
  then match HtmlTag.attrs html_tag !! "id" with
       | Some v => bool_decide (Str (id s) = v)
       | None => false
       end
  else true.

(** [x in v] for a string [x]: a member of a list, a part of a string;
    [None] has no members to test. *)
Definition py_in (x : string) (v : value) : result bool :=
  match v with
  | StrList l => Ok (bool_decide (x ∈ l))
  | Str s => Ok (substring_in x s)
  | NoneValue => Raise TypeError
  end.

(** [all(cls in v for cls in classes)]: the first class that is not in [v]
    ends the test. *)
Fixpoint all_in (classes : list string) (v : value) : result bool :=
  match classes with
  | [] => Ok true
  | c :: classes =>
    b ← py_in c v;
    if b : bool then all_in classes v else Ok false
  end.

Definition check_cls (s : t) (html_tag : HtmlTag.t) : result bool :=
  if 0 <? length (cls s)
  then match HtmlTag.attrs html_tag !! "class" with
       | Some v => all_in (cls s) v
       | None => Ok false
       end
  else Ok true.

(** The loop returns [False] at the first pair that fails, so its result is
    that of all the pairs, in whatever order the dictionary gives them. *)
Definition check_attrs (s : t) (html_tag : HtmlTag.t) : bool :=
  forallb (λ kv, match HtmlTag.attrs html_tag !! kv.1 with
                 | Some v => bool_decide (Str kv.2 = v)
                 | None => false
                 end)
          (map_to_list (attrs s)).

(** The four tests, each made only when those before it have passed. *)
Definition check_html_tag (s : t) (html_tag : HtmlTag.t) : result bool :=
  if check_tag s html_tag && check_id s html_tag
  then b ← check_cls s html_tag; Ok (b && check_attrs s html_tag)
  else Ok false.

End Selector.

(** ** Queries on a tag: [HtmlTag.select] and [HtmlTag.get_path] *)

Module Query.

(** [HtmlTag.select]: the loop of lines 230-243 on the queue [q] of
    (tag, selectors) entries. *)
Fixpoint select_loop (fuel : nat) (h : heap)
    (q : list (nat * list Selector.t)) (results : list nat)
    : result (list nat) :=
  match fuel with
  | 0 => Diverge
  | S fuel =>
    match q with
    | [] => Ok results
    | (html_tag, selectors) :: q =>
      n ← deref h html_tag;
      let q := q ++ map (λ child, (child, selectors)) (HtmlTag.children n) in
      match selectors with
      | [] => Raise IndexError
      | s :: rest =>
        b ← Selector.check_html_tag s n;
        if b : bool
        then if length selectors =? 1
             then select_loop fuel h q (results ++ [html_tag])
             else select_loop fuel h
                    (q ++ map (λ child, (child, rest)) (HtmlTag.children n))
                    results
        else select_loop fuel h q results
      end
    end
  end.

Definition select (fuel : nat) (h : heap) (self : nat) (cmd : string)
    : result (list nat) :=
  selectors ← Selector.parse cmd;
  select_loop fuel h [(self, selectors)] [].

(** The index of the first element of [l] that is [x]. *)
Fixpoint index_of (x : nat) (l : list nat) : option nat :=
  match l with
  | [] => None
  | y :: l => if decide (x = y) then Some 0 else S <$> index_of x l
  end.

(** [str(i)] in base ten. *)
Definition str (i : nat) : string :=
  NilEmpty.string_of_uint (Nat.to_uint i).

(** The [while] loop of [get_path], lines 249-254. *)
Fixpoint get_path_loop (fuel : nat) (h : heap) (cur_tag : nat) (path : string)
    : result string :=
  match fuel with
  | 0 => Diverge
  | S fuel =>
    n ← deref h cur_tag;
    match HtmlTag.parent n with
    | None => Ok path
    | Some p =>
      pn ← deref h p;
      let path := match index_of cur_tag (HtmlTag.children pn) with
                  | Some i => ":" +:+ str i +:+ path
                  | None => path
                  end in
      get_path_loop fuel h p path
    end
  end.

(** As for [handle_endtag], a chain of more [parent] references than the
    heap has objects is a cycle. *)
Definition get_path (h : heap) (self : nat) : result string :=
  path ← get_path_loop (S (length h)) h self EmptyString;
  Ok (string_drop 1 path).

End Query.

(** ** Numbers and indices *)

(** The characters [int] skips at both ends of a string: the blanks of C
    (tab to carriage return, and the space) and, of the characters from 128
    to 255, the two blanks of Unicode, which [int] turns into spaces first.
    The separators 28 to 31, which [str.strip] removes, [int] does not
    skip. *)
Definition is_space (c : ascii) : bool :=
  let k := nat_of_ascii c in
  (9 <=? k) && (k <=? 13) || (k =? 32) || (k =? 133) || (k =? 160).

Fixpoint lstrip (s : string) : string :=
  match s with
  | EmptyString => EmptyString
  | String c s' => if is_space c then lstrip s' else s
  end.

Fixpoint rstrip (s : string) : string :=
  match s with
  | EmptyString => EmptyString
  | String c s' =>
    match rstrip s' with
    | EmptyString => if is_space c then EmptyString else String c EmptyString
    | r => String c r
    end
  end.

Definition digit (c : ascii) : option Z :=
  let k := nat_of_ascii c in
  if (48 <=? k) && (k <=? 57) then Some (Z.of_nat (k - 48)) else None.

(** Digits, with single underscores between them; [after_digit] says that
    the character before was a digit. *)
Fixpoint digits (acc : Z) (after_digit : bool) (s : string) : option Z :=
  match s with
  | EmptyString => if after_digit then Some acc else None
  | String c s' =>
    match digit c with
    | Some d => digits (10 * acc + d) true s'
    | None =>
      if bool_decide (c = "_"%char) && after_digit then digits acc false s'
      else None
    end
  end.

(** The most digits [int] reads unless the interpreter is told otherwise
    ([sys.get_int_max_str_digits()]). *)
Definition int_max_str_digits : nat := 4300.

(** [int(s)]: blanks, a sign, digits.  A string is read as the characters
    of its codes, all below 256.  The interpreter's limit on the number of
    digits is not part of [int]: a statement about a number that is not
    the index of a child in a heap bounds it by [int_max_str_digits]. *)
Definition int (s : string) : result Z :=
  let s := rstrip (lstrip s) in
  let r := match s with
           | String "+" s' => digits 0 false s'
           | String "-" s' => Z.opp <$> digits 0 false s'
           | _ => digits 0 false s
           end in
  match r with
  | Some z => Ok z
  | None => Raise ValueError
  end.

(** [l[i]]: a negative index counts from the end. *)
Definition py_index {A : Type} (l : list A) (i : Z) : result A :=
  let j := if (i <? 0)%Z then (Z.of_nat (length l) + i)%Z else i in
  if (j <? 0)%Z then Raise IndexError
  else match l !! Z.to_nat j with
       | Some x => Ok x
       | None => Raise IndexError
       end.

Fixpoint map_result {A B : Type} (f : A → result B) (l : list A)
    : result (list B) :=
  match l with
  | [] => Ok []
  | x :: l => y ← f x; ys ← map_result f l; Ok (y :: ys)
  end.

(** ** The parser object *)

Module HtmlParser.

Record t : Type := mk {
  heap_of : heap;
  root : nat;
  cache_dict : gmap string (list string);
}.

(** [parse] on the events of the content (fetching a url and tokenizing are
    not modelled): a new tree; [cache_dict] stays. *)
Definition parse (es : list event) (cache : gmap string (list string))
    : result t :=
  '(h, r) ← CustomHTMLParser.feed es;
  Ok (mk h r cache).

(** [HtmlParser(html_s=...)] *)
Definition init (es : list event) : result t :=
  parse es ∅.

(** The [for] loop of [get_tag], lines 75-76. *)
Fixpoint descend (h : heap) (tag : nat) (index_list : list Z) : result nat :=
  match index_list with
  | [] => Ok tag
  | index :: index_list =>
    n ← deref h tag;
    child ← py_index (HtmlTag.children n) index;
    descend h child index_list
  end.

Definition get_tag (p : t) (path : string) : result nat :=
  index_list ← map_result int (split ":" path);
  descend (heap_of p) (root p) index_list.

Definition get_tags (p : t) (path_list : list string) : result (list nat) :=
  map_result (get_tag p) path_list.

(** [select]: the tags, and the parser with its cache as the call leaves it.
    [fuel] is for the queue loop of [HtmlTag.select]. *)
Definition select (fuel : nat) (p : t) (cmd : string) (cache : bool)
    : result (list nat * t) :=
  match (if cache then cache_dict p !! cmd else None) with
  | Some paths => tags ← get_tags p paths; Ok (tags, p)
  | None =>
    tags ← Query.select fuel (heap_of p) (root p) cmd;
    paths ← map_result (Query.get_path (heap_of p)) tags;
    Ok (tags, mk (heap_of p) (root p) (<[cmd := paths]> (cache_dict p)))
  end.

End HtmlParser.

(** ** Reading a heap *)

Definition children_of (h : heap) (i : nat) : list nat :=
  from_option HtmlTag.children [] (h !! i).

Definition parent_of (h : heap) (i : nat) : option nat :=
  h !! i ≫= HtmlTag.parent.

Definition tag_of (h : heap) (i : nat) : option string :=
  HtmlTag.tag <$> h !! i.

Definition text_of (h : heap) (i : nat) : string :=
  from_option HtmlTag.text EmptyString (h !! i).

(** [chain h name cur vs t]: from the cursor [cur] upwards, the tags [vs]
    are not named [name] (the cursor first) and the next one, [t], is. *)
Inductive chain (h : heap) (name : string)
    : option nat → list nat → nat → Prop :=
| chain_here c n :
    h !! c = Some n → HtmlTag.tag n = name → chain h name (Some c) [] c
| chain_up c n vs t :
    h !! c = Some n → HtmlTag.tag n ≠ name →
    chain h name (HtmlTag.parent n) vs t →
    chain h name (Some c) (c :: vs) t.

(** [ancestor h cur a]: [a] is the cursor or a tag above it. *)
Inductive ancestor (h : heap) : option nat → nat → Prop :=
| ancestor_self c : ancestor h (Some c) c
| ancestor_up c n a :
    h !! c = Some n → ancestor h (HtmlTag.parent n) a → ancestor h (Some c) a.

(** [descendant h a c]: [c] is below [a], through one child list or more. *)
Inductive descendant (h : heap) (a : nat) : nat → Prop :=
| descendant_child c : c ∈ children_of h a → descendant h a c
| descendant_step m c :
    descendant h a m → c ∈ children_of h m → descendant h a c.

(** The children the loop of [handle_endtag] collects on the tags [vs]. *)
Definition orphans (h : heap) (vs : list nat) : list nat :=
  concat (map (children_of h) vs).

(** The same children, the outermost tag's first. *)
Definition orphans_outer_first (h : heap) (vs : list nat) : list nat :=
  concat (map (children_of h) (reverse vs)).

(** The loop of [handle_endtag] on the heap alone. *)
Definition clear_children (vs : list nat) (h : heap) : heap :=
  foldl (λ h v, alter (HtmlTag.set_children []) v h) h vs.

(** The class attribute of [n], when it has one, is a list of tokens. *)
Definition class_is_list (n : HtmlTag.t) : Prop :=
  ∀ v, HtmlTag.attrs n !! "class" = Some v → ∃ l, v = StrList l.

(** The class tokens of [n]; none when it has no class attribute. *)
Definition class_tokens (n : HtmlTag.t) : list string :=
  match HtmlTag.attrs n !! "class" with
  | Some (StrList l) => l
  | _ => []
  end.

(** What every heap of the builder satisfies: the root is the object 0 and
    has no parent; a tag of a child list has the owner of the list as its
    parent; no child list holds a tag twice; a parent was allocated before
    its children; and a class attribute is a list. *)
Record wf (h : heap) : Prop := {
  wf_root : ∃ n, h !! 0 = Some n ∧ HtmlTag.parent n = None
                 ∧ HtmlTag.tag n = "root" ∧ HtmlTag.attrs n = ∅;
  wf_child : ∀ i c, c ∈ children_of h i → parent_of h c = Some i;
  wf_nodup : ∀ i, NoDup (children_of h i);
  wf_parent : ∀ i p, parent_of h i = Some p → p < i;
  wf_class : ∀ i n, h !! i = Some n → class_is_list n;
}.

(** What every state of the builder satisfies. *)
Definition wf_parser (p : CustomHTMLParser.t) : Prop :=
  wf (CustomHTMLParser.heap_of p) ∧ CustomHTMLParser.root p = 0
  ∧ ∀ c, CustomHTMLParser.cur_tag p = Some c
         → c < length (CustomHTMLParser.heap_of p).

(** ** Closing tags *)

(** The heap [handle_endtag] leaves. *)
Definition endtag_heap (h : heap) (vs : list nat) (t : nat) : heap :=
  alter (λ n, HtmlTag.set_children (HtmlTag.children n ++ orphans h vs) n) t
        (CustomHTMLParser.adopt t (orphans h vs) (clear_children vs h)).

(** What [handle_endtag] makes of the tag [i], which was [n]. *)
Definition endtag_node (h : heap) (vs : list nat) (t i : nat) (n : HtmlTag.t)
    : HtmlTag.t :=
  HtmlTag.mk (HtmlTag.tag n) (HtmlTag.attrs n)
    (if decide (i ∈ orphans h vs) then Some t else HtmlTag.parent n)
    (if decide (i = t) then HtmlTag.children n ++ orphans h vs
     else if decide (i ∈ orphans h vs ∨ i ∈ vs) then []
     else HtmlTag.children n)
    (HtmlTag.comments n) (HtmlTag.text n).

(** [unmatched h name cur]: no tag from the cursor up to the root is named
    [name]. *)
Inductive unmatched (h : heap) (name : string) : option nat → Prop :=
| unmatched_none : unmatched h name None
| unmatched_up c n :
    h !! c = Some n → HtmlTag.tag n ≠ name →
    unmatched h name (HtmlTag.parent n) → unmatched h name (Some c).

(** ** Queries *)

(** A selector the root satisfies: the root is named "root" and has no
    attribute. *)
Definition root_selector (s : Selector.t) : Prop :=
  (Selector.tag s = EmptyString ∨ Selector.tag s = "root")
  ∧ Selector.id s = EmptyString ∧ Selector.cls s = []
  ∧ Selector.attrs s = ∅.

(** [n] is below [r] and is not [r]. *)
Definition proper_descendant (h : heap) (r n : nat) : Prop :=
  descendant h r n ∧ n ≠ r.

(** A bound on the entries the loop takes off the queue for one entry whose
    tag has at most [d] levels below it, in a heap of [N] objects. *)
Fixpoint entry_weight (N d : nat) : nat :=
  match d with
  | 0 => 1
  | S d => 1 + (2 * N + 1) * entry_weight N d
  end.

(** The same bound for a whole queue. *)
Definition queue_weight (N : nat) (q : list (nat * list Selector.t)) : nat :=
  sum_list (map (λ e, entry_weight N (N - e.1)) q).

(** The fuel that is enough for a query on the tree of [h] from its root. *)
Definition select_fuel (h : heap) : nat := S (entry_weight (length h) (length h)).

(** ** Paths *)

(** [c] is one of "0" to "9". *)
Definition is_digit (c : ascii) : Prop := ∃ d, digit c = Some d.

(** Every character of [s] is a digit. *)
Fixpoint all_digits (s : string) : Prop :=
  match s with
  | EmptyString => True
  | String c s => is_digit c ∧ all_digits s
  end.

(** [c] does not occur in [s]. *)
Fixpoint no_char (c : ascii) (s : string) : Prop :=
  match s with
  | EmptyString => True
  | String c' s => c' ≠ c ∧ no_char c s
  end.

(** The path [get_path] builds for the indices [ixs], before it drops the
    first colon. *)
Fixpoint encode (ixs : list nat) : string :=
  match ixs with
  | [] => EmptyString
  | i :: ixs => ":" +:+ Query.str i +:+ encode ixs
  end.

(** [route h a ixs n]: from [a], taking the child of index [i] for each [i]
    of [ixs] in turn leads to [n]. *)
Inductive route (h : heap) (a : nat) : list nat → nat → Prop :=
| route_nil : route h a [] a
| route_snoc ixs m i c :
    route h a ixs m → children_of h m !! i = Some c →
    route h a (ixs ++ [i]) c.

(** ** Event streams in which every close has its open *)

(** The value of the last pair of [pairs] whose key is [k]. *)
Definition last_value {A : Type} (k : string) (pairs : list (string * A))
    : option A :=
  foldl (λ acc kv, if decide (kv.1 = k) then Some kv.2 else acc) None pairs.

(** The attributes give no class without a value. *)
Definition class_valued (attrs : list (string * option string)) : bool :=
  match last_value "class" attrs with
  | Some None => false
  | _ => true
  end.

(** No open event of the stream gives a class without a value. *)
Definition classes_valued (es : list event) : bool :=
  forallb (λ e, match e with
                | Open _ attrs => class_valued attrs
                | _ => true
                end) es.

(** The open tags above a close of [tag], when one of [open] is [tag]. *)
Fixpoint close_stack (tag : string) (open : list string) : option (list string) :=
  match open with
  | [] => None
  | t :: open => if decide (t = tag) then Some open else close_stack tag open
  end.

(** [open]: the names of the tags that are open, the innermost first.  A
    close of [tag] closes the innermost open tag of that name and the tags
    opened inside it. *)
Fixpoint well_formed_from (open : list string) (es : list event) : bool :=
  match es with
  | [] => true
  | Open tag _ :: es => well_formed_from (tag :: open) es
  | Close tag :: es =>
    match close_stack tag open with
    | Some open => well_formed_from open es
    | None => false
    end
  | _ :: es => well_formed_from open es
  end.

(** Every close of the stream names a tag that is open when it comes. *)
Definition well_formed (es : list event) : bool := well_formed_from [] es.

(** [spine h cur open]: the tags from the cursor up to the root, the root
    apart, are named [open]. *)
Inductive spine (h : heap) : option nat → list string → Prop :=
| spine_root : spine h (Some 0) []
| spine_cons c n open :
    c ≠ 0 → h !! c = Some n → spine h (HtmlTag.parent n) open →
    spine h (Some c) (HtmlTag.tag n :: open).

(** ** Selectors as the specification words them *)

(** The part of [s] before its first character of [stops]. *)
Fixpoint until_stop (stops : string) (s : string) : string :=
  match s with
  | EmptyString => EmptyString
  | String c s => if char_in c stops then EmptyString
                  else String c (until_stop stops s)
  end.

(** The classes as the specification words them: each "." introduces the
    substring that runs to the next character of [stops], or to the end. *)
Fixpoint classes_spec (stops : string) (s : string) : list string :=
  match s with
  | EmptyString => []
  | String c s =>
    if decide (c = "."%char) then until_stop stops s :: classes_spec stops s
    else classes_spec stops s
  end.

(** As the specification words it: the parts of [s] before and after its
    first [sep]. *)
Fixpoint split_first (sep : ascii) (s : string) : option (string * string) :=
  match s with
  | EmptyString => None
  | String c s =>
    if decide (c = sep) then Some (EmptyString, s)
    else kv ← split_first sep s; Some (String c kv.1, kv.2)
  end.

(** How often [c] occurs in [s]. *)
Fixpoint count_char (c : ascii) (s : string) : nat :=
  match s with
  | EmptyString => 0
  | String c' s => (if decide (c' = c) then 1 else 0) + count_char c s
  end.

(** The attributes as the specification words them: every substring split
    at its first "=", the pairs put into a dictionary in their order. *)
Definition attrs_spec (attrs : list string) : result (gmap string string) :=
  pairs ← map_result (λ attr, match split_first "=" attr with
                              | Some kv => Ok kv
                              | None => Raise ValueError
                              end) attrs;
  Ok (CustomHTMLParser.dict pairs).

(** ** The streams the builder accepts *)

(** The names of the open tags as the builder follows them, the innermost
    first: [Some open] while the cursor is on a tag, [None] once the root
    itself has been closed.  An open pushes its name, and is refused when
    it gives a class without a value.  A close of [tag] pops up to the
    innermost open tag of that name; with no such tag it closes the root
    when [tag] is "root", and is refused otherwise.  After the root has
    been closed every event is refused. *)
Fixpoint accepts (open : option (list string)) (es : list event) : bool :=
  match es with
  | [] => true
  | e :: es =>
    match open with
    | None => false
    | Some open =>
      match e with
      | Open tag attrs =>
        if class_valued attrs then accepts (Some (tag :: open)) es else false
      | Close tag =>
        match close_stack tag open with
        | Some open => accepts (Some open) es
        | None => if decide (tag = "root") then accepts None es else false
        end
      | _ => accepts (Some open) es
      end
    end
  end.

(** The state [p] of the builder has the open tags [open]. *)
Definition tracks (p : CustomHTMLParser.t) (open : option (list string)) : Prop :=
  match open with
  | Some open =>
    spine (CustomHTMLParser.heap_of p) (CustomHTMLParser.cur_tag p) open
  | None => CustomHTMLParser.cur_tag p = None
  end.

(** Every close names the innermost open tag. *)
Fixpoint nested_from (open : list string) (es : list event) : bool :=
  match es with
  | [] => true
  | Open tag _ :: es => nested_from (tag :: open) es
  | Close tag :: es =>
    match open with
    | t :: open => bool_decide (t = tag) && nested_from open es
    | [] => false
    end
  | _ :: es => nested_from open es
  end.

(** The number of open events of a stream. *)
Fixpoint opens (es : list event) : nat :=
  match es with
  | [] => 0
  | Open _ _ :: es => S (opens es)
  | _ :: es => opens es
  end.

(** The tags of [l] are in the order of their allocation. *)
Definition increasing (l : list nat) : Prop :=
  ∀ j k x y, j < k → l !! j = Some x → l !! k = Some y → x < y.

(** Nothing was taken out of the tree of [h]: a tag is in the child list of
    its parent, every tag but the root has a parent, and the child lists
    are in the order of allocation. *)
Record full (h : heap) : Prop := {
  full_child : ∀ i p, parent_of h i = Some p → i ∈ children_of h p;
  full_parent : ∀ i, 0 < i < length h → is_Some (parent_of h i);
  full_sorted : ∀ i, increasing (children_of h i);
}.

(** a > b > c > d, the cursor on b. *)
Definition loss_events : list event :=
  [Open "a" []; Open "b" []; Open "c" []; Open "d" []; Close "d"; Close "c"].

(** ** What a query returns *)

(** [n] is [a] or a tag below [a]. *)
Definition at_or_below (h : heap) (a n : nat) : Prop :=
  n = a ∨ descendant h a n.

(** The tag [n] satisfies the selector [s]. *)
Definition satisfies (h : heap) (s : Selector.t) (n : nat) : Prop :=
  ∃ node, h !! n = Some node ∧ Selector.check_html_tag s node = Ok true.

(** [chain_match h sels a n]: [n] satisfies the last selector of [sels];
    the first one is satisfied by [a] or by a tag below [a], and every
    later one by a tag strictly below the tag that satisfies the one
    before it. *)
Fixpoint chain_match (h : heap) (sels : list Selector.t) (a n : nat) : Prop :=
  match sels with
  | [] => False
  | s :: rest =>
    match rest with
    | [] => at_or_below h a n ∧ satisfies h s n
    | _ :: _ =>
      ∃ m c, at_or_below h a m ∧ satisfies h s m
             ∧ c ∈ children_of h m ∧ chain_match h rest c n
    end
  end.

(** Some entry of the queue [q] stands for [n]. *)
Definition pending (h : heap) (q : list (nat * list Selector.t)) (n : nat)
    : Prop :=
  ∃ a ss, (a, ss) ∈ q ∧ chain_match h ss a n.

(** The two heaps hold the same tree: the same objects with the same names,
    attributes, parents and children. *)
Definition same_tree (h h' : heap) : Prop :=
  length h = length h'
  ∧ ∀ i a b, h !! i = Some a → h' !! i = Some b →
      HtmlTag.tag a = HtmlTag.tag b ∧ HtmlTag.attrs a = HtmlTag.attrs b
      ∧ HtmlTag.parent a = HtmlTag.parent b
      ∧ HtmlTag.children a = HtmlTag.children b.

(** ** Selectors as they are written *)

(** What [__clean] cuts out of [s]: [cur] is the piece being read, if one
    is.  [start_sep] begins a new piece, a character of [stop_sep] ends the
    piece being read. *)
Fixpoint pieces (start_sep : ascii) (stop_sep : string) (cur : option string)
    (s : string) : list string :=
  match s with
  | EmptyString => option_list cur
  | String c s =>
    let ended := if char_in c stop_sep then option_list cur else [] in
    let cur := if decide (c = start_sep) then Some EmptyString
               else if char_in c stop_sep then None
               else (λ piece, piece +:+ String c EmptyString) <$> cur in
    ended ++ pieces start_sep stop_sep cur s
  end.

(** No character of [w] is one of [set]. *)
Fixpoint avoids (set : string) (w : string) : Prop :=
  match w with
  | EmptyString => True
  | String c w => char_in c set = false ∧ avoids set w
  end.

(** A name that holds none of the characters a selector gives a meaning. *)
Definition plain (w : string) : Prop := avoids ".#[]= " w.

(** [s] is at its end, or begins with a character of [stops]. *)
Definition boundary (stops : string) (s : string) : Prop :=
  match s with
  | EmptyString => True
  | String c _ => char_in c stops = true
  end.

Definition id_part (id : string) : string :=
  if decide (id = EmptyString) then EmptyString else "#" +:+ id.

Definition cls_part (cls : list string) : string :=
  foldr (λ c acc, "." +:+ c +:+ acc) EmptyString cls.

Definition attr_part (attrs : list (string * string)) : string :=
  foldr (λ kv acc, "[" +:+ kv.1 +:+ "=" +:+ kv.2 +:+ "]" +:+ acc)
        EmptyString attrs.

(** The token [tag#id.class...[key=value]...]. *)
Definition render (tag id : string) (cls : list string)
    (attrs : list (string * string)) : string :=
  tag +:+ id_part id +:+ cls_part cls +:+ attr_part attrs.

(** ** Examples *)

(** The stream of the specification's example of recovery. *)
Definition C1_events : list event :=
  [Open "div" []; Open "span" []; Open "em" []; Text "x"; Close "div"].

(** a > b > [c, e > f], the cursor on e. *)
Definition C2_events : list event :=
  [Open "a" []; Open "b" []; Open "c" []; Close "c";
   Open "e" []; Open "f" []; Close "f"].

(** div > [p, p], every tag closed. *)
Definition C8_events : list event :=
  [Open "div" []; Open "p" []; Text "x"; Close "p"; Open "p" []; Close "p";
   Close "div"].

(** One p under the root. *)
Definition C5_events : list event := [Open "p" []; Close "p"].

(** div > div > span. *)
Definition C10_events : list event :=
  [Open "div" []; Open "div" []; Open "span" []; Close "span"; Close "div";
   Close "div"].

(** One div with two classes and an id. *)
Definition C4_events : list event :=
  [Open "div" [("class", Some "foo bar"); ("id", Some "main")]; Close "div"].

(** * Proofs *)

(** ** Heaps *)

Lemma parent_of_lt_length h i p : parent_of h i = Some p → i < length h.
Proof.
  unfold parent_of. destruct (h !! i) eqn:E; [|done].
  intros _. by eapply lookup_lt_Some.
Qed.

Lemma children_of_lt_length (h : heap) i c : c ∈ children_of h i → i < length h.
Proof.
  unfold children_of. destruct (h !! i) eqn:E; simpl.
  - intros _. by eapply lookup_lt_Some.
  - by intros ?%elem_of_nil.
Qed.

Lemma lookup_foldl_alter (f : HtmlTag.t → HtmlTag.t) vs (h : heap) i :
  (∀ n, f (f n) = f n) →
  foldl (λ h v, alter f v h) h vs !! i
  = if decide (i ∈ vs) then f <$> h !! i else h !! i.
Proof.
  intros Hf. revert h. induction vs as [|v vs IH]; intros h; cbn [foldl].
  - destruct (decide (i ∈ [])) as [H|]; [by apply elem_of_nil in H|done].
  - rewrite IH. destruct (decide (v = i)) as [->|Hne].
    + rewrite list_lookup_alter_eq, (decide_True _ _ (list_elem_of_here i vs)).
      destruct (decide (i ∈ vs)); [|done].
      destruct (h !! i); simpl; [by rewrite Hf|done].
    + rewrite list_lookup_alter_ne by done.
      destruct (decide (i ∈ vs)) as [Hi|Hi],
        (decide (i ∈ v :: vs)) as [Hi'|Hi']; try done.
      * destruct Hi'. by apply list_elem_of_further.
      * apply elem_of_cons in Hi' as [->|?]; done.
Qed.

Lemma lookup_clear vs (h : heap) i :
  clear_children vs h !! i
  = if decide (i ∈ vs) then HtmlTag.set_children [] <$> h !! i else h !! i.
Proof. by apply lookup_foldl_alter. Qed.

Lemma lookup_adopt t tags (h : heap) i :
  CustomHTMLParser.adopt t tags h !! i
  = if decide (i ∈ tags)
    then (λ n, HtmlTag.set_children [] (HtmlTag.set_parent (Some t) n)) <$> h !! i
    else h !! i.
Proof. by apply lookup_foldl_alter. Qed.

Lemma length_foldl_alter (f : HtmlTag.t → HtmlTag.t) vs (h : heap) :
  length (foldl (λ h v, alter f v h) h vs) = length h.
Proof.
  revert h. induction vs as [|v vs IH]; intros h; cbn [foldl]; [done|].
  by rewrite IH, length_alter.
Qed.

Lemma length_clear vs (h : heap) : length (clear_children vs h) = length h.
Proof. apply length_foldl_alter. Qed.

Lemma length_adopt t tags (h : heap) :
  length (CustomHTMLParser.adopt t tags h) = length h.
Proof. apply length_foldl_alter. Qed.

(** ** The loop of [handle_endtag] *)

Lemma chain_bounds h name cur vs t :
  wf h → chain h name cur vs t →
  ∃ c, cur = Some c ∧ t ≤ c ∧ Forall (λ v, t < v ∧ v ≤ c) vs ∧ NoDup vs
       ∧ length vs ≤ c - t.
Proof.
  intros Hwf. induction 1 as [c n Hc Hn|c n vs t Hc Hn Hch IH].
  - exists c. repeat split; [lia|constructor|constructor|simpl; lia].
  - destruct IH as (p & Hp & Htp & Hvs & Hnd & Hlen).
    assert (p < c) as Hpc.
    { apply (wf_parent h Hwf). unfold parent_of. by rewrite Hc. }
    exists c. repeat split; [lia| | |simpl; lia].
    + constructor; [lia|]. eapply Forall_impl; [done|]. simpl. lia.
    + constructor; [|done]. intros Hin.
      rewrite Forall_forall in Hvs. apply Hvs in Hin. lia.
Qed.

Lemma chain_target h name cur vs t :
  chain h name cur vs t → ∃ n, h !! t = Some n ∧ HtmlTag.tag n = name.
Proof. induction 1; eauto. Qed.

Lemma chain_visited h name cur vs t :
  chain h name cur vs t →
  Forall (λ v, ∃ n, h !! v = Some n ∧ HtmlTag.tag n ≠ name) vs.
Proof. induction 1; constructor; eauto. Qed.

Lemma walk_chain h name cur vs t :
  chain h name cur vs t → NoDup vs → t ∉ vs →
  ∀ fuel h' tags,
    (∀ i, i ∈ vs ∨ i = t → h' !! i = h !! i) →
    length vs < fuel →
    CustomHTMLParser.walk fuel name h' cur tags
    = Ok (clear_children vs h', t, tags ++ orphans h vs).
Proof.
  induction 1 as [c n Hc Hn|c n vs t Hc Hn Hch IH];
    intros Hnd Ht fuel h' tags Hagree Hfuel;
    (destruct fuel as [|fuel]; [simpl in Hfuel; lia|]); simpl.
  - unfold deref. rewrite Hagree by auto. rewrite Hc. simpl.
    rewrite decide_True by done. unfold orphans. simpl. by rewrite app_nil_r.
  - unfold deref. rewrite Hagree by (left; left). rewrite Hc. simpl.
    rewrite decide_False by done.
    apply NoDup_cons in Hnd as [Hcvs Hnd].
    rewrite IH; [| done | | | simpl in Hfuel; lia].
    2: { intros Hin. apply Ht. by apply list_elem_of_further. }
    + unfold orphans. simpl. unfold children_of at 2. rewrite Hc. simpl.
      by rewrite app_assoc.
    + intros i Hi. rewrite list_lookup_alter_ne.
      * apply Hagree. destruct Hi; [left; by apply list_elem_of_further|by right].
      * intros <-. destruct Hi as [Hi| ->]; [done|].
        apply Ht, list_elem_of_here.
Qed.

Lemma elem_of_orphans h vs o :
  o ∈ orphans h vs ↔ ∃ v, v ∈ vs ∧ o ∈ children_of h v.
Proof.
  unfold orphans. induction vs as [|v vs IH]; simpl.
  - split; [by intros ?%elem_of_nil|]. by intros (v & ?%elem_of_nil & _).
  - rewrite elem_of_app, IH. split.
    + intros [?|(w & ? & ?)]; [exists v|exists w]; split; auto.
      * apply list_elem_of_here.
      * by apply list_elem_of_further.
    + intros (w & [->|?]%elem_of_cons & ?); eauto.
Qed.

Lemma orphans_above h name cur vs t o :
  wf h → chain h name cur vs t → o ∈ orphans h vs →
  t < o ∧ ∃ v, v ∈ vs ∧ parent_of h o = Some v.
Proof.
  intros Hwf Hch (v & Hv & Ho)%elem_of_orphans.
  destruct (chain_bounds _ _ _ _ _ Hwf Hch) as (c & _ & _ & Hvs & _).
  rewrite Forall_forall in Hvs. apply Hvs in Hv as Hb.
  pose proof (wf_child h Hwf v o Ho) as Hp.
  pose proof (wf_parent h Hwf _ _ Hp). split; [lia|eauto].
Qed.

Lemma NoDup_orphans h name cur vs t :
  wf h → chain h name cur vs t → NoDup (orphans h vs).
Proof.
  intros Hwf Hch.
  destruct (chain_bounds _ _ _ _ _ Hwf Hch) as (c & _ & _ & _ & Hnd & _).
  clear Hch. unfold orphans. induction Hnd as [|v vs Hv Hnd IH]; simpl.
  - constructor.
  - apply NoDup_app. split; [apply (wf_nodup h Hwf)|]. split; [|done].
    intros o Ho (w & Hw & Ho')%elem_of_orphans.
    pose proof (wf_child h Hwf v o Ho) as H1.
    pose proof (wf_child h Hwf w o Ho') as H2. congruence.
Qed.

Lemma handle_endtag_chain p name vs t :
  wf_parser p →
  chain (CustomHTMLParser.heap_of p) name (CustomHTMLParser.cur_tag p) vs t →
  CustomHTMLParser.handle_endtag name p
  = Ok (CustomHTMLParser.mk (endtag_heap (CustomHTMLParser.heap_of p) vs t)
          (CustomHTMLParser.root p)
          (parent_of (CustomHTMLParser.heap_of p) t)).
Proof.
  destruct p as [h r cur]. simpl. intros (Hwf & Hr & Hcur) Hch.
  destruct (chain_bounds _ _ _ _ _ Hwf Hch) as (c & -> & Htc & Hvs & Hnd & Hlen).
  specialize (Hcur c eq_refl). simpl in *.
  assert (t ∉ vs) as Htvs.
  { intros Hin. rewrite Forall_forall in Hvs. apply Hvs in Hin. lia. }
  unfold CustomHTMLParser.handle_endtag.
  cbn [CustomHTMLParser.heap_of CustomHTMLParser.cur_tag CustomHTMLParser.root].
  rewrite (walk_chain h name (Some c) vs t Hch Hnd Htvs) by (auto; lia).
  cbn [mbind result_bind]. destruct (chain_target _ _ _ _ _ Hch) as (n & Hn & _).
  assert (t ∉ orphans h vs) as Hto.
  { intros Hin. eapply orphans_above in Hin as [? _]; [|done..]. lia. }
  unfold deref. rewrite lookup_adopt, decide_False by done.
  rewrite lookup_clear, decide_False by done. rewrite Hn. simpl.
  unfold endtag_heap, parent_of. by rewrite Hn.
Qed.

Lemma lookup_endtag_heap h vs t i :
  t ∉ vs → t ∉ orphans h vs →
  endtag_heap h vs t !! i = endtag_node h vs t i <$> h !! i.
Proof.
  intros Htvs Hto. unfold endtag_heap.
  destruct (decide (t = i)) as [<-|Hne].
  - rewrite list_lookup_alter_eq, lookup_adopt, decide_False by done.
    rewrite lookup_clear, decide_False by done.
    destruct (h !! t) as [[]|]; [|done]. simpl. unfold endtag_node. simpl.
    by rewrite decide_False, decide_True by done.
  - rewrite list_lookup_alter_ne by done.
    rewrite lookup_adopt, lookup_clear.
    destruct (h !! i) as [[]|] eqn:E; [|by repeat case_decide].
    unfold endtag_node. simpl. rewrite (decide_False (P := i = t)) by done.
    destruct (decide (i ∈ orphans h vs)), (decide (i ∈ vs)); simpl;
      first [ rewrite decide_True by tauto | rewrite decide_False by tauto ];
      done.
Qed.

Lemma length_endtag_heap h vs t : length (endtag_heap h vs t) = length h.
Proof. unfold endtag_heap. by rewrite length_alter, length_adopt, length_clear. Qed.

Section endtag.
Context (h : heap) (name : string) (cur : option nat) (vs : list nat) (t : nat).
Hypothesis (Hwf : wf h) (Hch : chain h name cur vs t).

Lemma chain_target_fresh : (t ∉ vs) ∧ (t ∉ orphans h vs).
Proof.
  destruct (chain_bounds _ _ _ _ _ Hwf Hch) as (c & _ & _ & Hvs & _).
  split.
  - intros Hin. rewrite Forall_forall in Hvs. apply Hvs in Hin. lia.
  - intros Hin. eapply orphans_above in Hin as [? _]; [|done..]. lia.
Qed.

Lemma endtag_lookup i :
  endtag_heap h vs t !! i = endtag_node h vs t i <$> h !! i.
Proof. destruct chain_target_fresh. by apply lookup_endtag_heap. Qed.

Lemma endtag_children i :
  children_of (endtag_heap h vs t) i
  = if decide (i = t) then children_of h t ++ orphans h vs
    else if decide (i ∈ orphans h vs ∨ i ∈ vs) then []
    else children_of h i.
Proof.
  unfold children_of. rewrite endtag_lookup.
  destruct (decide (i = t)) as [->|Hne].
  - destruct (h !! t) as [n|] eqn:E; simpl; [by rewrite decide_True|].
    destruct (chain_target _ _ _ _ _ Hch) as (n & Hn & _). congruence.
  - destruct (h !! i) as [n|]; simpl.
    + by rewrite decide_False by done.
    + by case_decide.
Qed.

Lemma endtag_parent i :
  parent_of (endtag_heap h vs t) i
  = if decide (i ∈ orphans h vs) then Some t else parent_of h i.
Proof.
  unfold parent_of. rewrite endtag_lookup.
  destruct (h !! i) as [n|] eqn:E; simpl; [done|].
  case_decide as Hin; [|done].
  eapply orphans_above in Hin as (_ & v & _ & Hp); [|done..].
  unfold parent_of in Hp. by rewrite E in Hp.
Qed.

Lemma endtag_wf : wf (endtag_heap h vs t).
Proof.
  destruct chain_target_fresh as [Htvs Hto].
  destruct (chain_bounds _ _ _ _ _ Hwf Hch) as (c & _ & _ & Hvs & Hnd & _).
  rewrite Forall_forall in Hvs.
  split.
  - destruct (wf_root h Hwf) as (n & Hn & Hp & Htag & Hat).
    exists (endtag_node h vs t 0 n). rewrite endtag_lookup, Hn. simpl.
    split; [done|]. split; [|done].
    case_decide as Hin; [|done].
    eapply orphans_above in Hin as [? _]; [|done..]. lia.
  - intros i o. rewrite endtag_children, endtag_parent.
    destruct (decide (i = t)) as [->|Hne].
    + intros [Ho|Ho]%elem_of_app.
      * rewrite decide_False; [by apply (wf_child h Hwf)|].
        intros (_ & v & Hv & Hp)%(orphans_above h name cur vs t); [|done..].
        rewrite (wf_child h Hwf _ _ Ho) in Hp. congruence.
      * by rewrite decide_True.
    + case_decide as Hio; [by intros ?%elem_of_nil|].
      intros Ho. rewrite decide_False; [by apply (wf_child h Hwf)|].
      intros (_ & v & Hv & Hp)%(orphans_above h name cur vs t); [|done..].
      rewrite (wf_child h Hwf _ _ Ho) in Hp. injection Hp as ->. tauto.
  - intros i. rewrite endtag_children.
    case_decide; [|case_decide; [constructor|apply (wf_nodup h Hwf)]].
    apply NoDup_app. split; [apply (wf_nodup h Hwf)|].
    split; [|by eapply NoDup_orphans].
    intros o Ho (_ & v & Hv & Hp)%(orphans_above h name cur vs t); [|done..].
    rewrite (wf_child h Hwf _ _ Ho) in Hp. congruence.
  - intros i p. rewrite endtag_parent.
    case_decide as Hin; [|apply (wf_parent h Hwf)].
    intros [= <-]. by eapply orphans_above in Hin as [? _].
  - intros i n'. rewrite endtag_lookup.
    destruct (h !! i) as [n|] eqn:E; [|done]. intros [= <-].
    apply (wf_class h Hwf i n E).
Qed.

End endtag.

(** ** The builder keeps its heap well formed *)

Lemma init_wf : wf_parser CustomHTMLParser.init.
Proof.
  split; [|split; [done|]].
  - split.
    + by eexists.
    + intros [|[|i]] c; by intros ?%elem_of_nil.
    + intros [|[|i]]; constructor.
    + by intros [|[|i]] p.
    + intros [|[|i]] n; [|done..]. intros [= <-] v. simpl.
      by rewrite lookup_empty.
  - intros c [= <-]. simpl. lia.
Qed.

Lemma starttag_attrs_class attrs a :
  CustomHTMLParser.starttag_attrs attrs = Ok a →
  ∀ v, a !! "class" = Some v → ∃ l, v = StrList l.
Proof.
  unfold CustomHTMLParser.starttag_attrs.
  destruct (CustomHTMLParser.dict attrs !! "class") as [[c|]|] eqn:E;
    [|done|]; intros [= <-] v.
  - rewrite lookup_insert_eq. intros [= <-]. eauto.
  - by rewrite lookup_fmap, E.
Qed.

Lemma dict_last_value {A} (attrs : list (string * A)) k :
  CustomHTMLParser.dict attrs !! k = last_value k attrs.
Proof.
  unfold CustomHTMLParser.dict, last_value.
  generalize (∅ : gmap string A) (@None A) (lookup_empty (M:=gmap string) (A:=A) k).
  induction attrs as [|[k' v] attrs IH]; intros d acc Hd; [done|].
  cbn [foldl]. apply IH. simpl.
  case_decide as Hk; [subst; apply lookup_insert_eq|].
  by rewrite lookup_insert_ne.
Qed.

(** [handle_starttag] goes on exactly when the class, if given, has a value. *)
Lemma starttag_attrs_valued attrs :
  if class_valued attrs
  then ∃ a, CustomHTMLParser.starttag_attrs attrs = Ok a
  else CustomHTMLParser.starttag_attrs attrs = Raise AttributeError.
Proof.
  unfold class_valued, CustomHTMLParser.starttag_attrs.
  rewrite <- dict_last_value.
  destruct (CustomHTMLParser.dict attrs !! "class") as [[c|]|]; eauto.
Qed.

Lemma handle_starttag_wf tag attrs p p' :
  wf_parser p → CustomHTMLParser.handle_starttag tag attrs p = Ok p' →
  wf_parser p'.
Proof.
  destruct p as [h r cur]. intros (Hwf & Hr & Hcur). simpl in *.
  unfold CustomHTMLParser.handle_starttag. simpl.
  destruct (CustomHTMLParser.starttag_attrs attrs) as [a| |] eqn:Ha; [|done..].
  cbn [mbind result_bind].
  destruct cur as [c|]; [|done]. specialize (Hcur c eq_refl). simpl.
  unfold deref. rewrite lookup_app_l by done.
  destruct (h !! c) as [n|] eqn:Hc; [|done]. simpl. intros [= <-].
  set (new := HtmlTag.init tag a (Some c)).
  assert (∀ i, alter (HtmlTag.add_child (length h)) c (h ++ [new]) !! i
    = if decide (i = length h) then Some new
      else if decide (i = c) then Some (HtmlTag.add_child (length h) n)
      else h !! i) as Hlook.
  { intros i. destruct (decide (i = length h)) as [->|Hi].
    - rewrite list_lookup_alter_ne by lia.
      by rewrite lookup_app_r, Nat.sub_diag by lia.
    - destruct (decide (i = c)) as [->|Hic].
      + by rewrite list_lookup_alter_eq, lookup_app_l, Hc by done.
      + rewrite list_lookup_alter_ne by done.
        destruct (decide (i < length h)); [by rewrite lookup_app_l|].
        rewrite !lookup_ge_None_2; [done|lia|]. rewrite length_app. simpl. lia. }
  assert (∀ i, children_of (alter (HtmlTag.add_child (length h)) c (h ++ [new])) i
    = if decide (i = c) then children_of h c ++ [length h] else children_of h i)
    as Hchild.
  { intros i. unfold children_of. rewrite Hlook.
    destruct (decide (i = length h)) as [->|Hi].
    - rewrite decide_False by lia. simpl. by rewrite lookup_ge_None_2.
    - case_decide as Hic; [|done]. subst i. by rewrite Hc. }
  assert (∀ i, parent_of (alter (HtmlTag.add_child (length h)) c (h ++ [new])) i
    = if decide (i = length h) then Some c else parent_of h i) as Hpar.
  { intros i. unfold parent_of. rewrite Hlook.
    case_decide; [done|]. case_decide as Hic; [|done]. subst i. by rewrite Hc. }
  split; [|split; [done|]]; simpl.
  - split.
    + destruct (wf_root h Hwf) as (n0 & Hn0 & Hp & Htag & Hat).
      rewrite Hlook. rewrite decide_False by lia.
      case_decide as H0; [|eauto]. subst c.
      assert (n = n0) as -> by congruence. eexists. split; [done|]. done.
    + intros i o. rewrite Hchild, Hpar.
      case_decide as Hic.
      * subst i. intros [Ho|Ho]%elem_of_app;
          [|apply list_elem_of_singleton in Ho as ->].
        -- rewrite decide_False; [by apply (wf_child h Hwf)|].
           apply (wf_child h Hwf) in Ho. apply parent_of_lt_length in Ho. lia.
        -- by rewrite decide_True.
      * intros Ho. rewrite decide_False; [by apply (wf_child h Hwf)|].
        apply (wf_child h Hwf) in Ho. apply parent_of_lt_length in Ho. lia.
    + intros i. rewrite Hchild. case_decide; [|apply (wf_nodup h Hwf)].
      apply NoDup_app. split; [apply (wf_nodup h Hwf)|]. split.
      * intros o Ho Ho'. apply list_elem_of_singleton in Ho' as ->.
        apply (wf_child h Hwf) in Ho. apply parent_of_lt_length in Ho. lia.
      * apply NoDup_singleton.
    + intros i q. rewrite Hpar. case_decide; [|apply (wf_parent h Hwf)].
      intros [= <-]. lia.
    + intros i m. rewrite Hlook. case_decide.
      * intros [= <-] v. by apply (starttag_attrs_class attrs).
      * case_decide; [|apply (wf_class h Hwf)].
        intros [= <-] v. apply (wf_class h Hwf c n Hc).
  - intros ? [= <-]. rewrite length_alter, length_app. simpl. lia.
Qed.

(** A change of a tag's text or comments leaves the tree as it was. *)
Lemma alter_frame_wf (f : HtmlTag.t → HtmlTag.t) c h :
  (∀ n, HtmlTag.tag (f n) = HtmlTag.tag n ∧ HtmlTag.attrs (f n) = HtmlTag.attrs n
        ∧ HtmlTag.parent (f n) = HtmlTag.parent n
        ∧ HtmlTag.children (f n) = HtmlTag.children n) →
  wf h → wf (alter f c h).
Proof.
  intros Hf Hwf.
  assert (∀ i, children_of (alter f c h) i = children_of h i) as Hchild.
  { intros i. unfold children_of. destruct (decide (c = i)) as [->|].
    - rewrite list_lookup_alter_eq. destruct (h !! i); [|done]. simpl. apply Hf.
    - by rewrite list_lookup_alter_ne. }
  assert (∀ i, parent_of (alter f c h) i = parent_of h i) as Hpar.
  { intros i. unfold parent_of. destruct (decide (c = i)) as [->|].
    - rewrite list_lookup_alter_eq. destruct (h !! i); [|done]. simpl. apply Hf.
    - by rewrite list_lookup_alter_ne. }
  split.
  - destruct (wf_root h Hwf) as (n0 & Hn0 & Hp & Htag & Hat).
    destruct (decide (c = 0)) as [->|].
    + exists (f n0). rewrite list_lookup_alter_eq, Hn0. split; [done|].
      destruct (Hf n0) as (-> & -> & -> & _). done.
    + exists n0. by rewrite list_lookup_alter_ne.
  - intros i o. rewrite Hchild, Hpar. apply (wf_child h Hwf).
  - intros i. rewrite Hchild. apply (wf_nodup h Hwf).
  - intros i p. rewrite Hpar. apply (wf_parent h Hwf).
  - intros i n. destruct (decide (c = i)) as [->|].
    + rewrite list_lookup_alter_eq. destruct (h !! i) as [m|] eqn:E; [|done].
      intros [= <-]. intros v. destruct (Hf m) as (_ & -> & _).
      apply (wf_class h Hwf i m E).
    + rewrite list_lookup_alter_ne by done. apply (wf_class h Hwf).
Qed.

Lemma handle_data_wf data p p' :
  wf_parser p → CustomHTMLParser.handle_data data p = Ok p' → wf_parser p'.
Proof.
  destruct p as [h r cur]. intros (Hwf & Hr & Hcur). simpl in *.
  unfold CustomHTMLParser.handle_data. simpl.
  destruct cur as [c|]; [|done]. simpl. unfold deref.
  destruct (h !! c) as [n|]; [|done]. simpl. intros [= <-].
  split; [|split; [done|]]; simpl.
  - by apply alter_frame_wf.
  - intros ? [= <-]. rewrite length_alter. by apply Hcur.
Qed.

Lemma handle_comment_wf data p p' :
  wf_parser p → CustomHTMLParser.handle_comment data p = Ok p' → wf_parser p'.
Proof.
  destruct p as [h r cur]. intros (Hwf & Hr & Hcur). simpl in *.
  unfold CustomHTMLParser.handle_comment. simpl.
  destruct cur as [c|]; [|done]. simpl. unfold deref.
  destruct (h !! c) as [n|]; [|done]. simpl. intros [= <-].
  split; [|split; [done|]]; simpl.
  - by apply alter_frame_wf.
  - intros ? [= <-]. rewrite length_alter. by apply Hcur.
Qed.

Lemma chain_or_unmatched h name c :
  wf h → c < length h →
  (∃ vs t, chain h name (Some c) vs t) ∨ unmatched h name (Some c).
Proof.
  intros Hwf. induction (lt_wf c) as [c _ IH]. intros Hc.
  destruct (lookup_lt_is_Some_2 h c Hc) as [n Hn].
  destruct (decide (HtmlTag.tag n = name)) as [Htag|Htag].
  - left. exists [], c. by eapply chain_here.
  - destruct (HtmlTag.parent n) as [p|] eqn:Hp.
    + assert (parent_of h c = Some p) as Hpc by (unfold parent_of; by rewrite Hn).
      pose proof (wf_parent h Hwf _ _ Hpc) as Hlt.
      destruct (IH p Hlt) as [(vs & t & Hch)|Hun]; [lia| |].
      * left. exists (c :: vs), t. eapply chain_up; [done..|]. by rewrite Hp.
      * right. eapply unmatched_up; [done..|]. by rewrite Hp.
    + right. eapply unmatched_up; [done..|]. rewrite Hp. constructor.
Qed.

Lemma walk_unmatched h name cur :
  wf h → unmatched h name cur →
  ∀ fuel h' tags,
    (∀ c i, cur = Some c → i ≤ c → h' !! i = h !! i) →
    from_option (λ c, c + 2) 1 cur ≤ fuel →
    CustomHTMLParser.walk fuel name h' cur tags = Raise AttributeError.
Proof.
  intros Hwf. induction 1 as [|c n Hc Hn Hun IH];
    intros fuel h' tags Hagree Hfuel;
    (destruct fuel as [|fuel]; [simpl in Hfuel; lia|]); simpl; [done|].
  unfold deref. rewrite (Hagree c c) by done. rewrite Hc. simpl.
  rewrite decide_False by done. apply IH.
  - intros p i Hp Hi.
    assert (p < c).
    { apply (wf_parent h Hwf). unfold parent_of. by rewrite Hc. }
    rewrite list_lookup_alter_ne by lia. apply (Hagree c); [done|lia].
  - destruct (HtmlTag.parent n) as [p|] eqn:Hp; simpl in *; [|lia].
    assert (p < c); [|lia].
    apply (wf_parent h Hwf). unfold parent_of. by rewrite Hc.
Qed.

Lemma handle_endtag_unmatched p name :
  wf_parser p →
  unmatched (CustomHTMLParser.heap_of p) name (CustomHTMLParser.cur_tag p) →
  CustomHTMLParser.handle_endtag name p = Raise AttributeError.
Proof.
  destruct p as [h r cur]. simpl. intros (Hwf & Hr & Hcur) Hun.
  unfold CustomHTMLParser.handle_endtag.
  cbn [CustomHTMLParser.heap_of CustomHTMLParser.cur_tag CustomHTMLParser.root].
  rewrite (walk_unmatched h name cur Hwf Hun); [done|done|].
  destruct cur as [c|]; simpl; [|lia]. specialize (Hcur c eq_refl). simpl in *. lia.
Qed.

Lemma handle_endtag_wf name p p' :
  wf_parser p → CustomHTMLParser.handle_endtag name p = Ok p' → wf_parser p'.
Proof.
  intros Hp. pose proof Hp as (Hwf & Hr & Hcur).
  destruct (CustomHTMLParser.cur_tag p) as [c|] eqn:Hc.
  - destruct (chain_or_unmatched (CustomHTMLParser.heap_of p) name c Hwf)
      as [(vs & t & Hch)|Hun]; [by apply Hcur| |].
    + rewrite <- Hc in Hch. rewrite (handle_endtag_chain p name vs t Hp Hch).
      intros [= <-]. split; [|split; [done|]]; simpl.
      * by eapply endtag_wf.
      * intros q Hq. rewrite length_endtag_heap.
        apply (wf_parent _ Hwf) in Hq as Hlt.
        apply parent_of_lt_length in Hq. lia.
    + rewrite <- Hc in Hun. by rewrite handle_endtag_unmatched.
  - rewrite handle_endtag_unmatched; [done|done|]. rewrite Hc. constructor.
Qed.

Lemma handle_wf e p p' :
  wf_parser p → CustomHTMLParser.handle e p = Ok p' → wf_parser p'.
Proof.
  destruct e; simpl;
    eauto using handle_starttag_wf, handle_endtag_wf, handle_data_wf,
      handle_comment_wf.
Qed.

Lemma run_wf es p p' :
  wf_parser p → CustomHTMLParser.run es p = Ok p' → wf_parser p'.
Proof.
  revert p. induction es as [|e es IH]; intros p Hp; simpl.
  - by intros [= <-].
  - destruct (CustomHTMLParser.handle e p) as [q| |] eqn:He; [|done..].
    simpl. apply IH. by eapply handle_wf.
Qed.

Lemma feed_wf es h r : CustomHTMLParser.feed es = Ok (h, r) → wf h ∧ r = 0.
Proof.
  unfold CustomHTMLParser.feed.
  destruct (CustomHTMLParser.run es CustomHTMLParser.init) as [p| |] eqn:E;
    [|done..].
  simpl. intros [= <- <-].
  by destruct (run_wf _ _ _ init_wf E) as (? & ? & _).
Qed.

Lemma run_app es1 es2 p :
  CustomHTMLParser.run (es1 ++ es2) p
  = CustomHTMLParser.run es1 p ≫= CustomHTMLParser.run es2.
Proof.
  revert p. induction es1 as [|e es1 IH]; intros p; simpl; [done|].
  destruct (CustomHTMLParser.handle e p); simpl; [apply IH|done..].
Qed.

Lemma ancestors_unmatched h name c :
  wf h → c < length h →
  (∀ a n, ancestor h (Some c) a → h !! a = Some n → HtmlTag.tag n ≠ name) →
  unmatched h name (Some c).
Proof.
  intros Hwf. induction (lt_wf c) as [c _ IH]. intros Hc Hanc.
  destruct (lookup_lt_is_Some_2 h c Hc) as [n Hn].
  eapply unmatched_up; [done| |].
  - eapply Hanc; [constructor|done].
  - destruct (HtmlTag.parent n) as [p|] eqn:Hp; [|constructor].
    assert (parent_of h c = Some p) as Hpc by (unfold parent_of; by rewrite Hn).
    pose proof (wf_parent h Hwf _ _ Hpc) as Hlt.
    apply IH; [done|lia|].
    intros a m Ha Hm. eapply Hanc; [|done].
    eapply ancestor_up; [done|]. by rewrite Hp.
Qed.

(** C3: when the builder has run the events [es] and no tag from the cursor
    up to the root is named [name], [handle_endtag name] raises (the
    [AttributeError] of reading the tag of the root's parent, [None]), and
    so does [feed] on any stream that goes on with close([name]): no tree
    is returned. *)
Theorem unmatched_close_aborts es p name rest :
  CustomHTMLParser.run es CustomHTMLParser.init = Ok p →
  (∀ a n, ancestor (CustomHTMLParser.heap_of p) (CustomHTMLParser.cur_tag p) a →
          CustomHTMLParser.heap_of p !! a = Some n → HtmlTag.tag n ≠ name) →
  CustomHTMLParser.handle_endtag name p = Raise AttributeError
  ∧ CustomHTMLParser.feed (es ++ Close name :: rest) = Raise AttributeError.
Proof.
  intros Hrun Hanc. pose proof (run_wf _ _ _ init_wf Hrun) as Hp.
  assert (CustomHTMLParser.handle_endtag name p = Raise AttributeError) as He.
  { apply handle_endtag_unmatched; [done|].
    destruct Hp as (Hwf & _ & Hcur).
    destruct (CustomHTMLParser.cur_tag p) as [c|]; [|constructor].
    apply ancestors_unmatched; auto. }
  split; [done|].
  unfold CustomHTMLParser.feed. rewrite run_app, Hrun. simpl. by rewrite He.
Qed.

Lemma unmatched_close_aborts_witness :
  CustomHTMLParser.feed ([Open "div" []; Text "x"] ++ [Close "span"; Text "y"])
  = Raise AttributeError.
Proof.
  eapply (unmatched_close_aborts [Open "div" []; Text "x"] _ "span" [Text "y"]).
  - vm_compute. reflexivity.
  - intros a n Ha. simpl in Ha.
    inversion Ha as [|? ? ? Hl Ha']; subst.
    + intros [= <-]. done.
    + injection Hl as <-. simpl in Ha'.
      inversion Ha' as [|? ? ? Hl' Ha'']; subst.
      * intros [= <-]. done.
      * injection Hl' as <-. inversion Ha''.
Defined.

(** ** Recovery from a closing tag that is out of order *)

(** C1, as the code has it: after open(div) open(span) open(em) text("x")
    close(div) the root's only child is the div, and the div's children are
    the span and the em, in that order; neither has a child, and the em
    keeps its text "x". *)
Theorem recovery_example :
  ∃ h r, CustomHTMLParser.feed C1_events = Ok (h, r)
    ∧ children_of h r = [1] ∧ tag_of h 1 = Some "div"
    ∧ children_of h 1 = [2; 3]
    ∧ tag_of h 2 = Some "span" ∧ tag_of h 3 = Some "em"
    ∧ children_of h 2 = [] ∧ children_of h 3 = []
    ∧ parent_of h 2 = Some 1 ∧ parent_of h 3 = Some 1
    ∧ text_of h 3 = "x".
Proof. eexists _, _. split; [vm_compute; reflexivity|]. by vm_compute. Qed.

(** C1 as stated fails: the div is the root's only child, and it has
    children. *)
Lemma recovery_example_div_has_children :
  ∃ h r, CustomHTMLParser.feed C1_events = Ok (h, r)
    ∧ children_of h r = [1] ∧ tag_of h 1 = Some "div"
    ∧ children_of h 1 ≠ [].
Proof. eexists _, _. split; [vm_compute; reflexivity|]. by vm_compute. Qed.

(** C2, as the code has it: when the walk from the cursor visits the tags
    [vs] (the cursor first) before it reaches the target [t], named [name],
    [handle_endtag] returns; every visited tag is left without children;
    every orphan (a child of a visited tag; the children of the cursor
    first, those of the outermost visited tag last) has the target as its
    parent and no children; the orphans are appended in that order to the
    target's children; and the cursor moves to the target's parent. *)
Theorem handle_endtag_recovery es p name vs t :
  CustomHTMLParser.run es CustomHTMLParser.init = Ok p →
  chain (CustomHTMLParser.heap_of p) name (CustomHTMLParser.cur_tag p) vs t →
  ∃ p', CustomHTMLParser.handle_endtag name p = Ok p'
    ∧ Forall (λ v, children_of (CustomHTMLParser.heap_of p') v = []) vs
    ∧ Forall (λ o, parent_of (CustomHTMLParser.heap_of p') o = Some t
                   ∧ children_of (CustomHTMLParser.heap_of p') o = [])
             (orphans (CustomHTMLParser.heap_of p) vs)
    ∧ children_of (CustomHTMLParser.heap_of p') t
      = children_of (CustomHTMLParser.heap_of p) t
        ++ orphans (CustomHTMLParser.heap_of p) vs
    ∧ CustomHTMLParser.cur_tag p' = parent_of (CustomHTMLParser.heap_of p) t.
Proof.
  intros Hrun Hch. pose proof (run_wf _ _ _ init_wf Hrun) as Hp.
  pose proof Hp as (Hwf & _ & _).
  eexists. split; [by apply handle_endtag_chain|]. simpl.
  destruct (chain_target_fresh _ _ _ _ _ Hwf Hch) as [Htvs Hto].
  repeat split.
  - apply Forall_forall. intros v Hv.
    rewrite (endtag_children _ _ _ _ _ Hwf Hch).
    rewrite decide_False by (by intros ->). by rewrite decide_True by auto.
  - apply Forall_forall. intros o Ho.
    rewrite (endtag_children _ _ _ _ _ Hwf Hch), (endtag_parent _ _ _ _ _ Hwf Hch).
    rewrite decide_True by done.
    rewrite decide_False by (by intros ->). by rewrite decide_True by auto.
  - rewrite (endtag_children _ _ _ _ _ Hwf Hch). by rewrite decide_True.
Qed.

Lemma handle_endtag_recovery_witness :
  ∃ p p', CustomHTMLParser.run C2_events CustomHTMLParser.init = Ok p
    ∧ CustomHTMLParser.handle_endtag "a" p = Ok p'
    ∧ orphans (CustomHTMLParser.heap_of p) [4; 2] = [5; 3; 4]
    ∧ children_of (CustomHTMLParser.heap_of p') 1
      = children_of (CustomHTMLParser.heap_of p) 1
        ++ orphans (CustomHTMLParser.heap_of p) [4; 2].
Proof.
  assert (∃ p, CustomHTMLParser.run C2_events CustomHTMLParser.init = Ok p
            ∧ chain (CustomHTMLParser.heap_of p) "a"
                    (CustomHTMLParser.cur_tag p) [4; 2] 1
            ∧ orphans (CustomHTMLParser.heap_of p) [4; 2] = [5; 3; 4])
    as (p & Hrun & Hch & Ho).
  { eexists. split; [vm_compute; reflexivity|]. split; [|reflexivity].
    eapply chain_up; [reflexivity|done|]. eapply chain_up; [reflexivity|done|].
    eapply chain_here; [reflexivity|done]. }
  destruct (handle_endtag_recovery C2_events p "a" [4; 2] 1 Hrun Hch)
    as (p' & He & _ & _ & Hc & _).
  exists p, p'. split; [exact Hrun|]. split; [exact He|].
  split; [exact Ho|exact Hc].
Defined.

(** C2 as stated fails: the orphans are not appended with the outermost
    visited tag's children first. *)
Lemma handle_endtag_not_outer_first :
  ∃ p p', CustomHTMLParser.run C2_events CustomHTMLParser.init = Ok p
    ∧ chain (CustomHTMLParser.heap_of p) "a" (CustomHTMLParser.cur_tag p) [4; 2] 1
    ∧ CustomHTMLParser.handle_endtag "a" p = Ok p'
    ∧ children_of (CustomHTMLParser.heap_of p) 1 = [2]
    ∧ orphans_outer_first (CustomHTMLParser.heap_of p) [4; 2] = [3; 4; 5]
    ∧ children_of (CustomHTMLParser.heap_of p') 1 = [2; 5; 3; 4]
    ∧ children_of (CustomHTMLParser.heap_of p') 1
      ≠ children_of (CustomHTMLParser.heap_of p) 1
        ++ orphans_outer_first (CustomHTMLParser.heap_of p) [4; 2].
Proof.
  eexists _, _. split; [vm_compute; reflexivity|].
  split.
  { eapply chain_up; [reflexivity|done|]. eapply chain_up; [reflexivity|done|].
    eapply chain_here; [reflexivity|done]. }
  split; [vm_compute; reflexivity|]. by vm_compute.
Qed.

(** ** The queue loop of [select] *)

Lemma descendant_gt h r n : wf h → descendant h r n → r < n.
Proof.
  intros Hwf. induction 1 as [c Hc|m c _ IH Hc];
    apply (wf_child h Hwf) in Hc; apply (wf_parent h Hwf) in Hc; lia.
Qed.

(** The test raises only on a class that is [None]. *)
Lemma all_in_list classes l :
  Selector.all_in classes (StrList l)
  = Ok (forallb (λ c, bool_decide (c ∈ l)) classes).
Proof.
  induction classes as [|c classes IH]; [done|]. simpl.
  by destruct (bool_decide (c ∈ l)).
Qed.

Lemma check_cls_tokens s n :
  class_is_list n →
  Selector.check_cls s n
  = Ok (if 0 <? length (Selector.cls s)
        then match HtmlTag.attrs n !! "class" with
             | Some _ => forallb (λ c, bool_decide (c ∈ class_tokens n))
                                 (Selector.cls s)
             | None => false
             end
        else true).
Proof.
  intros Hn. unfold Selector.check_cls, class_tokens.
  destruct (0 <? length (Selector.cls s)); [|done].
  destruct (HtmlTag.attrs n !! "class") as [v|] eqn:Hv; [|done].
  destruct (Hn v Hv) as [l ->]. apply all_in_list.
Qed.

Lemma check_html_tag_returns s n :
  class_is_list n → ∃ b, Selector.check_html_tag s n = Ok b.
Proof.
  intros Hn. unfold Selector.check_html_tag.
  rewrite (check_cls_tokens s n Hn).
  destruct (Selector.check_tag s n && Selector.check_id s n); simpl; eauto.
Qed.

Lemma check_root_selector s n :
  HtmlTag.tag n = "root" → HtmlTag.attrs n = ∅ →
  Selector.check_html_tag s n = Ok true ↔ root_selector s.
Proof.
  intros Htag Hat. unfold Selector.check_html_tag, root_selector.
  unfold Selector.check_tag, Selector.check_id, Selector.check_cls,
    Selector.check_attrs.
  rewrite Htag, Hat, !lookup_empty. split.
  - destruct (decide (Selector.tag s = EmptyString)) as [Ht|Ht].
    + rewrite (bool_decide_eq_true_2 _ Ht). cbn [negb andb].
      destruct (decide (Selector.id s = EmptyString)) as [Hi|Hi].
      * rewrite (bool_decide_eq_true_2 _ Hi). cbn [negb andb].
        destruct (Selector.cls s) as [|c l]; [|done].
        cbn [length Nat.ltb Nat.leb mbind result_bind andb].
        destruct (map_to_list (Selector.attrs s)) as [|[k v] m] eqn:Hm.
        -- apply map_to_list_empty_iff in Hm. auto.
        -- simpl. by rewrite lookup_empty.
      * by rewrite (bool_decide_eq_false_2 _ Hi).
    + rewrite (bool_decide_eq_false_2 _ Ht). cbn [negb].
      destruct (decide (Selector.tag s = "root")) as [Hr|Hr].
      * rewrite (bool_decide_eq_true_2 _ Hr). cbn [andb].
        destruct (decide (Selector.id s = EmptyString)) as [Hi|Hi].
        -- rewrite (bool_decide_eq_true_2 _ Hi). cbn [negb andb].
           destruct (Selector.cls s) as [|c l]; [|done].
           cbn [length Nat.ltb Nat.leb mbind result_bind andb].
           destruct (map_to_list (Selector.attrs s)) as [|[k v] m] eqn:Hm.
           ++ apply map_to_list_empty_iff in Hm. auto.
           ++ simpl. by rewrite lookup_empty.
        -- by rewrite (bool_decide_eq_false_2 _ Hi).
      * by rewrite (bool_decide_eq_false_2 _ Hr).
  - intros (Ht & -> & -> & ->).
    rewrite map_to_list_empty. cbn [negb andb bool_decide]. simpl.
    destruct Ht as [-> | ->]; simpl; done.
Qed.

Lemma select_loop_results h r fuel q results tags :
  Forall (λ e, descendant h r e.1) q →
  Query.select_loop fuel h q results = Ok tags →
  ∃ more, tags = results ++ more ∧ Forall (descendant h r) more.
Proof.
  revert q results. induction fuel as [|fuel IH]; intros q results Hq; [done|].
  simpl. destruct q as [|[n sels] q].
  { intros [= <-]. exists []. by rewrite app_nil_r. }
  apply Forall_cons in Hq as [Hn Hq]. simpl in Hn.
  unfold deref. destruct (h !! n) as [node|] eqn:Hnode; [|done]. simpl.
  assert (∀ ss : list Selector.t,
    Forall (λ e, descendant h r e.1)
      (map (λ child, (child, ss)) (HtmlTag.children node))) as Hkids.
  { intros ss. apply Forall_forall. intros e He.
    apply list_elem_of_In, in_map_iff in He as (c & <- & Hc%list_elem_of_In).
    simpl. eapply descendant_step; [done|]. unfold children_of. by rewrite Hnode. }
  destruct sels as [|s rest]; [done|].
  destruct (Selector.check_html_tag s node) as [[]| |];
    cbn [mbind result_bind]; [| |done..].
  - destruct (length (s :: rest) =? 1).
    + intros (more & -> & Hmore)%IH; [|by apply Forall_app].
      exists (n :: more). rewrite <- app_assoc. split; [done|]. by constructor.
    + apply IH. by rewrite !Forall_app.
  - apply IH. by apply Forall_app.
Qed.

Lemma select_results h r fuel cmd tags :
  wf h → r = 0 → Query.select fuel h r cmd = Ok tags →
  Forall (proper_descendant h r) tags
  ∨ ∃ s tags', Selector.parse cmd = Ok [s] ∧ root_selector s
      ∧ tags = r :: tags' ∧ Forall (proper_descendant h r) tags'.
Proof.
  intros Hwf -> . unfold Query.select.
  destruct (Selector.parse cmd) as [sels| |]; [|done..]. simpl.
  destruct fuel as [|fuel]; [done|]. simpl.
  destruct (wf_root h Hwf) as (n0 & Hn0 & _ & Htag & Hat).
  unfold deref. rewrite Hn0. simpl.
  assert (∀ ss : list Selector.t,
    Forall (λ e, descendant h 0 e.1)
      (map (λ child, (child, ss)) (HtmlTag.children n0))) as Hkids.
  { intros ss. apply Forall_forall. intros e He.
    apply list_elem_of_In, in_map_iff in He as (c & <- & Hc%list_elem_of_In).
    simpl. apply descendant_child. unfold children_of. by rewrite Hn0. }
  assert (∀ l, Forall (descendant h 0) l → Forall (proper_descendant h 0) l)
    as Hproper.
  { intros l Hl. eapply Forall_impl; [exact Hl|]. intros n Hn. split; [done|].
    apply descendant_gt in Hn; [lia|done]. }
  destruct sels as [|s rest]; [done|].
  destruct (Selector.check_html_tag s n0) as [[]| |] eqn:Hcheck;
    cbn [mbind result_bind]; [| |done..].
  - destruct rest as [|s' rest]; simpl.
    + intros (more & -> & Hmore)%(select_loop_results h 0); [|done].
      right. exists s, more. repeat split; auto.
      all: by eapply (check_root_selector s n0).
    + intros (more & -> & Hmore)%(select_loop_results h 0);
        [|by apply Forall_app]. left. auto.
  - intros (more & -> & Hmore)%(select_loop_results h 0); [|done]. left. auto.
Qed.

Lemma entry_weight_mono N d d' : d ≤ d' → entry_weight N d ≤ entry_weight N d'.
Proof.
  intros Hd. induction Hd as [|d' _ IH]; [done|]. cbn [entry_weight]. nia.
Qed.

Lemma queue_weight_app N q1 q2 :
  queue_weight N (q1 ++ q2) = queue_weight N q1 + queue_weight N q2.
Proof.
  unfold queue_weight. induction q1 as [|e q1 IH]; simpl; [done|]. lia.
Qed.

Lemma queue_weight_children N n (ss : list Selector.t) cs :
  Forall (λ c, n < c) cs →
  queue_weight N (map (λ child, (child, ss)) cs)
  ≤ length cs * entry_weight N (N - S n).
Proof.
  unfold queue_weight. induction 1 as [|c cs Hc _ IH]; simpl; [done|].
  pose proof (entry_weight_mono N (N - c) (N - S n)). lia.
Qed.

Lemma NoDup_bounded_length (l : list nat) N :
  NoDup l → Forall (λ x, x < N) l → length l ≤ N.
Proof.
  intros Hnd Hl. rewrite <- (length_seq N 0) at 1. apply submseteq_length.
  apply NoDup_submseteq; [done|]. intros x Hx.
  rewrite Forall_forall in Hl. apply Hl in Hx. apply elem_of_seq. lia.
Qed.

Lemma children_bounds h n node :
  wf h → h !! n = Some node →
  Forall (λ c, n < c) (HtmlTag.children node)
  ∧ Forall (λ c, c < length h) (HtmlTag.children node)
  ∧ length (HtmlTag.children node) ≤ length h.
Proof.
  intros Hwf Hn.
  assert (children_of h n = HtmlTag.children node) as Hcs
    by (unfold children_of; by rewrite Hn).
  assert (Forall (λ c, n < c ∧ c < length h) (HtmlTag.children node)) as H.
  { apply Forall_forall. intros c Hc. rewrite <- Hcs in Hc.
    apply (wf_child h Hwf) in Hc. split.
    - by apply (wf_parent h Hwf).
    - by eapply parent_of_lt_length. }
  apply Forall_and in H as [H1 H2]. repeat split; [done..|].
  apply NoDup_bounded_length; [|done]. rewrite <- Hcs. apply (wf_nodup h Hwf).
Qed.

(** On a well-formed heap the loop ends, whatever the selectors. *)
Lemma select_loop_total h fuel q results :
  wf h →
  Forall (λ e, e.1 < length h ∧ e.2 ≠ []) q →
  queue_weight (length h) q < fuel →
  ∃ tags, Query.select_loop fuel h q results = Ok tags.
Proof.
  intros Hwf. revert q results.
  induction fuel as [|fuel IH]; intros q results Hq Hfuel; [lia|].
  simpl. destruct q as [|[n sels] q]; [eauto|].
  apply Forall_cons in Hq as [[Hn Hsels] Hq]. simpl in Hn, Hsels.
  destruct (lookup_lt_is_Some_2 h n Hn) as [node Hnode].
  unfold deref. rewrite Hnode. simpl.
  destruct (children_bounds h n node Hwf Hnode) as (Hgt & Hlt & Hlen).
  assert (∀ ss : list Selector.t, ss ≠ [] →
    Forall (λ e, e.1 < length h ∧ e.2 ≠ [])
      (map (λ child, (child, ss)) (HtmlTag.children node))) as Hkids.
  { intros ss Hss. apply Forall_forall. intros e He.
    apply list_elem_of_In, in_map_iff in He as (c & <- & Hc%list_elem_of_In).
    simpl. split; [|done]. rewrite Forall_forall in Hlt. by apply Hlt. }
  assert (∀ ss : list Selector.t,
    queue_weight (length h) (map (λ child, (child, ss)) (HtmlTag.children node))
    ≤ length h * entry_weight (length h) (length h - S n)) as Hw.
  { intros ss. etrans; [by apply queue_weight_children|].
    by apply Nat.mul_le_mono_r. }
  unfold queue_weight in Hfuel. cbn [map sum_list fst] in Hfuel.
  fold (queue_weight (length h) q) in Hfuel.
  replace (length h - n) with (S (length h - S n)) in Hfuel by lia.
  cbn [entry_weight] in Hfuel. unfold id in Hfuel.
  destruct sels as [|s rest]; [done|].
  destruct (check_html_tag_returns s node (wf_class h Hwf n node Hnode))
    as [b ->]. cbn [mbind result_bind].
  destruct b; [destruct rest as [|s' rest]; simpl|].
  - apply IH; [by apply Forall_app; auto|].
    rewrite queue_weight_app. specialize (Hw [s]). nia.
  - apply IH; [by rewrite !Forall_app; auto|].
    rewrite !queue_weight_app.
    pose proof (Hw (s :: s' :: rest)). pose proof (Hw (s' :: rest)). nia.
  - apply IH; [by apply Forall_app; auto|].
    rewrite queue_weight_app. specialize (Hw (s :: rest)). nia.
Qed.

Lemma select_loop_fuel h fuel fuel' q results tags :
  Query.select_loop fuel h q results = Ok tags → fuel ≤ fuel' →
  Query.select_loop fuel' h q results = Ok tags.
Proof.
  revert fuel' q results. induction fuel as [|fuel IH];
    intros fuel' q results; [done|].
  intros H Hle. destruct fuel' as [|fuel']; [lia|]. revert H. simpl.
  destruct q as [|[n sels] q]; [done|].
  destruct (deref h n) as [node| |]; [|done..]. simpl.
  destruct sels as [|s rest]; [done|].
  destruct (Selector.check_html_tag s node) as [[]| |];
    cbn [mbind result_bind]; [| |done..];
    [destruct (length (s :: rest) =? 1)|]; intros H; apply IH; auto; lia.
Qed.

Lemma split_nonempty sep s : split sep s ≠ [].
Proof.
  destruct s as [|c s]; simpl; [done|].
  case_decide; [done|]. by destruct (split sep s).
Qed.

Lemma init_all_nonempty parts sels :
  Selector.init_all parts = Ok sels → parts ≠ [] → sels ≠ [].
Proof.
  destruct parts as [|part parts]; [done|]. simpl. intros H _.
  destruct (Selector.init part); [|done..]. simpl in H.
  destruct (Selector.init_all parts); [|done..]. simpl in H. by injection H as <-.
Qed.

Lemma attrs_loop_result attrs d :
  (∃ a, Selector.attrs_loop attrs d = Ok a)
  ∨ Selector.attrs_loop attrs d = Raise ValueError.
Proof.
  revert d. induction attrs as [|x attrs IH]; intros d; simpl; [eauto|].
  unfold Selector.split_attr.
  destruct (split "=" x) as [|k [|v [|]]]; simpl; auto.
Qed.

Lemma init_result part :
  (∃ s, Selector.init part = Ok s) ∨ Selector.init part = Raise ValueError.
Proof.
  unfold Selector.init, Selector.clean_attrs.
  cbn [Selector.attr_sep mbind result_bind].
  destruct (attrs_loop_result (Selector.clean part "[" "]") ∅) as [[a ->]| ->];
    cbn [mbind result_bind]; eauto.
Qed.

(** A query parses into one selector at least, or is refused with
    [ValueError]. *)
Lemma parse_result cmd :
  (∃ sels, Selector.parse cmd = Ok sels ∧ sels ≠ [])
  ∨ Selector.parse cmd = Raise ValueError.
Proof.
  unfold Selector.parse. pose proof (split_nonempty Selector.sep cmd) as Hne.
  revert Hne. generalize (split Selector.sep cmd). intros parts.
  assert ((∃ sels, Selector.init_all parts = Ok sels)
          ∨ Selector.init_all parts = Raise ValueError) as H.
  { induction parts as [|part parts IH]; cbn [Selector.init_all]; [eauto|].
    destruct (init_result part) as [[a ->]| ->];
      cbn [mbind result_bind]; [|by right].
    destruct IH as [[sels ->]| ->]; cbn [mbind result_bind]; eauto. }
  intros Hne. destruct H as [[sels H]|H]; [left|by right].
  exists sels. split; [done|]. by eapply init_all_nonempty.
Qed.

(** On a well-formed heap a query that parses returns, from any tag. *)
Lemma select_total h self cmd sels :
  wf h → self < length h → Selector.parse cmd = Ok sels →
  ∃ tags, ∀ fuel, select_fuel h ≤ fuel →
    Query.select fuel h self cmd = Ok tags.
Proof.
  intros Hwf Hself Hparse. unfold Query.select. rewrite Hparse.
  cbn [mbind result_bind].
  assert (sels ≠ []) as Hne.
  { destruct (parse_result cmd) as [(sels' & H & ?)|H]; congruence. }
  destruct (select_loop_total h (select_fuel h) [(self, sels)] [] Hwf)
    as [tags Htags].
  - by constructor; [|constructor].
  - unfold select_fuel, queue_weight. simpl.
    pose proof (entry_weight_mono (length h) (length h - self) (length h)). lia.
  - exists tags. intros fuel Hfuel. by eapply select_loop_fuel.
Qed.

Lemma select_fuel_mono h self cmd fuel fuel' tags :
  Query.select fuel h self cmd = Ok tags → fuel ≤ fuel' →
  Query.select fuel' h self cmd = Ok tags.
Proof.
  unfold Query.select. destruct (Selector.parse cmd); [|done..].
  cbn [mbind result_bind]. apply select_loop_fuel.
Qed.

(** A query of one selector that the root satisfies returns the root
    first. *)
Lemma select_root_first h fuel cmd s tags :
  wf h → Selector.parse cmd = Ok [s] → root_selector s →
  Query.select fuel h 0 cmd = Ok tags →
  ∃ tags', tags = 0 :: tags' ∧ Forall (proper_descendant h 0) tags'.
Proof.
  intros Hwf Hparse Hs. unfold Query.select. rewrite Hparse.
  cbn [mbind result_bind].
  destruct fuel as [|fuel]; [done|]. cbn [Query.select_loop].
  destruct (wf_root h Hwf) as (n0 & Hn0 & _ & Htag & Hat).
  unfold deref. rewrite Hn0. cbn [mbind result_bind].
  rewrite (proj2 (check_root_selector s n0 Htag Hat) Hs).
  cbn [mbind result_bind length Nat.eqb app].
  intros (more & -> & Hmore)%(select_loop_results h 0).
  - exists more. split; [done|].
    eapply Forall_impl; [exact Hmore|]. intros n Hn. split; [done|].
    apply descendant_gt in Hn; [lia|done].
  - apply Forall_forall. intros e He.
    apply list_elem_of_In, in_map_iff in He as (c & <- & Hc%list_elem_of_In).
    simpl. apply descendant_child. unfold children_of. by rewrite Hn0.
Qed.

(** ** Numbers in paths *)

Lemma digit_not_space c : is_digit c → is_space c = false.
Proof.
  intros [d Hd]. unfold digit in Hd. unfold is_space. revert Hd.
  generalize (nat_of_ascii c). intros k.
  destruct (Nat.leb_spec 48 k), (Nat.leb_spec k 57); try done. intros _.
  destruct (Nat.leb_spec 9 k), (Nat.leb_spec k 13), (Nat.eqb_spec k 32),
    (Nat.eqb_spec k 133), (Nat.eqb_spec k 160); simpl; try done; lia.
Qed.

Lemma digit_not_char c c' : is_digit c → digit c' = None → c ≠ c'.
Proof. intros [d Hd] Hc' ->. congruence. Qed.

Lemma rstrip_digits s : all_digits s → rstrip s = s.
Proof.
  induction s as [|c s IH]; [done|]. intros [Hc Hs]. simpl.
  rewrite IH by done. destruct s; [|done]. by rewrite digit_not_space.
Qed.

Lemma lstrip_digits s : all_digits s → lstrip s = s.
Proof. destruct s as [|c s]; [done|]. intros [Hc _]. simpl. by rewrite digit_not_space. Qed.

Lemma string_of_uint_digits d : all_digits (NilEmpty.string_of_uint d).
Proof. induction d; simpl; (split; [by eexists|done]) || done. Qed.

Lemma digits_string_of_uint d acc b :
  d ≠ Decimal.Nil ∨ b = true →
  digits (Z.of_nat acc) b (NilEmpty.string_of_uint d)
  = Some (Z.of_nat (Nat.of_uint_acc d acc)).
Proof.
  revert acc b.
  induction d as [|d IH|d IH|d IH|d IH|d IH|d IH|d IH|d IH|d IH|d IH];
    intros acc b Hb; cbn [NilEmpty.string_of_uint digits Nat.of_uint_acc].
  1: { destruct Hb as [Hb|Hb]; [done|by subst]. }
  all: match goal with
       | |- context [digit ?c] =>
         let v := eval vm_compute in (digit c) in
         change (digit c) with v; cbv iota
       end.
  all: match goal with
       | |- digits ?z true _ = Some (Z.of_nat (Nat.of_uint_acc _ ?a)) =>
         replace z with (Z.of_nat a)
           by (rewrite Nat.tail_mul_spec; lia)
       end.
  all: apply IH; by right.
Qed.

Lemma to_uint_nonnil n : Nat.to_uint n ≠ Decimal.Nil.
Proof.
  intros H. assert (n = 0) as ->.
  { rewrite <- (Unsigned.of_to n), H. reflexivity. }
  discriminate.
Qed.

Lemma str_digits i : all_digits (Query.str i).
Proof. apply string_of_uint_digits. Qed.

Lemma int_str i : int (Query.str i) = Ok (Z.of_nat i).
Proof.
  unfold int, Query.str.
  rewrite lstrip_digits, rstrip_digits by apply string_of_uint_digits.
  assert (digits 0 false (NilEmpty.string_of_uint (Nat.to_uint i))
          = Some (Z.of_nat i)) as Hd.
  { rewrite (digits_string_of_uint _ 0); [|left; apply to_uint_nonnil].
    change (Nat.of_uint_acc (Nat.to_uint i) 0) with (Nat.of_uint (Nat.to_uint i)).
    by rewrite Unsigned.of_to. }
  pose proof (string_of_uint_digits (Nat.to_uint i)) as Hall.
  destruct (NilEmpty.string_of_uint (Nat.to_uint i)) as [|c s] eqn:E.
  - by rewrite Hd.
  - destruct Hall as [Hc _].
    assert (c ≠ "+"%char) by (by apply digit_not_char).
    assert (c ≠ "-"%char) by (by apply digit_not_char).
    destruct c as [[] [] [] [] [] [] [] []]; try done; by rewrite Hd.
Qed.

(** ** Paths *)

Lemma digits_no_colon s : all_digits s → no_char ":" s.
Proof.
  induction s as [|c s IH]; [done|]. intros [Hc Hs]. split; [|auto].
  by apply digit_not_char.
Qed.

Lemma split_no_char c s : no_char c s → split c s = [s].
Proof.
  induction s as [|c' s IH]; [done|]. intros [Hc Hs]. simpl.
  rewrite decide_False by done. by rewrite IH.
Qed.

Lemma split_app c s rest :
  no_char c s → split c (s +:+ String c rest) = s :: split c rest.
Proof.
  induction s as [|c' s IH]; simpl.
  - intros _. by rewrite decide_True.
  - intros [Hc Hs]. rewrite decide_False by done. by rewrite IH.
Qed.

Lemma append_cons c s t : String c s +:+ t = String c (s +:+ t).
Proof. reflexivity. Qed.

Lemma append_nil_r s : s +:+ EmptyString = s.
Proof. induction s as [|c s IH]; [done|]. by rewrite append_cons, IH. Qed.

Lemma append_assoc s1 s2 s3 : (s1 +:+ s2) +:+ s3 = s1 +:+ (s2 +:+ s3).
Proof. induction s1 as [|c s IH]; [done|]. by rewrite !append_cons, IH. Qed.

Lemma encode_app ixs1 ixs2 : encode (ixs1 ++ ixs2) = encode ixs1 +:+ encode ixs2.
Proof.
  induction ixs1 as [|i ixs1 IH]; [done|].
  cbn [app encode]. rewrite IH. by rewrite !append_assoc.
Qed.

Lemma split_encode i ixs :
  split ":" (Query.str i +:+ encode ixs) = map Query.str (i :: ixs).
Proof.
  revert i. induction ixs as [|j ixs IH]; intros i.
  - cbn [encode]. rewrite append_nil_r.
    apply split_no_char, digits_no_colon, str_digits.
  - cbn [encode]. change (":" +:+ ?s) with (String ":" s).
    rewrite split_app by apply digits_no_colon, str_digits.
    by rewrite IH.
Qed.

Lemma map_result_int_str ixs :
  map_result int (map Query.str ixs) = Ok (map Z.of_nat ixs).
Proof.
  induction ixs as [|i ixs IH]; [done|]. simpl. rewrite int_str. simpl.
  by rewrite IH.
Qed.

Lemma index_of_lookup x l i :
  NoDup l → l !! i = Some x → Query.index_of x l = Some i.
Proof.
  intros Hnd. revert i. induction Hnd as [|y l Hy Hnd IH]; intros i; [done|].
  destruct i as [|i]; simpl.
  - intros [= ->]. by rewrite decide_True.
  - intros Hi. rewrite decide_False.
    + by rewrite (IH i Hi).
    + intros ->. apply Hy. by eapply list_elem_of_lookup_2.
Qed.

Lemma get_path_loop_route h ixs n :
  wf h → route h 0 ixs n →
  ∀ fuel path, n < fuel →
    Query.get_path_loop fuel h n path = Ok (encode ixs +:+ path).
Proof.
  intros Hwf. induction 1 as [|ixs m i c Hm IH Hc]; intros fuel path Hfuel;
    (destruct fuel as [|fuel]; [lia|]); simpl.
  - destruct (wf_root h Hwf) as (n0 & Hn0 & Hp & _).
    unfold deref. rewrite Hn0. simpl. by rewrite Hp.
  - assert (c ∈ children_of h m) as Hin by (by eapply list_elem_of_lookup_2).
    pose proof (wf_child h Hwf _ _ Hin) as Hpar.
    pose proof (wf_parent h Hwf _ _ Hpar) as Hlt.
    unfold parent_of in Hpar. unfold deref.
    destruct (h !! c) as [cn|] eqn:Hcn; [|done]. simpl in Hpar. simpl.
    rewrite Hpar. unfold children_of in Hc, Hin.
    destruct (h !! m) as [mn|] eqn:Hmn; [|by apply elem_of_nil in Hin].
    simpl in Hc. simpl.
    rewrite (index_of_lookup c (HtmlTag.children mn) i); [|..|done].
    + rewrite IH by lia. rewrite encode_app. cbn [encode].
      by rewrite !append_assoc.
    + pose proof (wf_nodup h Hwf m) as Hnd. unfold children_of in Hnd.
      by rewrite Hmn in Hnd.
Qed.

Lemma descend_app h a l1 l2 :
  HtmlParser.descend h a (l1 ++ l2)
  = HtmlParser.descend h a l1 ≫= λ m, HtmlParser.descend h m l2.
Proof.
  revert a. induction l1 as [|i l1 IH]; intros a; [done|]. simpl.
  destruct (deref h a) as [n| |]; [|done..]. simpl.
  destruct (py_index (HtmlTag.children n) i) as [c| |]; [|done..]. simpl.
  apply IH.
Qed.

Lemma py_index_nat {A} (l : list A) i x :
  l !! i = Some x → py_index l (Z.of_nat i) = Ok x.
Proof.
  intros Hi. unfold py_index.
  destruct (Z.ltb_spec (Z.of_nat i) 0); [lia|].
  destruct (Z.ltb_spec (Z.of_nat i) 0); [lia|].
  by rewrite Nat2Z.id, Hi.
Qed.

Lemma descend_route h a ixs n :
  route h a ixs n → a < length h →
  HtmlParser.descend h a (map Z.of_nat ixs) = Ok n.
Proof.
  induction 1 as [|ixs m i c Hm IH Hc]; intros Ha; [done|].
  rewrite map_app, descend_app, IH by done. simpl.
  unfold children_of in Hc. unfold deref.
  destruct (h !! m) as [mn|]; [|done]. simpl in *.
  by rewrite (py_index_nat _ _ _ Hc).
Qed.

Lemma descendant_route h a n :
  descendant h a n → ∃ ixs, ixs ≠ [] ∧ route h a ixs n.
Proof.
  induction 1 as [c Hc|m c _ (ixs & _ & IH) Hc];
    apply list_elem_of_lookup_1 in Hc as [i Hi].
  - exists [i]. split; [done|]. apply (route_snoc h a [] a); [constructor|done].
  - exists (ixs ++ [i]). split; [by destruct ixs|]. by eapply route_snoc.
Qed.

Lemma route_nil_inv h a m : route h a [] m → m = a.
Proof.
  intros H. remember [] as l eqn:E.
  destruct H as [|ixs ? ? ? ? ?]; [done|]. by destruct ixs.
Qed.

Lemma route_descendant h a ixs n :
  route h a ixs n → ixs ≠ [] → descendant h a n.
Proof.
  induction 1 as [|ixs m i c Hm IH Hc]; [done|]. intros _.
  apply list_elem_of_lookup_2 in Hc.
  destruct ixs as [|j ixs].
  - apply route_nil_inv in Hm as ->. by apply descendant_child.
  - eapply descendant_step; [|done]. by apply IH.
Qed.

Lemma get_path_route h ixs n :
  wf h → route h 0 ixs n → n < length h →
  Query.get_path h n = Ok (string_drop 1 (encode ixs)).
Proof.
  intros Hwf Hr Hn. unfold Query.get_path.
  rewrite (get_path_loop_route h ixs n Hwf Hr) by lia. simpl.
  by rewrite append_nil_r.
Qed.

Lemma get_tag_encode h cache i ixs n :
  wf h → route h 0 (i :: ixs) n →
  HtmlParser.get_tag (HtmlParser.mk h 0 cache) (string_drop 1 (encode (i :: ixs)))
  = Ok n.
Proof.
  intros Hwf Hr. unfold HtmlParser.get_tag.
  cbn [encode]. change (":" +:+ ?s) with (String ":" s). cbn [string_drop].
  rewrite split_encode, map_result_int_str.
  cbn [mbind result_bind HtmlParser.heap_of HtmlParser.root].
  apply descend_route; [done|].
  destruct (wf_root h Hwf) as (n0 & Hn0 & _). by eapply lookup_lt_Some.
Qed.

(** ** Event streams in which every close has its open *)

Lemma spine_frame h h' cur open :
  wf h → spine h cur open →
  (∀ c i n, cur = Some c → i ≤ c → h !! i = Some n →
     ∃ n', h' !! i = Some n' ∧ HtmlTag.tag n' = HtmlTag.tag n
           ∧ HtmlTag.parent n' = HtmlTag.parent n) →
  spine h' cur open.
Proof.
  intros Hwf. induction 1 as [|c n open Hc0 Hc Hsp IH]; intros Hsame.
  - constructor.
  - destruct (Hsame c c n eq_refl (le_n _) Hc) as (n' & Hc' & <- & Hp).
    eapply spine_cons; [done..|]. rewrite Hp. apply IH.
    intros p i m Hpar Hi. apply (Hsame c); [done|].
    assert (p < c); [|lia].
    apply (wf_parent h Hwf). unfold parent_of. by rewrite Hc.
Qed.

Lemma spine_cursor h cur open :
  wf h → spine h cur open → ∃ c, cur = Some c ∧ c < length h.
Proof.
  intros Hwf [|c n ? _ Hc _].
  - destruct (wf_root h Hwf) as (n0 & Hn0 & _). eauto using lookup_lt_Some.
  - eauto using lookup_lt_Some.
Qed.

Lemma spine_close h cur open tag open' :
  spine h cur open → close_stack tag open = Some open' →
  ∃ vs t, chain h tag cur vs t ∧ spine h (parent_of h t) open'.
Proof.
  induction 1 as [|c n open Hc0 Hc Hsp IH]; [done|]. simpl.
  case_decide as Htag.
  - intros [= <-]. exists [], c. split; [by eapply chain_here|].
    unfold parent_of. by rewrite Hc.
  - intros (vs & t & Hch & Hsp')%IH. exists (c :: vs), t.
    split; [by eapply chain_up|done].
Qed.

Lemma run_well_formed es p open :
  wf_parser p →
  spine (CustomHTMLParser.heap_of p) (CustomHTMLParser.cur_tag p) open →
  well_formed_from open es = true → classes_valued es = true →
  ∃ p', CustomHTMLParser.run es p = Ok p'.
Proof.
  revert p open. induction es as [|e es IH]; intros p open Hp Hsp Hes Hcv;
    [by eexists|].
  cbn [classes_valued forallb] in Hcv. apply andb_true_iff in Hcv as [He Hcv].
  fold (classes_valued es) in Hcv.
  pose proof Hp as (Hwf & Hr & Hcur).
  destruct (spine_cursor _ _ _ Hwf Hsp) as (c & Hc & Hlt).
  destruct (lookup_lt_is_Some_2 _ _ Hlt) as [n Hn].
  cbn [CustomHTMLParser.run].
  assert (∀ p' open', CustomHTMLParser.handle e p = Ok p' →
    spine (CustomHTMLParser.heap_of p') (CustomHTMLParser.cur_tag p') open' →
    well_formed_from open' es = true →
    ∃ p'', CustomHTMLParser.handle e p ≫= CustomHTMLParser.run es = Ok p'')
    as Hnext.
  { intros p' open' He' Hsp' Hes'. rewrite He'. simpl.
    eapply IH; [by eapply handle_wf|done..]. }
  destruct p as [h r cur]. simpl in *. subst cur.
  destruct e as [tag attrs|tag|data|data]; simpl in Hes.
  - pose proof (starttag_attrs_valued attrs) as Ha. rewrite He in Ha.
    destruct Ha as [a Ha].
    eapply (Hnext _ (tag :: open)); [|simpl|done].
    + unfold CustomHTMLParser.handle, CustomHTMLParser.handle_starttag. simpl.
      rewrite Ha. cbn [mbind result_bind].
      unfold deref. by rewrite lookup_app_l, Hn by done.
    + pose (new := HtmlTag.init tag a (Some c)).
      assert (alter (HtmlTag.add_child (length h)) c (h ++ [new]) !! length h
              = Some new) as Hnew.
      { rewrite list_lookup_alter_ne by lia.
        by rewrite lookup_app_r, Nat.sub_diag by lia. }
      apply (spine_cons _ (length h) new open); [lia|done|]. simpl.
      eapply spine_frame; [done..|].
      intros ? i m [= <-] Hi Hm.
      destruct (decide (i = c)) as [->|Hne].
      * rewrite list_lookup_alter_eq, lookup_app_l, Hn by done.
        assert (m = n) as -> by congruence. by eexists.
      * rewrite list_lookup_alter_ne, lookup_app_l by (done || lia). eauto.
  - destruct (close_stack tag open) as [open'|] eqn:Hclose; [|done].
    destruct (spine_close _ _ _ _ _ Hsp Hclose) as (vs & t & Hch & Hsp').
    eapply (Hnext _ open'); [| |done].
    + cbn [CustomHTMLParser.handle].
      by apply (handle_endtag_chain (CustomHTMLParser.mk h r (Some c))).
    + simpl.
      destruct (chain_bounds _ _ _ _ _ Hwf Hch) as (? & _ & _ & Hvs & _).
      eapply spine_frame; [done..|].
      intros q i m Hq Hi Hm.
      rewrite (endtag_lookup _ _ _ _ _ Hwf Hch), Hm. simpl.
      eexists. split; [done|]. split; [done|]. simpl.
      rewrite decide_False; [done|].
      intros Hin. eapply orphans_above in Hin as [Hti _]; [|done..].
      apply (wf_parent h Hwf) in Hq. lia.
  - eapply (Hnext _ open); [| |done].
    + unfold CustomHTMLParser.handle, CustomHTMLParser.handle_data. simpl.
      unfold deref. by rewrite Hn.
    + cbn [CustomHTMLParser.heap_of CustomHTMLParser.cur_tag].
      eapply spine_frame; [done..|].
      intros ? i m [= <-] Hi Hm.
      destruct (decide (i = c)) as [->|Hne].
      * rewrite list_lookup_alter_eq, Hn.
        assert (m = n) as -> by congruence. by eexists.
      * rewrite list_lookup_alter_ne by done. eauto.
  - eapply (Hnext _ open); [| |done].
    + unfold CustomHTMLParser.handle, CustomHTMLParser.handle_comment. simpl.
      unfold deref. by rewrite Hn.
    + cbn [CustomHTMLParser.heap_of CustomHTMLParser.cur_tag].
      eapply spine_frame; [done..|].
      intros ? i m [= <-] Hi Hm.
      destruct (decide (i = c)) as [->|Hne].
      * rewrite list_lookup_alter_eq, Hn.
        assert (m = n) as -> by congruence. by eexists.
      * rewrite list_lookup_alter_ne by done. eauto.
Qed.

Lemma classes_valued_first es :
  classes_valued es = false →
  ∃ es1 tag attrs es2, es = es1 ++ Open tag attrs :: es2
    ∧ classes_valued es1 = true ∧ class_valued attrs = false.
Proof.
  induction es as [|e es IH]; [done|].
  cbn [classes_valued forallb]. fold (classes_valued es).
  destruct e as [tag attrs| | |]; cbn [andb];
    [destruct (class_valued attrs) eqn:Hcv; cbn [andb]|..].
  2: { intros _. by exists [], tag, attrs, es. }
  all: intros (es1 & tag' & attrs' & es2 & -> & H1 & H2)%IH.
  - exists (Open tag attrs :: es1), tag', attrs', es2.
    split; [done|]. split; [|done]. cbn [classes_valued forallb].
    rewrite Hcv. exact H1.
  - by exists (Close tag :: es1), tag', attrs', es2.
  - by exists (Text data :: es1), tag', attrs', es2.
  - by exists (Comment data :: es1), tag', attrs', es2.
Qed.

Lemma well_formed_from_prefix open es1 es2 :
  well_formed_from open (es1 ++ es2) = true → well_formed_from open es1 = true.
Proof.
  revert open. induction es1 as [|e es1 IH]; intros open; [done|].
  destruct e as [tag attrs|tag| |]; cbn [app well_formed_from]; [apply IH| |apply IH..].
  destruct (close_stack tag open); [apply IH|done].
Qed.

Lemma handle_starttag_unvalued tag attrs p :
  class_valued attrs = false →
  CustomHTMLParser.handle_starttag tag attrs p = Raise AttributeError.
Proof.
  intros Hcv. unfold CustomHTMLParser.handle_starttag.
  pose proof (starttag_attrs_valued attrs) as Ha. rewrite Hcv in Ha.
  by rewrite Ha.
Qed.

(** A stream in which every close names a tag that is open builds a tree,
    unless a class comes without a value: [feed] then raises
    [AttributeError]. *)
Lemma feed_well_formed es :
  well_formed es = true →
  if classes_valued es then ∃ h r, CustomHTMLParser.feed es = Ok (h, r)
  else CustomHTMLParser.feed es = Raise AttributeError.
Proof.
  intros Hes. unfold CustomHTMLParser.feed.
  destruct (classes_valued es) eqn:Hcv.
  - destruct (run_well_formed es CustomHTMLParser.init [] init_wf) as [p Hp];
      [constructor|done..|].
    rewrite Hp. simpl. eauto.
  - destruct (classes_valued_first es Hcv)
      as (es1 & tag & attrs & es2 & -> & H1 & H2).
    apply well_formed_from_prefix in Hes.
    destruct (run_well_formed es1 CustomHTMLParser.init [] init_wf) as [p Hp];
      [constructor|done..|].
    rewrite run_app, Hp. cbn [mbind result_bind CustomHTMLParser.run
      CustomHTMLParser.handle].
    by rewrite handle_starttag_unvalued.
Qed.

(** ** Paths lead back to their tags *)

Lemma path_roundtrip_built es h r cache n :
  CustomHTMLParser.feed es = Ok (h, r) → descendant h r n →
  ∃ path, Query.get_path h n = Ok path
    ∧ HtmlParser.get_tag (HtmlParser.mk h r cache) path = Ok n.
Proof.
  intros [Hwf ->]%feed_wf Hd.
  destruct (descendant_route _ _ _ Hd) as (ixs & Hne & Hr).
  destruct ixs as [|i ixs]; [done|].
  exists (string_drop 1 (encode (i :: ixs))). split.
  - apply get_path_route; [done..|].
    apply route_descendant in Hr; [|done].
    inversion Hr as [c Hc|m c _ Hc]; subst;
      apply (wf_child h Hwf) in Hc; by eapply parent_of_lt_length.
  - by apply get_tag_encode.
Qed.

(** C8, as the code has it: a well-formed event stream builds a tree, and
    for every tag of that tree other than the root, [get_path] returns a
    path that [get_tag] decodes, against the same root, to that same tag.
    The one well-formed stream that builds no tree is a stream of the
    tokenizer in which a class comes without a value, which the events of
    the specification do not have: on it [feed] raises [AttributeError]. *)
Theorem path_roundtrip es :
  well_formed es = true →
  if classes_valued es
  then ∃ h r, CustomHTMLParser.feed es = Ok (h, r)
         ∧ ∀ cache n, descendant h r n →
             ∃ path, Query.get_path h n = Ok path
               ∧ HtmlParser.get_tag (HtmlParser.mk h r cache) path = Ok n
  else CustomHTMLParser.feed es = Raise AttributeError.
Proof.
  intros Hes. pose proof (feed_well_formed es Hes) as H.
  destruct (classes_valued es); [|done].
  destruct H as (h & r & Hfeed). exists h, r. split; [done|].
  intros cache n. by apply (path_roundtrip_built es).
Qed.

Lemma path_roundtrip_witness :
  (∃ h r, CustomHTMLParser.feed C8_events = Ok (h, r)
     ∧ ∀ cache n, descendant h r n →
         ∃ path, Query.get_path h n = Ok path
           ∧ HtmlParser.get_tag (HtmlParser.mk h r cache) path = Ok n)
  ∧ CustomHTMLParser.feed [Open "div" [("class", None)]; Close "div"]
    = Raise AttributeError.
Proof.
  split.
  - exact (path_roundtrip C8_events eq_refl).
  - exact (path_roundtrip [Open "div" [("class", None)]; Close "div"] eq_refl).
Defined.

(** C8 as stated fails at the root: its path is the empty string, which
    [get_tag] does not decode. *)
Lemma path_of_root_does_not_decode :
  well_formed C8_events = true
  ∧ ∃ h r, CustomHTMLParser.feed C8_events = Ok (h, r)
      ∧ Query.get_path h r = Ok EmptyString
      ∧ HtmlParser.get_tag (HtmlParser.mk h r ∅) EmptyString = Raise ValueError.
Proof.
  split; [reflexivity|]. eexists _, _. split; [vm_compute; reflexivity|].
  split; vm_compute; reflexivity.
Qed.

(** ** Queries *)

(** C5, as the code has it: on a built tree [select] returns, for every
    query that parses, and what it returns is proper descendants of the
    root only, unless the query is a single token that the root satisfies
    (no tag or the tag "root"; no id, class or attribute); for such a query
    the root is the first tag returned, and the others are proper
    descendants. *)
Theorem select_root_only_for_root_query es h r cmd sels :
  CustomHTMLParser.feed es = Ok (h, r) →
  Selector.parse cmd = Ok sels →
  ∃ tags,
    (∀ fuel, select_fuel h ≤ fuel → Query.select fuel h r cmd = Ok tags)
    ∧ (∀ fuel tags0, Query.select fuel h r cmd = Ok tags0 → tags0 = tags)
    ∧ ((∃ s, sels = [s] ∧ root_selector s) →
       ∃ tags', tags = r :: tags' ∧ Forall (proper_descendant h r) tags')
    ∧ (¬ (∃ s, sels = [s] ∧ root_selector s) →
       Forall (proper_descendant h r) tags).
Proof.
  intros [Hwf ->]%feed_wf Hparse.
  assert (0 < length h) as Hlen.
  { destruct (wf_root h Hwf) as (n0 & Hn0 & _). by eapply lookup_lt_Some. }
  destruct (select_total h 0 cmd sels Hwf Hlen Hparse) as [tags Htags].
  pose proof (Htags (select_fuel h) (le_n _)) as Hsel.
  exists tags. split; [done|]. split; [|split].
  - intros fuel tags0 H0.
    pose proof (select_fuel_mono _ _ _ _ (fuel + select_fuel h) _ H0) as H1.
    rewrite Htags in H1 by lia. injection H1; [done|lia].
  - intros (s & -> & Hs). by eapply select_root_first.
  - intros Hno.
    destruct (select_results h 0 _ cmd tags Hwf eq_refl Hsel)
      as [H|(s & tags' & Hp & Hs & _)]; [done|].
    exfalso. apply Hno. exists s. split; [congruence|done].
Qed.

Lemma select_root_only_for_root_query_witness :
  ∃ h r, CustomHTMLParser.feed C5_events = Ok (h, r)
    ∧ (∀ fuel, select_fuel h ≤ fuel → Query.select fuel h r "p" = Ok [1])
    ∧ Forall (proper_descendant h r) [1]
    ∧ ∃ tags', (∀ fuel, select_fuel h ≤ fuel
                        → Query.select fuel h r EmptyString = Ok (r :: tags'))
        ∧ Forall (proper_descendant h r) tags'.
Proof.
  assert (∃ h r s1 s2, CustomHTMLParser.feed C5_events = Ok (h, r)
            ∧ Selector.parse "p" = Ok [s1] ∧ Selector.tag s1 = "p"
            ∧ Query.select 4 h r "p" = Ok [1]
            ∧ Selector.parse EmptyString = Ok [s2] ∧ root_selector s2)
    as (h & r & s1 & s2 & Hfeed & Hp1 & Ht1 & Hsel & Hp2 & Hs2).
  { eexists _, _, _, _. split; [vm_compute; reflexivity|].
    split; [vm_compute; reflexivity|]. split; [reflexivity|].
    split; [vm_compute; reflexivity|]. split; [vm_compute; reflexivity|].
    split; [by left|]. done. }
  exists h, r. split; [exact Hfeed|].
  destruct (select_root_only_for_root_query C5_events h r "p" [s1] Hfeed Hp1)
    as (tags & Hall & Hsame & _ & Hproper).
  destruct (select_root_only_for_root_query C5_events h r EmptyString [s2]
              Hfeed Hp2) as (tags2 & Hall2 & _ & Hroot & _).
  rewrite <- (Hsame 4 [1] Hsel) in Hall, Hproper.
  split; [exact Hall|]. split.
  - apply Hproper. intros (s & [= <-] & [Ht|Ht] & _);
      rewrite Ht1 in Ht; discriminate Ht.
  - destruct Hroot as (tags' & -> & Hp); [by exists s2|].
    exists tags'. split; [exact Hall2|exact Hp].
Defined.

(** C5 as stated fails: the empty query returns the root. *)
Lemma select_returns_root :
  ∃ h r, CustomHTMLParser.feed C5_events = Ok (h, r)
    ∧ Query.select 4 h r EmptyString = Ok [r; 1]
    ∧ Query.select 4 h r "root" = Ok [r].
Proof. eexists _, _. split; [vm_compute; reflexivity|]. by vm_compute. Qed.

(** On a built tree the loop of [select] ends: the query parses and, with
    fuel enough, the result is a list of tags; or the query does not parse
    and [select] raises the [ValueError] of the selector. *)
Theorem select_built_total es h r cmd :
  CustomHTMLParser.feed es = Ok (h, r) →
  (∃ sels tags, Selector.parse cmd = Ok sels
     ∧ ∀ fuel, select_fuel h ≤ fuel → Query.select fuel h r cmd = Ok tags)
  ∨ (Selector.parse cmd = Raise ValueError
     ∧ ∀ fuel, Query.select fuel h r cmd = Raise ValueError).
Proof.
  intros [Hwf ->]%feed_wf.
  assert (0 < length h) as Hlen.
  { destruct (wf_root h Hwf) as (n0 & Hn0 & _). by eapply lookup_lt_Some. }
  destruct (parse_result cmd) as [(sels & Hparse & _)|Hparse].
  - left. destruct (select_total h 0 cmd sels Hwf Hlen Hparse) as [tags Htags].
    by exists sels, tags.
  - right. split; [done|]. intros fuel. unfold Query.select. by rewrite Hparse.
Qed.

Lemma select_built_total_witness :
  ∃ h r, CustomHTMLParser.feed C5_events = Ok (h, r)
    ∧ ((∃ sels tags, Selector.parse "p" = Ok sels
          ∧ ∀ fuel, select_fuel h ≤ fuel → Query.select fuel h r "p" = Ok tags)
       ∨ (Selector.parse "p" = Raise ValueError
          ∧ ∀ fuel, Query.select fuel h r "p" = Raise ValueError)).
Proof.
  assert (∃ h r, CustomHTMLParser.feed C5_events = Ok (h, r))
    as (h & r & Hfeed).
  { eexists _, _. vm_compute. reflexivity. }
  exists h, r. split; [exact Hfeed|].
  exact (select_built_total C5_events h r "p" Hfeed).
Defined.

(** C10: an entry of the queue with one selector left, whose tag satisfies
    it, appends the tag to the results whatever they hold already; and for
    two nested divs around a span, the query "div span" returns the span
    twice. *)
Theorem select_records_duplicates :
  (∀ fuel h q n node s results,
     h !! n = Some node → Selector.check_html_tag s node = Ok true →
     Query.select_loop (S fuel) h ((n, [s]) :: q) results
     = Query.select_loop fuel h
         (q ++ map (λ child, (child, [s])) (HtmlTag.children node))
         (results ++ [n]))
  ∧ ∃ h r, CustomHTMLParser.feed C10_events = Ok (h, r)
      ∧ tag_of h 3 = Some "span"
      ∧ Query.select 8 h r "div span" = Ok [3; 3].
Proof.
  split.
  - intros fuel h q n node s results Hn Hs. cbn [Query.select_loop].
    unfold deref. rewrite Hn. cbn [mbind result_bind]. by rewrite Hs.
  - eexists _, _. split; [vm_compute; reflexivity|]. by vm_compute.
Qed.

(** ** The cache of [HtmlParser.select] *)

Lemma get_tags_paths es h r cache tags paths :
  CustomHTMLParser.feed es = Ok (h, r) →
  Forall (descendant h r) tags →
  map_result (Query.get_path h) tags = Ok paths →
  HtmlParser.get_tags (HtmlParser.mk h r cache) paths = Ok tags.
Proof.
  intros Hfeed Htags. revert paths.
  induction Htags as [|n tags Hn _ IH]; intros paths; simpl.
  - by intros [= <-].
  - destruct (path_roundtrip_built es h r cache n Hfeed Hn) as (path & -> & Hget).
    simpl. destruct (map_result (Query.get_path h) tags) as [ps| |]; [|done..].
    simpl. intros [= <-]. unfold HtmlParser.get_tags. simpl.
    rewrite Hget. simpl.
    specialize (IH ps eq_refl). unfold HtmlParser.get_tags in IH. by rewrite IH.
Qed.

(** When a call of [select] with the cache returns tags without the root,
    the next call with the cache returns the same tags: every cached path
    decodes. *)
Theorem cached_select_again es cache p cmd fuel tags p1 :
  HtmlParser.parse es cache = Ok p →
  HtmlParser.select fuel p cmd true = Ok (tags, p1) →
  HtmlParser.root p ∉ tags →
  ∀ fuel', HtmlParser.select fuel' p1 cmd true = Ok (tags, p1)
    ∧ ∃ paths, HtmlParser.cache_dict p1 !! cmd = Some paths
        ∧ HtmlParser.get_tags p1 paths = Ok tags.
Proof.
  unfold HtmlParser.parse.
  destruct (CustomHTMLParser.feed es) as [[h r]| |] eqn:Hfeed; [|done..].
  simpl. intros [= <-]. unfold HtmlParser.select at 1. simpl.
  destruct (cache !! cmd) as [paths|] eqn:Hcache.
  - destruct (HtmlParser.get_tags _ paths) as [ts| |] eqn:Hts; [|done..].
    simpl. intros [= <- <-] _ fuel'. unfold HtmlParser.select. simpl.
    rewrite Hcache, Hts. simpl. eauto.
  - destruct (Query.select fuel h r cmd) as [ts| |] eqn:Hsel; [|done..]. simpl.
    destruct (map_result (Query.get_path h) ts) as [paths| |] eqn:Hpaths;
      [|done..].
    simpl. intros [= <- <-] Hroot fuel'.
    assert (HtmlParser.get_tags
              (HtmlParser.mk h r (<[cmd:=paths]> cache)) paths = Ok ts) as Hget.
    { eapply get_tags_paths; [done| |done].
      destruct (feed_wf es h r Hfeed) as [Hwf Hr0].
      destruct (select_results h r fuel cmd ts Hwf Hr0 Hsel)
        as [H|(s & ts' & _ & _ & -> & _)].
      - eapply Forall_impl; [exact H|]. by intros n [? _].
      - exfalso. apply Hroot. simpl. apply list_elem_of_here. }
    unfold HtmlParser.select. simpl. rewrite lookup_insert_eq, Hget. simpl.
    split; [done|]. by exists paths.
Qed.

Lemma cached_select_again_witness :
  ∃ p p1, HtmlParser.parse C10_events ∅ = Ok p
    ∧ HtmlParser.select 8 p "div span" true = Ok ([3; 3], p1)
    ∧ HtmlParser.select 0 p1 "div span" true = Ok ([3; 3], p1).
Proof.
  assert (∃ p p1, HtmlParser.parse C10_events ∅ = Ok p
            ∧ HtmlParser.select 8 p "div span" true = Ok ([3; 3], p1)
            ∧ HtmlParser.root p ∉ [3; 3]) as (p & p1 & Hp & Hs & Hr).
  { eexists _, _. split; [vm_compute; reflexivity|].
    split; [vm_compute; reflexivity|].
    vm_compute. intros H.
    repeat (apply elem_of_cons in H as [H|H]; [discriminate H|]).
    by apply elem_of_nil in H. }
  exists p, p1. split; [exact Hp|]. split; [exact Hs|].
  exact (proj1 (cached_select_again C10_events ∅ p "div span" 8 [3; 3] p1
                  Hp Hs Hr 0)).
Defined.

(** C9 fails where the first call returns the root: for the empty query
    the first call with the cache returns the root and the p, and caches the
    paths "" and "0"; the second call with the cache raises [ValueError] on
    the path of the root, where a call without the cache returns the same
    two tags again. *)
Theorem cached_select_of_root_raises :
  ∃ p p1, HtmlParser.init C5_events = Ok p
    ∧ HtmlParser.select 4 p EmptyString false = Ok ([0; 1], p1)
    ∧ HtmlParser.select 4 p EmptyString true = Ok ([0; 1], p1)
    ∧ HtmlParser.cache_dict p1 !! EmptyString = Some [EmptyString; "0"]
    ∧ HtmlParser.select 4 p1 EmptyString false = Ok ([0; 1], p1)
    ∧ HtmlParser.select 4 p1 EmptyString true = Raise ValueError.
Proof.
  eexists _, _. split; [vm_compute; reflexivity|].
  split; [vm_compute; reflexivity|]. by vm_compute.
Qed.

(** ** The test of a selector on a tag *)

Lemma check_tag_iff s n :
  Selector.check_tag s n = true
  ↔ Selector.tag s = EmptyString ∨ Selector.tag s = HtmlTag.tag n.
Proof.
  unfold Selector.check_tag.
  destruct (decide (Selector.tag s = EmptyString)) as [He|Hne].
  - rewrite bool_decide_eq_true_2 by done. simpl. tauto.
  - rewrite bool_decide_eq_false_2 by done. simpl.
    rewrite bool_decide_eq_true. tauto.
Qed.

Lemma check_id_iff s n :
  Selector.check_id s n = true
  ↔ Selector.id s = EmptyString
    ∨ HtmlTag.attrs n !! "id" = Some (Str (Selector.id s)).
Proof.
  unfold Selector.check_id.
  destruct (decide (Selector.id s = EmptyString)) as [He|Hne].
  - rewrite bool_decide_eq_true_2 by done. simpl. tauto.
  - rewrite bool_decide_eq_false_2 by done. simpl.
    destruct (HtmlTag.attrs n !! "id") as [v|].
    + rewrite bool_decide_eq_true. split; [intros ->; by right|].
      intros [?|[= ->]]; done.
    + split; [done|]. by intros [?|?].
Qed.

Lemma check_cls_iff s n :
  class_is_list n →
  Selector.check_cls s n = Ok true
  ↔ Selector.cls s = [] ∨ ∀ c, c ∈ Selector.cls s → c ∈ class_tokens n.
Proof.
  intros Hn. unfold Selector.check_cls, class_tokens.
  destruct (Selector.cls s) as [|c0 cs] eqn:Hcls; [simpl; tauto|].
  change (0 <? length (c0 :: cs)) with true. cbv iota.
  destruct (HtmlTag.attrs n !! "class") as [v|] eqn:Hv.
  - destruct (Hn v Hv) as [l ->]. rewrite all_in_list.
    generalize (c0 :: cs). intros cls. split.
    + intros [= H]. right. intros c Hc. apply list_elem_of_In in Hc.
      rewrite forallb_forall in H.
      apply H in Hc. by apply bool_decide_eq_true in Hc.
    + intros [->|H]; [done|]. f_equal. apply forallb_forall.
      intros c Hc. apply list_elem_of_In in Hc.
      apply bool_decide_eq_true. by apply H.
  - split; [done|]. intros [?|H]; [done|].
    specialize (H c0 (list_elem_of_here _ _)). by apply elem_of_nil in H.
Qed.

Lemma check_attrs_iff s n :
  Selector.check_attrs s n = true
  ↔ ∀ k v, Selector.attrs s !! k = Some v
           → HtmlTag.attrs n !! k = Some (Str v).
Proof.
  unfold Selector.check_attrs. rewrite forallb_forall. split.
  - intros H k v Hkv. apply elem_of_map_to_list, list_elem_of_In in Hkv.
    apply H in Hkv. simpl in Hkv.
    destruct (HtmlTag.attrs n !! k) as [w|]; [|done].
    by apply bool_decide_eq_true in Hkv as <-.
  - intros H [k v] Hkv. apply list_elem_of_In, elem_of_map_to_list in Hkv.
    simpl. rewrite (H k v Hkv). by apply bool_decide_eq_true.
Qed.

Lemma check_html_tag_spec s n :
  class_is_list n →
  Selector.check_html_tag s n = Ok true
  ↔ (Selector.tag s = EmptyString ∨ Selector.tag s = HtmlTag.tag n)
    ∧ (Selector.id s = EmptyString
       ∨ HtmlTag.attrs n !! "id" = Some (Str (Selector.id s)))
    ∧ (Selector.cls s = [] ∨ ∀ c, c ∈ Selector.cls s → c ∈ class_tokens n)
    ∧ (∀ k v, Selector.attrs s !! k = Some v
              → HtmlTag.attrs n !! k = Some (Str v)).
Proof.
  intros Hn.
  rewrite <- check_tag_iff, <- check_id_iff, <- (check_cls_iff s n Hn),
    <- check_attrs_iff.
  unfold Selector.check_html_tag.
  destruct (Selector.check_tag s n), (Selector.check_id s n);
    cbn [andb]; [|by split; [|intros (? & ? & _)]..].
  destruct (Selector.check_cls s n) as [[]| |]; cbn [mbind result_bind andb];
    [|by split; [|intros (_ & _ & ? & _)]..].
  destruct (Selector.check_attrs s n); [done|].
  by split; [|intros (_ & _ & _ & ?)].
Qed.

(** C4: for every selector and every tag of a built tree, [check_html_tag]
    returns, and it holds exactly when the selector's tag is empty or the tag's name, its id
    is empty or the tag's id attribute, its class list is empty or every
    class of it is among the tag's class tokens, and every attribute of it
    is an attribute of the tag with the same value. *)
Theorem check_html_tag_iff es h r i n s :
  CustomHTMLParser.feed es = Ok (h, r) → h !! i = Some n →
  (∃ b, Selector.check_html_tag s n = Ok b)
  ∧ (Selector.check_html_tag s n = Ok true
     ↔ (Selector.tag s = EmptyString ∨ Selector.tag s = HtmlTag.tag n)
       ∧ (Selector.id s = EmptyString
          ∨ HtmlTag.attrs n !! "id" = Some (Str (Selector.id s)))
       ∧ (Selector.cls s = [] ∨ ∀ c, c ∈ Selector.cls s → c ∈ class_tokens n)
       ∧ (∀ k v, Selector.attrs s !! k = Some v
                 → HtmlTag.attrs n !! k = Some (Str v))).
Proof.
  intros [Hwf _]%feed_wf Hn.
  pose proof (wf_class h Hwf i n Hn) as Hclass.
  split; [by apply check_html_tag_returns|by apply check_html_tag_spec].
Qed.

Lemma check_html_tag_iff_witness :
  ∃ h r n s, CustomHTMLParser.feed C4_events = Ok (h, r) ∧ h !! 1 = Some n
    ∧ Selector.init "div.foo#main" = Ok s
    ∧ class_tokens n = ["foo"; "bar"]
    ∧ Selector.check_html_tag s n = Ok true
    ∧ (Selector.tag s = EmptyString ∨ Selector.tag s = HtmlTag.tag n)
    ∧ (Selector.id s = EmptyString
       ∨ HtmlTag.attrs n !! "id" = Some (Str (Selector.id s)))
    ∧ (Selector.cls s = [] ∨ ∀ c, c ∈ Selector.cls s → c ∈ class_tokens n)
    ∧ (∀ k v, Selector.attrs s !! k = Some v
              → HtmlTag.attrs n !! k = Some (Str v)).
Proof.
  assert (∃ h r n s, CustomHTMLParser.feed C4_events = Ok (h, r)
            ∧ h !! 1 = Some n ∧ Selector.init "div.foo#main" = Ok s
            ∧ class_tokens n = ["foo"; "bar"]
            ∧ Selector.check_html_tag s n = Ok true)
    as (h & r & n & s & Hfeed & Hn & Hs & Hc & Hcheck).
  { eexists _, _, _, _. split; [vm_compute; reflexivity|].
    split; [reflexivity|]. split; [vm_compute; reflexivity|].
    split; vm_compute; reflexivity. }
  exists h, r, n, s. do 4 (split; [assumption|]). split; [exact Hcheck|].
  exact (proj1 (proj2 (check_html_tag_iff C4_events h r 1 n s Hfeed Hn)) Hcheck).
Defined.

(** ** The classes of a selector *)

Lemma string_drop_nil i : string_drop i EmptyString = EmptyString.
Proof. by destruct i. Qed.

Lemma string_drop_S i s c rest :
  string_drop i s = String c rest → string_drop (S i) s = rest.
Proof.
  revert s. induction i as [|i IH]; intros s; simpl.
  - by intros ->.
  - destruct s as [|a s]; [done|]. apply IH.
Qed.

Lemma slice_snoc s0 i cmd c rest :
  s0 ≤ i → string_drop i cmd = String c rest →
  slice s0 (S i) cmd = slice s0 i cmd +:+ String c EmptyString.
Proof.
  unfold slice. revert s0 i. induction cmd as [|a cmd IH]; intros s0 i Hle.
  - by rewrite string_drop_nil.
  - destruct i as [|i].
    + assert (s0 = 0) as -> by lia. simpl. by intros [= -> _].
    + cbn [string_drop]. intros Hd. destruct s0 as [|s0].
      * specialize (IH 0 i (Nat.le_0_l _) Hd). simpl in *. by rewrite IH.
      * cbn [string_take string_drop]. apply IH; [lia|done].
Qed.

Lemma slice_end s0 i cmd :
  string_drop i cmd = EmptyString → string_drop s0 cmd = slice s0 i cmd.
Proof.
  unfold slice. revert s0 i. induction cmd as [|a cmd IH]; intros s0 i.
  - intros _. destruct i; simpl; by rewrite ?string_drop_nil.
  - destruct i as [|i]; [done|]. cbn [string_drop]. intros Hd.
    destruct s0 as [|s0]; simpl.
    + f_equal. apply (IH 0 i Hd).
    + by apply IH.
Qed.

Lemma slice_same i cmd : slice i i cmd = EmptyString.
Proof.
  unfold slice. revert cmd. induction i as [|i IH]; intros cmd; [done|].
  destruct cmd; simpl; [done|apply IH].
Qed.

Lemma clean_loop_classes cmd stops :
  char_in "." stops = true → (∀ rest, cmd ≠ String "." rest) →
  ∀ rest i start acc,
    string_drop i cmd = rest →
    (∀ s, start = Some s → 0 < s < i) →
    Selector.clean_loop cmd "." stops i rest start acc
    = acc
      ++ match start with
         | Some s => [slice (S s) i cmd +:+ until_stop stops rest]
         | None => []
         end
      ++ classes_spec stops rest.
Proof.
  intros Hdot Hfirst rest.
  induction rest as [|c rest IH]; intros i start acc Hdrop Hstart.
  - cbn [Selector.clean_loop until_stop classes_spec].
    destruct start as [s|]; [|by rewrite app_nil_r].
    rewrite app_nil_r, append_nil_r. by rewrite (slice_end (S s) i).
  - pose proof (string_drop_S _ _ _ _ Hdrop) as Hdrop'.
    cbn [Selector.clean_loop until_stop classes_spec].
    destruct (char_in c stops) eqn:Hc.
    + destruct start as [s|].
      * destruct (Hstart s eq_refl) as [Hs0 Hsi].
        destruct s as [|s]; [lia|]. cbn [Selector.truthy andb default from_option].
        unfold id. rewrite append_nil_r.
        destruct (decide (c = "."%char)) as [->|Hne].
        -- rewrite IH; [|done|intros ? [= <-]; lia].
           rewrite slice_same. by rewrite <- !app_assoc.
        -- rewrite IH; [|done..]. by rewrite <- !app_assoc.
      * cbn [Selector.truthy andb].
        destruct (decide (c = "."%char)) as [->|Hne].
        -- assert (0 < i).
           { destruct i; [|lia]. simpl in Hdrop. by destruct (Hfirst rest). }
           rewrite IH; [|done|intros ? [= <-]; lia].
           by rewrite slice_same.
        -- by rewrite IH.
    + cbn [andb]. assert (c ≠ "."%char) as Hne by (intros ->; congruence).
      rewrite !decide_False by done.
      rewrite IH; [|done|intros s Hs; specialize (Hstart s Hs); lia].
      destruct start as [s|]; [|done].
      destruct (Hstart s eq_refl).
      rewrite (slice_snoc (S s) i cmd c rest) by (done || lia).
      by rewrite append_assoc.
Qed.

Lemma classes_spec_no_dot stops s :
  char_in "." s = false → classes_spec stops s = [].
Proof.
  induction s as [|c s IH]; [done|]. simpl.
  destruct (decide (c = "."%char)) as [->|Hne]; [done|].
  rewrite bool_decide_eq_false_2 by done. simpl. apply IH.
Qed.

(** C6, as the code has it: for a selector token that does not begin with
    ".", the classes are the substrings a "." introduces, each ending at the
    next ".", "#", "[" or "]", or at the end of the token, in order. *)
Theorem clean_cls_classes cmd :
  (∀ rest, cmd ≠ String "." rest) →
  Selector.clean_cls cmd = classes_spec ".#[]" cmd.
Proof.
  intros Hfirst. unfold Selector.clean_cls, Selector.clean.
  change (Selector.cls_sep +:+ Selector.id_sep +:+ Selector.attr_sep)
    with ".#[]".
  destruct (char_in "." cmd) eqn:Hdot; cbn [negb].
  - by rewrite (clean_loop_classes cmd ".#[]" eq_refl Hfirst cmd 0 None []).
  - by rewrite classes_spec_no_dot.
Qed.

Lemma clean_cls_classes_witness :
  Selector.clean_cls "a#main.x.y[data-v=3]" = ["x"; "y"]
  ∧ Selector.clean_cls "a#main.x.y[data-v=3]"
    = classes_spec ".#[]" "a#main.x.y[data-v=3]".
Proof.
  split; [vm_compute; reflexivity|].
  apply (clean_cls_classes "a#main.x.y[data-v=3]"). intros rest. discriminate.
Defined.

(** C6 as stated fails: "]" ends a class as well. *)
Lemma clean_cls_stops_at_bracket :
  Selector.clean_cls "a[href=x.html]" = ["html"]
  ∧ classes_spec ".#[" "a[href=x.html]" = ["html]"]
  ∧ Selector.clean_cls "a[href=x.html]" ≠ classes_spec ".#[" "a[href=x.html]".
Proof. by vm_compute. Qed.

(** A token that begins with ".": the test [and start] of line 142 takes the
    index 0 for false, and the class that begins there is not closed. *)
Lemma clean_cls_leading_dot :
  Selector.clean_cls ".foo.bar" = ["bar"]
  ∧ classes_spec ".#[]" ".foo.bar" = ["foo"; "bar"]
  ∧ Selector.clean_cls ".foo" = ["foo"]
  ∧ Selector.clean_cls ".foo#x" = ["foo#x"].
Proof. by vm_compute. Qed.

(** ** The attributes of a selector *)

(** [__clean] on a token that does not begin with the separator. *)
Lemma clean_loop_pieces cmd c0 stops rest :
  ∀ i start acc,
    string_drop i cmd = rest →
    (0 < i ∨ ∀ r, cmd ≠ String c0 r) →
    (∀ s, start = Some s → 0 < s < i) →
    Selector.clean_loop cmd c0 stops i rest start acc
    = acc ++ pieces c0 stops ((λ s, slice (S s) i cmd) <$> start) rest.
Proof.
  induction rest as [|c rest IH]; intros i start acc Hdrop Hfirst Hstart.
  - cbn [Selector.clean_loop pieces].
    destruct start as [s|]; cbn [fmap option_fmap option_map option_list];
      [|by rewrite app_nil_r].
    by rewrite (slice_end (S s) i).
  - pose proof (string_drop_S _ _ _ _ Hdrop) as Hdrop'.
    assert (c = c0 → 0 < i) as Hpos.
    { intros ->. destruct Hfirst as [?|Hfirst]; [done|].
      destruct i; [|lia]. simpl in Hdrop. by destruct (Hfirst rest). }
    cbn [Selector.clean_loop pieces].
    destruct (char_in c stops) eqn:Hc.
    + destruct start as [s|].
      * destruct (Hstart s eq_refl) as [Hs0 Hsi].
        destruct s as [|s]; [lia|].
        cbn [Selector.truthy andb default from_option fmap option_fmap option_map option_list].
        unfold id.
        destruct (decide (c = c0)) as [->|Hne].
        -- rewrite IH; [|done|left; lia|intros ? [= <-]; lia].
           cbn [fmap option_fmap option_map]. rewrite slice_same.
           by rewrite <- !app_assoc.
        -- rewrite IH; [|done|left; lia|done]. by rewrite <- !app_assoc.
      * cbn [Selector.truthy andb fmap option_fmap option_map option_list app].
        destruct (decide (c = c0)) as [->|Hne].
        -- specialize (Hpos eq_refl).
           rewrite IH; [|done|left; lia|intros ? [= <-]; lia].
           cbn [fmap option_fmap option_map]. by rewrite slice_same.
        -- rewrite IH; [done|done|left; lia|done].
    + cbn [andb app].
      destruct (decide (c = c0)) as [->|Hne].
      * specialize (Hpos eq_refl).
        rewrite IH; [|done|left; lia|intros ? [= <-]; lia].
        cbn [fmap option_fmap option_map]. by rewrite slice_same.
      * rewrite IH; [|done|left; lia|intros s Hs; specialize (Hstart s Hs); lia].
        destruct start as [s|]; [|done].
        destruct (Hstart s eq_refl).
        cbn [fmap option_fmap option_map].
        by rewrite (slice_snoc (S s) i cmd c rest) by (done || lia).
Qed.

Lemma pieces_absent c0 stops s :
  char_in c0 s = false → pieces c0 stops None s = [].
Proof.
  induction s as [|c s IH]; [done|]. simpl.
  intros [Hc Hs]%orb_false_iff. apply bool_decide_eq_false in Hc.
  rewrite decide_False by done.
  by destruct (char_in c stops); simpl; apply IH.
Qed.

Lemma clean_pieces cmd c0 stops :
  (∀ r, cmd ≠ String c0 r) →
  Selector.clean cmd c0 stops = pieces c0 stops None cmd.
Proof.
  intros Hfirst. unfold Selector.clean.
  destruct (char_in c0 cmd) eqn:Hin; cbn [negb].
  - by rewrite (clean_loop_pieces cmd c0 stops cmd 0 None []); [|done|right|].
  - by rewrite pieces_absent.
Qed.

Lemma length_split c s : length (split c s) = S (count_char c s).
Proof.
  induction s as [|a s IH]; [done|]. simpl.
  case_decide; simpl; [by rewrite IH|].
  destruct (split c s); simpl in *; [done|lia].
Qed.

Lemma split_none c s : count_char c s = 0 → split c s = [s].
Proof.
  induction s as [|a s IH]; [done|]. simpl.
  case_decide; [done|]. simpl. by intros ->%IH.
Qed.

Lemma split_one c s :
  count_char c s = 1 →
  ∃ k v, split c s = [k; v] ∧ split_first c s = Some (k, v).
Proof.
  induction s as [|a s IH]; [done|]. simpl.
  case_decide as Ha; simpl.
  - intros [= Hs]. exists EmptyString, s. by rewrite (split_none c s Hs).
  - intros (k & v & -> & ->)%IH. by exists (String a k), v.
Qed.

Lemma split_attr_one attr :
  count_char "=" attr = 1 →
  ∃ kv, split_first "=" attr = Some kv ∧ Selector.split_attr attr = Ok kv.
Proof.
  intros (k & v & Hs & Hf)%split_one. exists (k, v).
  unfold Selector.split_attr. by rewrite Hs.
Qed.

Lemma split_attr_not_one attr :
  count_char "=" attr ≠ 1 → Selector.split_attr attr = Raise ValueError.
Proof.
  intros Hc. unfold Selector.split_attr.
  pose proof (length_split "=" attr) as Hlen.
  destruct (split "=" attr) as [|k [|v [|? ?]]]; simpl in Hlen; try done.
  lia.
Qed.

Lemma dict_lookup pairs (d : gmap string string) k :
  foldl (λ d kv, <[kv.1 := kv.2]> d) d pairs !! k
  = foldl (λ acc kv, if decide (kv.1 = k) then Some kv.2 else acc)
          (d !! k) pairs.
Proof.
  revert d. induction pairs as [|[k' v] pairs IH]; intros d; [done|].
  cbn [foldl]. rewrite IH. f_equal. simpl.
  case_decide as Hk; [subst; apply lookup_insert_eq|by apply lookup_insert_ne].
Qed.

Lemma attrs_loop_pairs attrs pairs d :
  Forall2 (λ attr kv, Selector.split_attr attr = Ok kv) attrs pairs →
  Selector.attrs_loop attrs d = Ok (foldl (λ d kv, <[kv.1 := kv.2]> d) d pairs).
Proof.
  intros H. revert d. induction H as [|attr [k v] attrs pairs Hs _ IH];
    intros d; [done|].
  simpl. rewrite Hs. simpl. apply IH.
Qed.

Lemma attrs_loop_raises attrs d :
  Exists (λ attr, count_char "=" attr ≠ 1) attrs →
  Selector.attrs_loop attrs d = Raise ValueError.
Proof.
  intros H. revert d. induction attrs as [|attr attrs IH]; intros d.
  - by apply Exists_nil in H.
  - simpl. destruct (decide (count_char "=" attr = 1)) as [H1|H1].
    + destruct (split_attr_one attr H1) as ([k v] & _ & ->). simpl.
      apply IH. apply Exists_cons in H as [?|?]; done.
    + by rewrite split_attr_not_one.
Qed.

(** C7, as the code has it: for a token that does not begin with "[",
    the attribute substrings are those that begin after a "[" and run to
    the next "]", or to the end of the token (a "[" inside one begins it
    anew).  When every one of them holds exactly one "=", [__clean_attrs]
    splits each at its "=" into key and value and puts the pairs into a
    dictionary in their order, so that the value of a key is that of its
    last pair; when one of them holds no "=" or more than one,
    [__clean_attrs] raises [ValueError]. *)
Theorem clean_attrs_pairs cmd :
  (∀ rest, cmd ≠ String "[" rest) →
  (Forall (λ attr, count_char "=" attr = 1) (pieces "[" "]" None cmd) →
   ∃ pairs,
     Forall2 (λ attr kv, split_first "=" attr = Some kv)
             (pieces "[" "]" None cmd) pairs
     ∧ Selector.clean_attrs cmd = Ok (CustomHTMLParser.dict pairs)
     ∧ Selector.clean_attrs cmd = attrs_spec (pieces "[" "]" None cmd)
     ∧ ∀ k, CustomHTMLParser.dict pairs !! k = last_value k pairs)
  ∧ (Exists (λ attr, count_char "=" attr ≠ 1) (pieces "[" "]" None cmd) →
     Selector.clean_attrs cmd = Raise ValueError).
Proof.
  intros Hfirst.
  unfold Selector.clean_attrs. cbn [Selector.attr_sep mbind result_bind].
  rewrite (clean_pieces cmd "[" "]" Hfirst).
  generalize (pieces "[" "]" None cmd). intros attrs. split.
  - intros Hall.
    assert (∃ pairs,
      Forall2 (λ attr kv, split_first "=" attr = Some kv
                          ∧ Selector.split_attr attr = Ok kv) attrs pairs)
      as [pairs Hpairs].
    { induction Hall as [|attr attrs H1 _ [pairs IH]]; [by exists []|].
      destruct (split_attr_one attr H1) as (kv & ? & ?).
      exists (kv :: pairs). by constructor. }
    exists pairs. split; [|split; [|split]].
    + eapply Forall2_impl; [done|]. by intros ? ? [? _].
    + apply attrs_loop_pairs. eapply Forall2_impl; [done|]. by intros ? ? [_ ?].
    + unfold attrs_spec.
      assert (map_result (λ attr, match split_first "=" attr with
                                  | Some kv => Ok kv
                                  | None => Raise ValueError
                                  end) attrs = Ok pairs) as ->.
      { clear Hall.
        induction Hpairs as [|attr kv attrs pairs [Hf _] _ IH]; [done|].
        simpl. rewrite Hf. simpl. by rewrite IH. }
      simpl. apply attrs_loop_pairs.
      eapply Forall2_impl; [done|]. by intros ? ? [_ ?].
    + intros k. unfold CustomHTMLParser.dict, last_value.
      by rewrite dict_lookup, lookup_empty.
  - apply attrs_loop_raises.
Qed.

Lemma clean_attrs_pairs_witness :
  pieces "[" "]" None "a[k=v][j=u][k=w]" = ["k=v"; "j=u"; "k=w"]
  ∧ ∃ pairs,
      Forall2 (λ attr kv, split_first "=" attr = Some kv)
              (pieces "[" "]" None "a[k=v][j=u][k=w]") pairs
      ∧ Selector.clean_attrs "a[k=v][j=u][k=w]"
        = Ok (CustomHTMLParser.dict pairs)
      ∧ Selector.clean_attrs "a[k=v][j=u][k=w]"
        = attrs_spec (pieces "[" "]" None "a[k=v][j=u][k=w]")
      ∧ ∀ k, CustomHTMLParser.dict pairs !! k = last_value k pairs.
Proof.
  split; [vm_compute; reflexivity|].
  apply (proj1 (clean_attrs_pairs "a[k=v][j=u][k=w]"
                  ltac:(intros rest; discriminate))).
  vm_compute. repeat constructor.
Defined.

(** C7 as stated fails: a substring with a second "=" is not split at the
    first one; the selector is refused. *)
Lemma clean_attrs_second_eq_raises :
  pieces "[" "]" None "a[k=v=w]" = ["k=v=w"]
  ∧ split_first "=" "k=v=w" = Some ("k", "v=w")
  ∧ Selector.clean_attrs "a[k=v=w]" = Raise ValueError
  ∧ Selector.clean_attrs "a[k=v=w]"
    ≠ attrs_spec (pieces "[" "]" None "a[k=v=w]").
Proof.
  split; [vm_compute; reflexivity|]. split; [vm_compute; reflexivity|].
  split; [vm_compute; reflexivity|].
  assert (Selector.clean_attrs "a[k=v=w]" = Raise ValueError) as ->
    by (vm_compute; reflexivity).
  assert (∃ d, attrs_spec (pieces "[" "]" None "a[k=v=w]") = Ok d)
    as [d ->]; [|done].
  eexists. vm_compute. reflexivity.
Qed.

(** ** The shape of a built tree *)

(** In a tree the builder returns the root has no parent, the tags of a
    child list have the owner of the list as their parent, no child list
    holds a tag twice, and no tag is below itself. *)
Theorem built_tree_consistent es h r :
  CustomHTMLParser.feed es = Ok (h, r) →
  parent_of h r = None
  ∧ (∀ i c, c ∈ children_of h i → parent_of h c = Some i)
  ∧ (∀ i, NoDup (children_of h i))
  ∧ (∀ n, ¬ descendant h n n).
Proof.
  intros [Hwf ->]%feed_wf. repeat split.
  - destruct (wf_root h Hwf) as (n0 & Hn0 & Hp & _).
    unfold parent_of. by rewrite Hn0.
  - apply (wf_child h Hwf).
  - apply (wf_nodup h Hwf).
  - intros n Hn. apply descendant_gt in Hn; [lia|done].
Qed.

Lemma built_tree_consistent_witness :
  ∃ h r, CustomHTMLParser.feed C2_events = Ok (h, r)
    ∧ parent_of h r = None
    ∧ (∀ i c, c ∈ children_of h i → parent_of h c = Some i)
    ∧ (∀ i, NoDup (children_of h i))
    ∧ (∀ n, ¬ descendant h n n).
Proof.
  assert (∃ h r, CustomHTMLParser.feed C2_events = Ok (h, r))
    as (h & r & Hfeed).
  { eexists _, _. vm_compute. reflexivity. }
  exists h, r. split; [exact Hfeed|].
  exact (built_tree_consistent C2_events h r Hfeed).
Defined.

(** ** Paths as addresses *)

Lemma str_nonempty i : Query.str i ≠ EmptyString.
Proof.
  unfold Query.str. pose proof (to_uint_nonnil i) as H.
  by destruct (Nat.to_uint i).
Qed.

(** In a built tree the path of a tag below the root is not empty, and two
    tags below the root with the same path are the same tag. *)
Theorem get_path_injective es h r n1 n2 path :
  CustomHTMLParser.feed es = Ok (h, r) →
  descendant h r n1 → descendant h r n2 →
  Query.get_path h n1 = Ok path → Query.get_path h n2 = Ok path →
  path ≠ EmptyString ∧ n1 = n2.
Proof.
  intros Hfeed Hd1 Hd2 Hp1 Hp2. split.
  - pose proof (feed_wf _ _ _ Hfeed) as [Hwf ->].
    destruct (descendant_route _ _ _ Hd1) as (ixs & Hne & Hr).
    destruct ixs as [|i ixs]; [done|].
    assert (n1 < length h) as Hlt.
    { inversion Hd1 as [c Hc|m c _ Hc]; subst;
        apply (wf_child h Hwf) in Hc; by eapply parent_of_lt_length. }
    rewrite (get_path_route h (i :: ixs) n1 Hwf Hr Hlt) in Hp1.
    injection Hp1 as <-. cbn [encode].
    change (":" +:+ ?s) with (String ":" s). cbn [string_drop].
    pose proof (str_nonempty i). by destruct (Query.str i).
  - destruct (path_roundtrip_built es h r ∅ n1 Hfeed Hd1) as (p1 & Hq1 & Hg1).
    destruct (path_roundtrip_built es h r ∅ n2 Hfeed Hd2) as (p2 & Hq2 & Hg2).
    congruence.
Qed.

Lemma get_path_injective_witness :
  ∃ h r, CustomHTMLParser.feed C8_events = Ok (h, r)
    ∧ Query.get_path h 2 = Ok "0:0"
    ∧ ("0:0" ≠ EmptyString ∧ 2 = 2).
Proof.
  assert (∃ h r, CustomHTMLParser.feed C8_events = Ok (h, r)
            ∧ Query.get_path h 2 = Ok "0:0" ∧ descendant h r 2)
    as (h & r & Hfeed & Hp & Hd).
  { eexists _, _. split; [vm_compute; reflexivity|].
    split; [vm_compute; reflexivity|].
    eapply descendant_step; [apply descendant_child|];
      vm_compute; repeat constructor. }
  exists h, r. split; [exact Hfeed|]. split; [exact Hp|].
  exact (get_path_injective C8_events h r 2 2 "0:0" Hfeed Hd Hd Hp Hp).
Defined.

(** ** The indices of a path *)

Lemma int_minus_str i : int ("-" +:+ Query.str i) = Ok (- Z.of_nat i)%Z.
Proof.
  unfold int. change ("-" +:+ ?s) with (String "-" s).
  assert (lstrip (String "-" (Query.str i)) = String "-" (Query.str i)) as ->
    by reflexivity.
  assert (rstrip (String "-" (Query.str i)) = String "-" (Query.str i)) as ->.
  { cbn [rstrip]. rewrite rstrip_digits by apply str_digits.
    pose proof (str_nonempty i). by destruct (Query.str i). }
  unfold Query.str.
  rewrite (digits_string_of_uint _ 0); [|left; apply to_uint_nonnil].
  change (Nat.of_uint_acc (Nat.to_uint i) 0) with (Nat.of_uint (Nat.to_uint i)).
  by rewrite Unsigned.of_to.
Qed.

(** [get_tag] on a path of one index that has no more digits than [int]
    reads: the child of the root at that index, or [IndexError] past the
    last child; after a minus sign the index counts from the last child
    backwards, and [IndexError] is raised before the first child. *)
Theorem get_tag_one_index p n i :
  (Z.of_nat (S i) < 10 ^ Z.of_nat int_max_str_digits)%Z →
  HtmlParser.heap_of p !! HtmlParser.root p = Some n →
  HtmlParser.get_tag p (Query.str i)
  = match HtmlTag.children n !! i with
    | Some c => Ok c
    | None => Raise IndexError
    end
  ∧ HtmlParser.get_tag p ("-" +:+ Query.str (S i))
    = match reverse (HtmlTag.children n) !! i with
      | Some c => Ok c
      | None => Raise IndexError
      end.
Proof.
  intros _ Hn. unfold HtmlParser.get_tag. split.
  - rewrite split_no_char by apply digits_no_colon, str_digits.
    cbn [map_result]. rewrite int_str. cbn [mbind result_bind HtmlParser.descend].
    unfold deref. rewrite Hn. cbn [mbind result_bind].
    unfold py_index.
    destruct (Z.ltb_spec (Z.of_nat i) 0); [lia|].
    destruct (Z.ltb_spec (Z.of_nat i) 0); [lia|].
    rewrite Nat2Z.id. by destruct (HtmlTag.children n !! i).
  - assert (no_char ":" ("-" +:+ Query.str (S i))) as Hno.
    { split; [done|]. apply digits_no_colon, str_digits. }
    rewrite split_no_char by done.
    cbn [map_result]. rewrite int_minus_str.
    cbn [mbind result_bind HtmlParser.descend].
    unfold deref. rewrite Hn. cbn [mbind result_bind].
    unfold py_index.
    destruct (Z.ltb_spec (- Z.of_nat (S i)) 0); [|lia].
    destruct (Z.ltb_spec (Z.of_nat (length (HtmlTag.children n))
                          + - Z.of_nat (S i)) 0) as [Hlt|Hge].
    + rewrite (proj2 (lookup_ge_None _ _)); [done|]. rewrite length_reverse. lia.
    + assert (i < length (HtmlTag.children n)) as Hi by lia.
      rewrite reverse_lookup by done.
      replace (Z.to_nat (Z.of_nat (length (HtmlTag.children n)) + - Z.of_nat (S i)))
        with (length (HtmlTag.children n) - S i) by lia.
      destruct (lookup_lt_is_Some_2 (HtmlTag.children n)
                  (length (HtmlTag.children n) - S i)) as [c Hc]; [lia|].
      by rewrite Hc.
Qed.

Lemma get_tag_one_index_witness :
  ∃ p, HtmlParser.init C2_events = Ok p
    ∧ HtmlParser.get_tag p (Query.str 0) = Ok 1
    ∧ HtmlParser.get_tag p (Query.str 1) = Raise IndexError
    ∧ HtmlParser.get_tag p ("-" +:+ Query.str 1) = Ok 1
    ∧ HtmlParser.get_tag p ("-" +:+ Query.str 2) = Raise IndexError.
Proof.
  assert (∃ p n, HtmlParser.init C2_events = Ok p
            ∧ HtmlParser.heap_of p !! HtmlParser.root p = Some n
            ∧ HtmlTag.children n = [1]) as (p & n & Hp & Hn & Hc).
  { eexists _, _. split; [vm_compute; reflexivity|]. split; reflexivity. }
  exists p. split; [exact Hp|].
  assert (Z.of_nat 1 < 10 ^ Z.of_nat int_max_str_digits)%Z as Hb1
    by (vm_compute; reflexivity).
  assert (Z.of_nat 2 < 10 ^ Z.of_nat int_max_str_digits)%Z as Hb2
    by (vm_compute; reflexivity).
  pose proof (get_tag_one_index p n 0 Hb1 Hn) as [H0 H0'].
  pose proof (get_tag_one_index p n 1 Hb2 Hn) as [H1 H1'].
  rewrite Hc in H0, H0', H1, H1'.
  exact (conj H0 (conj H1 (conj H0' H1'))).
Defined.

(** ** The attributes of a new tag *)

(** [handle_starttag] with the cursor on a tag.  When the attributes give
    a class without a value, it raises [AttributeError].  Otherwise the tag
    it makes is a new object that is the last child of the cursor and the
    new cursor; it has the cursor as its parent, no children and no text.
    Of two attributes of the same name the later one counts; the class
    attribute is the list of the pieces between single spaces, and any
    other attribute is the string given, or [None] when none was given. *)
Theorem handle_starttag_new_tag tag attrs p c :
  CustomHTMLParser.cur_tag p = Some c →
  c < length (CustomHTMLParser.heap_of p) →
  match last_value "class" attrs with
  | Some None =>
    CustomHTMLParser.handle_starttag tag attrs p = Raise AttributeError
  | cls =>
    ∃ p' n, CustomHTMLParser.handle_starttag tag attrs p = Ok p'
      ∧ CustomHTMLParser.cur_tag p' = Some (length (CustomHTMLParser.heap_of p))
      ∧ CustomHTMLParser.heap_of p' !! length (CustomHTMLParser.heap_of p) = Some n
      ∧ children_of (CustomHTMLParser.heap_of p') c
        = children_of (CustomHTMLParser.heap_of p) c
          ++ [length (CustomHTMLParser.heap_of p)]
      ∧ HtmlTag.tag n = tag ∧ HtmlTag.parent n = Some c
      ∧ HtmlTag.children n = [] ∧ HtmlTag.text n = EmptyString
      ∧ HtmlTag.attrs n !! "class"
        = (λ v, StrList (split " " v)) <$> mjoin cls
      ∧ ∀ k, k ≠ "class" →
             HtmlTag.attrs n !! k
               = CustomHTMLParser.attr_value <$> last_value k attrs
  end.
Proof.
  destruct p as [h r cur]. simpl. intros -> Hc.
  destruct (lookup_lt_is_Some_2 h c Hc) as [cn Hcn].
  unfold CustomHTMLParser.handle_starttag, CustomHTMLParser.starttag_attrs.
  rewrite (dict_last_value attrs "class").
  assert (∀ a : gmap string value,
    ∃ p' n,
      (let h0 := h ++ [HtmlTag.init tag a (Some c)] in
       deref_opt h0 (Some c) ≫= λ '(c0, _),
         Ok (CustomHTMLParser.mk (alter (HtmlTag.add_child (length h)) c0 h0)
               r (Some (length h)))) = Ok p'
      ∧ CustomHTMLParser.cur_tag p' = Some (length h)
      ∧ CustomHTMLParser.heap_of p' !! length h = Some n
      ∧ children_of (CustomHTMLParser.heap_of p') c
        = children_of h c ++ [length h]
      ∧ HtmlTag.tag n = tag ∧ HtmlTag.parent n = Some c
      ∧ HtmlTag.children n = [] ∧ HtmlTag.text n = EmptyString
      ∧ HtmlTag.attrs n = a) as Hnew.
  { intros a. cbn [deref_opt mbind result_bind].
    unfold deref. rewrite lookup_app_l, Hcn by done. cbn [mbind result_bind].
    eexists _, _. split; [done|]. simpl. split; [done|]. split.
    { rewrite list_lookup_alter_ne by lia.
      by rewrite lookup_app_r, Nat.sub_diag by lia. }
    split; [|done].
    unfold children_of.
    by rewrite list_lookup_alter_eq, lookup_app_l, Hcn by done. }
  destruct (last_value "class" attrs) as [[v|]|] eqn:E; [|done|];
    cbn [mbind result_bind CustomHTMLParser.heap_of CustomHTMLParser.root
         CustomHTMLParser.cur_tag];
    match goal with
    | |- context [HtmlTag.init tag ?a (Some c)] =>
      destruct (Hnew a) as (p' & n & Hs & H1 & H2 & H3 & H4 & H5 & H6 & H7 & H8)
    end;
    exists p', n; do 8 (split; [assumption|]); rewrite H8; split.
  - by rewrite lookup_insert_eq.
  - intros k Hk. rewrite lookup_insert_ne by done.
    by rewrite lookup_fmap, dict_last_value.
  - by rewrite lookup_fmap, dict_last_value, E.
  - intros k Hk. by rewrite lookup_fmap, dict_last_value.
Qed.

Lemma handle_starttag_new_tag_witness :
  (∃ p' n,
     CustomHTMLParser.handle_starttag "a"
       [("class", Some "x"); ("hidden", None); ("class", Some "y  z")]
       CustomHTMLParser.init = Ok p'
     ∧ CustomHTMLParser.heap_of p' !! 1 = Some n
     ∧ HtmlTag.attrs n !! "class" = Some (StrList ["y"; EmptyString; "z"])
     ∧ HtmlTag.attrs n !! "hidden" = Some NoneValue)
  ∧ CustomHTMLParser.handle_starttag "a" [("class", Some "x"); ("class", None)]
      CustomHTMLParser.init = Raise AttributeError.
Proof.
  split.
  - pose proof (handle_starttag_new_tag "a"
                  [("class", Some "x"); ("hidden", None); ("class", Some "y  z")]
                  CustomHTMLParser.init 0 eq_refl (Nat.lt_0_succ 0)) as H.
    change (last_value "class"
              [("class", Some "x"); ("hidden", None); ("class", Some "y  z")])
      with (Some (Some "y  z")) in H.
    cbv beta iota in H.
    destruct H as (p' & n & Hs & _ & Hn & _ & _ & _ & _ & _ & Hclass & Hk).
    exists p', n. split; [exact Hs|]. split; [exact Hn|].
    split; [exact Hclass|]. apply (Hk "hidden"). discriminate.
  - exact (handle_starttag_new_tag "a" [("class", Some "x"); ("class", None)]
             CustomHTMLParser.init 0 eq_refl (Nat.lt_0_succ 0)).
Defined.

(** ** The streams the builder accepts *)

Lemma spine_open h r c open tag attrs :
  wf h → spine h (Some c) open → class_valued attrs = true →
  ∃ p', CustomHTMLParser.handle_starttag tag attrs
          (CustomHTMLParser.mk h r (Some c)) = Ok p'
    ∧ CustomHTMLParser.cur_tag p' = Some (length h)
    ∧ length (CustomHTMLParser.heap_of p') = S (length h)
    ∧ (∀ i, children_of (CustomHTMLParser.heap_of p') i
            = if decide (i = c) then children_of h c ++ [length h]
              else children_of h i)
    ∧ (∀ i, parent_of (CustomHTMLParser.heap_of p') i
            = if decide (i = length h) then Some c else parent_of h i)
    ∧ spine (CustomHTMLParser.heap_of p') (Some (length h)) (tag :: open).
Proof.
  intros Hwf Hsp Hcv.
  destruct (spine_cursor _ _ _ Hwf Hsp) as (c' & [= <-] & Hlt).
  destruct (lookup_lt_is_Some_2 _ _ Hlt) as [n Hn].
  pose proof (starttag_attrs_valued attrs) as Ha. rewrite Hcv in Ha.
  destruct Ha as [a Ha].
  unfold CustomHTMLParser.handle_starttag. simpl.
  rewrite Ha. cbn [mbind result_bind].
  unfold deref. rewrite lookup_app_l, Hn by done. simpl.
  eexists. split; [done|]. simpl.
  set (new := HtmlTag.init tag a (Some c)).
  assert (∀ i, alter (HtmlTag.add_child (length h)) c (h ++ [new]) !! i
    = if decide (i = length h) then Some new
      else if decide (i = c) then Some (HtmlTag.add_child (length h) n)
      else h !! i) as Hlook.
  { intros i. destruct (decide (i = length h)) as [->|Hi].
    - rewrite list_lookup_alter_ne by lia.
      by rewrite lookup_app_r, Nat.sub_diag by lia.
    - destruct (decide (i = c)) as [->|Hic].
      + by rewrite list_lookup_alter_eq, lookup_app_l, Hn by done.
      + rewrite list_lookup_alter_ne by done.
        destruct (decide (i < length h)); [by rewrite lookup_app_l|].
        rewrite !lookup_ge_None_2; [done|lia|]. rewrite length_app. simpl. lia. }
  split; [done|]. split; [rewrite length_alter, length_app; simpl; lia|].
  split; [|split].
  - intros i. unfold children_of. rewrite Hlook.
    destruct (decide (i = length h)) as [->|Hi].
    + rewrite decide_False by lia. simpl. by rewrite lookup_ge_None_2.
    + case_decide as Hic; [|done]. subst i. by rewrite Hn.
  - intros i. unfold parent_of. rewrite Hlook.
    case_decide; [done|]. case_decide as Hic; [|done]. subst i. by rewrite Hn.
  - apply (spine_cons _ (length h) new open); [lia|by rewrite Hlook, decide_True|].
    simpl. eapply spine_frame; [done..|].
    intros ? i m [= <-] Hi Hm. rewrite Hlook, decide_False by lia.
    case_decide as Hic; [|eauto]. subst i.
    assert (m = n) as -> by congruence. by eexists.
Qed.

Lemma spine_frame_alter (f : HtmlTag.t → HtmlTag.t) h c cur open :
  (∀ n, HtmlTag.tag (f n) = HtmlTag.tag n
        ∧ HtmlTag.parent (f n) = HtmlTag.parent n) →
  wf h → spine h cur open → spine (alter f c h) cur open.
Proof.
  intros Hf Hwf Hsp. eapply spine_frame; [done..|].
  intros ? i m _ _ Hm. destruct (decide (c = i)) as [->|Hne].
  - rewrite list_lookup_alter_eq, Hm. eexists. split; [done|]. apply Hf.
  - rewrite list_lookup_alter_ne by done. eauto.
Qed.

Lemma spine_close_found h r c open tag open' :
  wf_parser (CustomHTMLParser.mk h r (Some c)) →
  spine h (Some c) open → close_stack tag open = Some open' →
  ∃ vs t, chain h tag (Some c) vs t
    ∧ CustomHTMLParser.handle_endtag tag (CustomHTMLParser.mk h r (Some c))
      = Ok (CustomHTMLParser.mk (endtag_heap h vs t) r (parent_of h t))
    ∧ spine (endtag_heap h vs t) (parent_of h t) open'.
Proof.
  intros Hp Hsp Hclose. pose proof Hp as (Hwf & _ & _). simpl in Hwf.
  destruct (spine_close _ _ _ _ _ Hsp Hclose) as (vs & t & Hch & Hsp').
  exists vs, t. split; [done|]. split.
  - by apply (handle_endtag_chain (CustomHTMLParser.mk h r (Some c))).
  - eapply spine_frame; [done..|].
    intros q i m Hq Hi Hm.
    rewrite (endtag_lookup _ _ _ _ _ Hwf Hch), Hm. simpl.
    eexists. split; [done|]. split; [done|]. simpl.
    rewrite decide_False; [done|].
    intros Hin. eapply orphans_above in Hin as [Hti _]; [|done..].
    apply (wf_parent h Hwf) in Hq. lia.
Qed.

Lemma spine_no_match h cur open tag :
  wf h → spine h cur open → close_stack tag open = None →
  (tag = "root" → ∃ vs, chain h tag cur vs 0)
  ∧ (tag ≠ "root" → unmatched h tag cur).
Proof.
  intros Hwf. induction 1 as [|c n open Hc0 Hc Hsp IH].
  - intros _. destruct (wf_root h Hwf) as (n0 & Hn0 & Hp & Htag & _). split.
    + intros ->. exists []. by eapply chain_here.
    + intros Hne. eapply unmatched_up; [done|congruence|].
      rewrite Hp. constructor.
  - simpl. case_decide as Htag; [done|]. intros Hclose.
    destruct (IH Hclose) as [IH1 IH2]. split.
    + intros Hr. destruct (IH1 Hr) as [vs Hch]. exists (c :: vs).
      by eapply chain_up.
    + intros Hr. eapply unmatched_up; [done..|]. by apply IH2.
Qed.

Lemma handle_without_cursor e p :
  CustomHTMLParser.cur_tag p = None →
  CustomHTMLParser.handle e p = Raise AttributeError.
Proof.
  destruct p as [h r cur]. simpl. intros ->.
  destruct e as [tag attrs| | |]; [|done..]. simpl.
  unfold CustomHTMLParser.handle_starttag.
  pose proof (starttag_attrs_valued attrs) as Ha.
  destruct (class_valued attrs); [|by rewrite Ha].
  by destruct Ha as [a ->].
Qed.

Lemma run_accepts es p open :
  wf_parser p → tracks p open →
  if accepts open es then ∃ p', CustomHTMLParser.run es p = Ok p'
  else CustomHTMLParser.run es p = Raise AttributeError.
Proof.
  revert p open. induction es as [|e es IH]; intros p open Hp Htr.
  { simpl. by eexists. }
  cbn [accepts CustomHTMLParser.run].
  destruct open as [open|]; cbn [tracks] in Htr.
  2: { by rewrite handle_without_cursor. }
  pose proof Hp as (Hwf & Hr & Hcur).
  destruct (spine_cursor _ _ _ Hwf Htr) as (c & Hc & Hlt).
  destruct p as [h r cur]. simpl in *. subst cur.
  assert (∀ p' open', CustomHTMLParser.handle e (CustomHTMLParser.mk h r (Some c))
                      = Ok p' → tracks p' open' →
    if accepts open' es
    then ∃ p'', CustomHTMLParser.handle e (CustomHTMLParser.mk h r (Some c))
                ≫= CustomHTMLParser.run es = Ok p''
    else CustomHTMLParser.handle e (CustomHTMLParser.mk h r (Some c))
         ≫= CustomHTMLParser.run es = Raise AttributeError) as Hnext.
  { intros p' open' He Htr'. rewrite He. simpl.
    apply IH; [by eapply handle_wf|done]. }
  destruct e as [tag attrs|tag|data|data].
  - destruct (class_valued attrs) eqn:Hcv.
    + destruct (spine_open h r c open tag attrs Hwf Htr Hcv)
        as (p' & He & Hcur' & _ & _ & _ & Hsp').
      apply (Hnext p' (Some (tag :: open)) He). simpl. by rewrite Hcur'.
    + cbn [CustomHTMLParser.handle]. unfold CustomHTMLParser.handle_starttag.
      pose proof (starttag_attrs_valued attrs) as Ha. rewrite Hcv in Ha.
      by rewrite Ha.
  - destruct (close_stack tag open) as [open'|] eqn:Hclose.
    + destruct (spine_close_found h r c open tag open' Hp Htr Hclose)
        as (vs & t & _ & He & Hsp').
      by apply (Hnext _ (Some open') He).
    + destruct (spine_no_match h (Some c) open tag Hwf Htr Hclose) as [H1 H2].
      case_decide as Hroot.
      * destruct (H1 Hroot) as [vs Hch].
        eapply (Hnext _ None).
        -- by apply (handle_endtag_chain (CustomHTMLParser.mk h r (Some c))).
        -- simpl. destruct (wf_root h Hwf) as (n0 & Hn0 & Hpar & _).
           unfold parent_of. by rewrite Hn0.
      * cbn [CustomHTMLParser.handle].
        by rewrite (handle_endtag_unmatched
                      (CustomHTMLParser.mk h r (Some c)) tag Hp (H2 Hroot)).
  - destruct (lookup_lt_is_Some_2 _ _ Hlt) as [n Hn].
    eapply (Hnext _ (Some open)).
    + unfold CustomHTMLParser.handle, CustomHTMLParser.handle_data. simpl.
      unfold deref. by rewrite Hn.
    + simpl. by apply spine_frame_alter.
  - destruct (lookup_lt_is_Some_2 _ _ Hlt) as [n Hn].
    eapply (Hnext _ (Some open)).
    + unfold CustomHTMLParser.handle, CustomHTMLParser.handle_comment. simpl.
      unfold deref. by rewrite Hn.
    + simpl. by apply spine_frame_alter.
Qed.

(** [feed] returns a tree exactly for the streams in which no open gives a
    class without a value and every close names a tag that is open, or is
    a close of "root" that ends the stream; on every other stream it raises
    [AttributeError].  It never runs without end. *)
Theorem feed_accepts es :
  if accepts (Some []) es then ∃ h r, CustomHTMLParser.feed es = Ok (h, r)
  else CustomHTMLParser.feed es = Raise AttributeError.
Proof.
  pose proof (run_accepts es CustomHTMLParser.init (Some []) init_wf) as H.
  unfold CustomHTMLParser.feed.
  destruct (accepts (Some []) es).
  - destruct H as [p Hp]; [constructor|]. rewrite Hp. simpl. eauto.
  - rewrite H; [done|constructor].
Qed.

(** ** Streams that close the innermost tag *)

Lemma full_descendant h n :
  wf h → full h → 0 < n < length h → descendant h 0 n.
Proof.
  intros Hwf Hfull. induction (lt_wf n) as [n _ IH]. intros Hn.
  destruct (full_parent h Hfull n Hn) as [p Hp].
  pose proof (wf_parent h Hwf _ _ Hp) as Hlt.
  pose proof (full_child h Hfull _ _ Hp) as Hin.
  destruct (decide (p = 0)) as [->|Hp0]; [by apply descendant_child|].
  eapply descendant_step; [|done]. apply IH; lia.
Qed.

Lemma init_full : full (CustomHTMLParser.heap_of CustomHTMLParser.init).
Proof.
  split.
  - by intros [|[|i]] p.
  - simpl. intros i. lia.
  - by intros [|[|i]] j k x y.
Qed.

Lemma increasing_snoc l t :
  increasing l → (∀ x, x ∈ l → x < t) → increasing (l ++ [t]).
Proof.
  intros Hl Ht j k x y Hjk Hj Hk.
  assert (k < length (l ++ [t])) as Hklen by (by eapply lookup_lt_Some).
  rewrite length_app in Hklen. simpl in Hklen.
  rewrite lookup_app_l in Hj by lia.
  destruct (decide (k < length l)) as [Hkl|Hkl].
  - rewrite lookup_app_l in Hk by done. exact (Hl j k x y Hjk Hj Hk).
  - rewrite lookup_app_r in Hk by lia.
    replace (k - length l) with 0 in Hk by lia. injection Hk as <-.
    apply Ht. by eapply list_elem_of_lookup_2.
Qed.

Lemma full_frame h h' :
  length h' = length h →
  (∀ i, children_of h' i = children_of h i) →
  (∀ i, parent_of h' i = parent_of h i) →
  full h → full h'.
Proof.
  intros Hlen Hc Hp Hfull. split.
  - intros i p. rewrite Hp, Hc. apply (full_child h Hfull).
  - intros i. rewrite Hlen, Hp. apply (full_parent h Hfull).
  - intros i. rewrite Hc. apply (full_sorted h Hfull).
Qed.

Lemma frame_alter (f : HtmlTag.t → HtmlTag.t) c (h : heap) :
  (∀ n, HtmlTag.parent (f n) = HtmlTag.parent n
        ∧ HtmlTag.children (f n) = HtmlTag.children n) →
  (∀ i, children_of (alter f c h) i = children_of h i)
  ∧ (∀ i, parent_of (alter f c h) i = parent_of h i).
Proof.
  intros Hf. split; intros i; unfold children_of, parent_of;
    (destruct (decide (c = i)) as [->|];
     [rewrite list_lookup_alter_eq; destruct (h !! i); [simpl; apply Hf|done]
     |by rewrite list_lookup_alter_ne]).
Qed.

Lemma run_nested es p open :
  wf_parser p →
  spine (CustomHTMLParser.heap_of p) (CustomHTMLParser.cur_tag p) open →
  full (CustomHTMLParser.heap_of p) →
  nested_from open es = true → classes_valued es = true →
  ∃ p', CustomHTMLParser.run es p = Ok p'
    ∧ full (CustomHTMLParser.heap_of p')
    ∧ length (CustomHTMLParser.heap_of p')
      = length (CustomHTMLParser.heap_of p) + opens es.
Proof.
  revert p open. induction es as [|e es IH]; intros p open Hp Hsp Hfull Hes Hcv.
  { exists p. simpl. split; [done|]. split; [done|lia]. }
  cbn [classes_valued forallb] in Hcv. apply andb_true_iff in Hcv as [Hce Hcv].
  fold (classes_valued es) in Hcv.
  pose proof Hp as (Hwf & Hr & Hcur).
  destruct (spine_cursor _ _ _ Hwf Hsp) as (c & Hc & Hlt).
  destruct p as [h r cur]. simpl in *. subst cur.
  assert (∀ p' open' k, CustomHTMLParser.handle e (CustomHTMLParser.mk h r (Some c))
                        = Ok p' →
    spine (CustomHTMLParser.heap_of p') (CustomHTMLParser.cur_tag p') open' →
    full (CustomHTMLParser.heap_of p') →
    nested_from open' es = true →
    length (CustomHTMLParser.heap_of p') + opens es = length h + k →
    ∃ p'', CustomHTMLParser.handle e (CustomHTMLParser.mk h r (Some c))
           ≫= CustomHTMLParser.run es = Ok p''
      ∧ full (CustomHTMLParser.heap_of p'')
      ∧ length (CustomHTMLParser.heap_of p'') = length h + k) as Hnext.
  { intros p' open' k He Hsp' Hfull' Hes' Hlen. rewrite He. simpl.
    destruct (IH p' open') as (p'' & Hrun & Hf & Hl);
      [by eapply handle_wf|done..|].
    exists p''. split; [done|]. split; [done|]. lia. }
  destruct e as [tag attrs|tag|data|data]; cbn [opens].
  - destruct (spine_open h r c open tag attrs Hwf Hsp Hce)
      as (p' & He & Hcur' & Hlen & Hchild & Hpar & Hsp').
    apply (Hnext p' (tag :: open) _ He); [by rewrite Hcur'| |done|lia].
    split.
    + intros i q. rewrite Hpar, Hchild. case_decide as Hi.
      * intros [= <-]. rewrite decide_True by done.
        apply elem_of_app. right. subst i. apply list_elem_of_here.
      * intros Hq. apply (full_child h Hfull) in Hq.
        case_decide; [subst q; apply elem_of_app; by left|done].
    + intros i Hi. rewrite Hpar. case_decide; [done|].
      apply (full_parent h Hfull). lia.
    + intros i. rewrite Hchild. case_decide; [|apply (full_sorted h Hfull)].
      apply increasing_snoc; [apply (full_sorted h Hfull)|].
      intros x Hx.
      apply (wf_child h Hwf) in Hx. by eapply parent_of_lt_length.
  - destruct open as [|t open]; [done|].
    apply andb_true_iff in Hes as [Ht%bool_decide_eq_true Hes]. subst t.
    clear Hr. inversion Hsp as [|c' n open' Hc0 Hn Hsp' Heq1 Heq2]; subst.
    assert (chain h (HtmlTag.tag n) (Some c) [] c) as Hch
      by (by eapply chain_here).
    pose proof (handle_endtag_chain (CustomHTMLParser.mk h r (Some c))
                  (HtmlTag.tag n) [] c Hp Hch) as He.
    simpl in He.
    assert (∀ i, children_of (endtag_heap h [] c) i = children_of h i) as Hchild.
    { intros i. rewrite (endtag_children _ _ _ _ _ Hwf Hch).
      change (orphans h []) with (@nil nat). rewrite app_nil_r.
      destruct (decide (i = c)) as [->|]; [done|].
      destruct (decide (i ∈ @nil nat ∨ i ∈ @nil nat)) as [[Hor|Hor]|];
        [by apply elem_of_nil in Hor..|done]. }
    assert (∀ i, parent_of (endtag_heap h [] c) i = parent_of h i) as Hpar.
    { intros i. rewrite (endtag_parent _ _ _ _ _ Hwf Hch).
      change (orphans h []) with (@nil nat).
      destruct (decide (i ∈ @nil nat)) as [Hor|];
        [by apply elem_of_nil in Hor|done]. }
    apply (Hnext _ open _ He); simpl.
    + eapply spine_frame; [done| |].
      * unfold parent_of. rewrite Hn. exact Hsp'.
      * intros q i m Hq Hi Hm.
        rewrite (endtag_lookup _ _ _ _ _ Hwf Hch), Hm. simpl.
        eexists. split; [done|]. split; [done|]. simpl.
        change (orphans h []) with (@nil nat).
        destruct (decide (i ∈ @nil nat)) as [Hor|];
          [by apply elem_of_nil in Hor|done].
    + eapply full_frame; [apply length_endtag_heap|done..].
    + done.
    + rewrite length_endtag_heap. lia.
  - destruct (lookup_lt_is_Some_2 _ _ Hlt) as [n Hn].
    destruct (frame_alter (λ n, HtmlTag.set_text (HtmlTag.text n +:+ data) n) c h)
      as [Hchild Hpar]; [done|].
    eapply (Hnext _ open).
    + unfold CustomHTMLParser.handle, CustomHTMLParser.handle_data. simpl.
      unfold deref. by rewrite Hn.
    + simpl. by apply spine_frame_alter.
    + simpl. eapply full_frame; [apply length_alter|done..].
    + done.
    + simpl. rewrite length_alter. lia.
  - destruct (lookup_lt_is_Some_2 _ _ Hlt) as [n Hn].
    destruct (frame_alter (HtmlTag.add_comment data) c h)
      as [Hchild Hpar]; [done|].
    eapply (Hnext _ open).
    + unfold CustomHTMLParser.handle, CustomHTMLParser.handle_comment. simpl.
      unfold deref. by rewrite Hn.
    + simpl. by apply spine_frame_alter.
    + simpl. eapply full_frame; [apply length_alter|done..].
    + done.
    + simpl. rewrite length_alter. lia.
Qed.

(** When every close names the innermost open tag and no open gives a
    class without a value, [feed] returns a tree that holds every tag
    opened: the heap has one object for the root and one for each open
    event, each of them is below the root, and every child list is in the
    order in which its tags were opened. *)
Theorem nested_keeps_every_tag es :
  nested_from [] es = true → classes_valued es = true →
  ∃ h r, CustomHTMLParser.feed es = Ok (h, r)
    ∧ length h = S (opens es)
    ∧ (∀ n, 0 < n < length h → descendant h r n)
    ∧ (∀ i, increasing (children_of h i)).
Proof.
  intros Hes Hcv.
  destruct (run_nested es CustomHTMLParser.init [] init_wf)
    as (p & Hrun & Hfull & Hlen); [constructor|apply init_full|done..|].
  pose proof (run_wf _ _ _ init_wf Hrun) as (Hwf & Hr & _).
  exists (CustomHTMLParser.heap_of p), (CustomHTMLParser.root p).
  unfold CustomHTMLParser.feed. rewrite Hrun. simpl.
  split; [done|]. split; [done|]. split.
  - intros n Hn. rewrite Hr. by apply full_descendant.
  - apply (full_sorted _ Hfull).
Qed.

Lemma nested_keeps_every_tag_witness :
  ∃ h r, CustomHTMLParser.feed C8_events = Ok (h, r)
    ∧ length h = 4
    ∧ (∀ n, 0 < n < length h → descendant h r n)
    ∧ (∀ i, increasing (children_of h i)).
Proof. apply (nested_keeps_every_tag C8_events); reflexivity. Defined.

(** ** What recovery takes out of the tree *)

Lemma chain_head h name q vs t :
  chain h name (Some q) vs t → q ∈ vs ∨ q = t.
Proof.
  inversion 1; subst; [by right|left; apply list_elem_of_here].
Qed.

Lemma visited_parent h name cur vs t v q :
  chain h name cur vs t → v ∈ vs → parent_of h v = Some q → q ∈ vs ∨ q = t.
Proof.
  induction 1 as [c n Hc Hn|c n vs t Hc Hn Hch IH];
    [by intros ?%elem_of_nil|].
  intros [->|Hv]%elem_of_cons Hq.
  - unfold parent_of in Hq. rewrite Hc in Hq. simpl in Hq. rewrite Hq in Hch.
    destruct (chain_head _ _ _ _ _ Hch) as [?|?]; [left|by right].
    by apply list_elem_of_further.
  - destruct (IH Hv Hq) as [?|?]; [left|by right].
    by apply list_elem_of_further.
Qed.

Lemma above_visited h name cur vs t o m :
  wf h → chain h name cur vs t → descendant h o m → m ∈ vs →
  o ∈ vs ∨ o ≤ t.
Proof.
  intros Hwf Hch. induction 1 as [m Hm|m' m Hd IH Hm]; intros Hv.
  - apply (wf_child h Hwf) in Hm.
    destruct (visited_parent _ _ _ _ _ _ _ Hch Hv Hm) as [?| ->]; [by left|].
    right. lia.
  - apply (wf_child h Hwf) in Hm.
    destruct (visited_parent _ _ _ _ _ _ _ Hch Hv Hm) as [?| ->]; [by apply IH|].
    right. apply descendant_gt in Hd; [lia|done].
Qed.

Lemma descendant_last h a n :
  descendant h a n → ∃ i, (i = a ∨ descendant h a i) ∧ n ∈ children_of h i.
Proof. inversion 1; subst; eauto. Qed.

(** The tags below an orphan that was not itself visited are no longer in
    the tree after the close: when [handle_endtag] has moved the orphan [o]
    under the target, nothing that was below [o] is below the root. *)
Theorem recovery_drops_subtrees es p name vs t p' o d :
  CustomHTMLParser.run es CustomHTMLParser.init = Ok p →
  chain (CustomHTMLParser.heap_of p) name (CustomHTMLParser.cur_tag p) vs t →
  CustomHTMLParser.handle_endtag name p = Ok p' →
  o ∈ orphans (CustomHTMLParser.heap_of p) vs → o ∉ vs →
  descendant (CustomHTMLParser.heap_of p) o d →
  children_of (CustomHTMLParser.heap_of p') o = []
  ∧ ¬ descendant (CustomHTMLParser.heap_of p') (CustomHTMLParser.root p') d.
Proof.
  intros Hrun Hch He Ho Hov Hd.
  pose proof (run_wf _ _ _ init_wf Hrun) as Hp.
  pose proof Hp as (Hwf & Hr & _).
  rewrite (handle_endtag_chain p name vs t Hp Hch) in He.
  injection He as <-. simpl. rewrite Hr.
  set (h := CustomHTMLParser.heap_of p) in *.
  destruct (chain_target_fresh _ _ _ _ _ Hwf Hch) as [Htvs Hto].
  destruct (orphans_above _ _ _ _ _ _ Hwf Hch Ho) as [Hlt _].
  split.
  { rewrite (endtag_children _ _ _ _ _ Hwf Hch).
    rewrite decide_False by (by intros ->). by rewrite decide_True by auto. }
  assert (∀ x i, x ∈ children_of (endtag_heap h vs t) i →
            descendant h o x → x ∈ children_of h i ∧ i ≠ t
            ∧ i ∉ orphans h vs) as Hkeep.
  { intros x i Hx Hox. rewrite (endtag_children _ _ _ _ _ Hwf Hch) in Hx.
    assert (x ∉ orphans h vs) as Hxo.
    { intros Hxin.
      destruct (orphans_above _ _ _ _ _ _ Hwf Hch Hxin) as (_ & v & Hv & Hpar).
      apply descendant_last in Hox as (m & Hm & Hxm).
      apply (wf_child h Hwf) in Hxm. assert (m = v) as -> by congruence.
      destruct Hm as [->|Hm]; [done|].
      destruct (above_visited _ _ _ _ _ _ _ Hwf Hch Hm Hv); [done|lia]. }
    destruct (decide (i = t)) as [->|Hit].
    - apply elem_of_app in Hx as [Hx|Hx]; [|done].
      apply (wf_child h Hwf) in Hx.
      apply descendant_last in Hox as (m & Hm & Hxm).
      apply (wf_child h Hwf) in Hxm. assert (m = t) as -> by congruence.
      destruct Hm as [->|Hm]; [lia|].
      apply descendant_gt in Hm; [lia|done].
    - destruct (decide (i ∈ orphans h vs ∨ i ∈ vs)) as [|Hn];
        [by apply elem_of_nil in Hx|].
      split; [done|]. split; [done|]. tauto. }
  induction Hd as [d Hd|m d Hm IH Hd]; intros Hroot.
  - apply descendant_last in Hroot as (i & _ & Hi).
    destruct (Hkeep d i Hi) as (Hdi & _ & Hio); [by apply descendant_child|].
    apply (wf_child h Hwf) in Hd, Hdi. congruence.
  - apply descendant_last in Hroot as (i & Hi0 & Hi).
    destruct (Hkeep d i Hi) as (Hdi & _ & _);
      [by eapply descendant_step|].
    apply (wf_child h Hwf) in Hd, Hdi. assert (i = m) as -> by congruence.
    destruct Hi0 as [->|Hi0]; [|by apply IH].
    apply descendant_gt in Hm; [lia|done].
Qed.

Lemma recovery_drops_subtrees_witness :
  ∃ p p', CustomHTMLParser.run loss_events CustomHTMLParser.init = Ok p
    ∧ CustomHTMLParser.handle_endtag "a" p = Ok p'
    ∧ children_of (CustomHTMLParser.heap_of p) 3 = [4]
    ∧ children_of (CustomHTMLParser.heap_of p') 1 = [2; 3]
    ∧ children_of (CustomHTMLParser.heap_of p') 3 = []
    ∧ ¬ descendant (CustomHTMLParser.heap_of p') (CustomHTMLParser.root p') 4.
Proof.
  assert (∃ p p', CustomHTMLParser.run loss_events CustomHTMLParser.init = Ok p
            ∧ CustomHTMLParser.handle_endtag "a" p = Ok p'
            ∧ children_of (CustomHTMLParser.heap_of p) 3 = [4]
            ∧ children_of (CustomHTMLParser.heap_of p') 1 = [2; 3]
            ∧ chain (CustomHTMLParser.heap_of p) "a"
                    (CustomHTMLParser.cur_tag p) [2] 1
            ∧ orphans (CustomHTMLParser.heap_of p) [2] = [3])
    as (p & p' & Hrun & He & Hc3 & Hc1 & Hch & Ho).
  { eexists _, _. split; [vm_compute; reflexivity|].
    split; [vm_compute; reflexivity|]. split; [reflexivity|].
    split; [reflexivity|]. split; [|reflexivity].
    eapply chain_up; [reflexivity|done|]. eapply chain_here; [reflexivity|done]. }
  exists p, p'. do 4 (split; [assumption|]).
  apply (recovery_drops_subtrees loss_events p "a" [2] 1 p' 3 4 Hrun Hch He).
  - rewrite Ho. apply list_elem_of_here.
  - intros Hin. apply elem_of_cons in Hin as [Hin|Hin]; [discriminate Hin|].
    by apply elem_of_nil in Hin.
  - apply descendant_child. rewrite Hc3. apply list_elem_of_here.
Defined.

(** ** What [select] returns *)

Lemma descendant_first h a n :
  descendant h a n ↔ ∃ c, c ∈ children_of h a ∧ at_or_below h c n.
Proof.
  split.
  - induction 1 as [c Hc|m c Hm (c0 & Hc0 & IH) Hc].
    + exists c. split; [done|by left].
    + exists c0. split; [done|]. right.
      destruct IH as [->|IH]; [by apply descendant_child|].
      by eapply descendant_step.
  - intros (c & Hc & [->|Hd]); [by apply descendant_child|].
    induction Hd as [x Hx|m x Hm IH Hx].
    + eapply descendant_step; [by apply descendant_child|done].
    + by eapply descendant_step.
Qed.

Lemma at_or_below_first h a n :
  at_or_below h a n ↔ n = a ∨ ∃ c, c ∈ children_of h a ∧ at_or_below h c n.
Proof. unfold at_or_below at 1. by rewrite descendant_first. Qed.

(** What an entry of the queue stands for, one step of the loop further. *)
Lemma chain_match_step h s rest a n node :
  h !! a = Some node →
  chain_match h (s :: rest) a n
  ↔ (Selector.check_html_tag s node = Ok true
     ∧ match rest with
       | [] => n = a
       | _ :: _ => ∃ c, c ∈ HtmlTag.children node ∧ chain_match h rest c n
       end)
    ∨ ∃ c, c ∈ HtmlTag.children node ∧ chain_match h (s :: rest) c n.
Proof.
  intros Ha.
  assert (children_of h a = HtmlTag.children node) as Hkids
    by (unfold children_of; by rewrite Ha).
  assert (satisfies h s a ↔ Selector.check_html_tag s node = Ok true) as Hsat.
  { unfold satisfies. rewrite Ha. split; [by intros (? & [= <-] & ?)|eauto]. }
  destruct rest as [|s' rest]; cbn [chain_match].
  - rewrite at_or_below_first, Hkids. split.
    + intros [[->|(c & Hc & Hn)] Hs]; [left; by rewrite <- Hsat|right; eauto].
    + intros [[Hs ->]|(c & Hc & Hn & Hs)].
      * split; [by left|by apply Hsat].
      * split; [right; eauto|done].
  - split.
    + intros (m & c & Hm & Hs & Hc & Hrest).
      apply at_or_below_first in Hm as [->|(c0 & Hc0 & Hm)].
      * left. rewrite <- Hsat, <- Hkids. eauto.
      * right. rewrite <- Hkids. exists c0. split; [done|]. eauto 10.
    + intros [(Hs & c & Hc & Hrest)|(c0 & Hc0 & m & c & Hm & Hs & Hc & Hrest)].
      * exists a, c. rewrite Hkids, Hsat. split; [by left|done].
      * exists m, c. split; [|done].
        apply at_or_below_first. right. rewrite Hkids. eauto.
Qed.

Lemma pending_nil h n : pending h [] n ↔ False.
Proof. split; [|done]. by intros (a & ss & ?%elem_of_nil & _). Qed.

Lemma pending_cons h a ss q n :
  pending h ((a, ss) :: q) n ↔ chain_match h ss a n ∨ pending h q n.
Proof.
  unfold pending. split.
  - intros (b & ts & [[= -> ->]|Hin]%elem_of_cons & Hm); [by left|right; eauto].
  - intros [Hm|(b & ts & Hin & Hm)].
    + exists a, ss. split; [apply list_elem_of_here|done].
    + exists b, ts. split; [by apply list_elem_of_further|done].
Qed.

Lemma pending_app h q1 q2 n :
  pending h (q1 ++ q2) n ↔ pending h q1 n ∨ pending h q2 n.
Proof.
  unfold pending. split.
  - intros (a & ss & [?|?]%elem_of_app & ?); [left|right]; eauto.
  - intros [(a & ss & ? & ?)|(a & ss & ? & ?)]; exists a, ss;
      (split; [apply elem_of_app; auto|done]).
Qed.

Lemma pending_children h (ss : list Selector.t) kids n :
  pending h (map (λ child, (child, ss)) kids) n
  ↔ ∃ c, c ∈ kids ∧ chain_match h ss c n.
Proof.
  unfold pending. split.
  - intros (a & ts & Hin & Hm).
    apply list_elem_of_In, in_map_iff in Hin as (c & [= <- <-] & Hc).
    exists c. split; [by apply list_elem_of_In|done].
  - intros (c & Hc & Hm). exists c, ss. split; [|done].
    apply list_elem_of_In, in_map_iff. exists c. split; [done|].
    by apply list_elem_of_In.
Qed.

Lemma select_loop_chain_match h fuel q results tags :
  Query.select_loop fuel h q results = Ok tags →
  ∀ n, n ∈ tags ↔ n ∈ results ∨ pending h q n.
Proof.
  revert q results. induction fuel as [|fuel IH]; intros q results; [done|].
  simpl. destruct q as [|[a ss] q].
  { intros [= <-] n. rewrite pending_nil. tauto. }
  unfold deref. destruct (h !! a) as [node|] eqn:Ha; [|done]. simpl.
  destruct ss as [|s rest]; [done|].
  pose proof (chain_match_step h s rest a) as Hstep.
  destruct (Selector.check_html_tag s node) as [[]| |] eqn:Hcheck;
    cbn [mbind result_bind]; [| |done..].
  - destruct rest as [|s' rest]; simpl.
    + intros H n. rewrite (IH _ _ H n), pending_cons, (Hstep n node Ha).
      rewrite elem_of_app, list_elem_of_singleton, pending_app,
        pending_children.
      tauto.
    + intros H n. rewrite (IH _ _ H n), pending_cons, (Hstep n node Ha).
      rewrite !pending_app, !pending_children. tauto.
  - intros H n. rewrite (IH _ _ H n), pending_cons, (Hstep n node Ha).
    rewrite pending_app, pending_children, Hcheck.
    split; [tauto|]. intros [?|[[[? _]|?]|?]]; [tauto|done|tauto..].
Qed.

(** On a heap of the builder and from any tag of it, [select] returns
    for every query that parses, and the tags it returns are the tags [n]
    at or below the tag it is called on whose chain of ancestors satisfies
    the selectors: [n] satisfies the last selector, a tag above it (or, for
    the first selector, the starting tag itself) the one before, and so
    on. *)
Theorem select_returns_chain_matches h self cmd sels :
  wf h → self < length h → Selector.parse cmd = Ok sels →
  ∃ tags,
    (∀ fuel, select_fuel h ≤ fuel → Query.select fuel h self cmd = Ok tags)
    ∧ (∀ fuel tags0, Query.select fuel h self cmd = Ok tags0 → tags0 = tags)
    ∧ ∀ n, n ∈ tags ↔ chain_match h sels self n.
Proof.
  intros Hwf Hself Hparse.
  destruct (select_total h self cmd sels Hwf Hself Hparse) as [tags Htags].
  exists tags. split; [done|]. split.
  - intros fuel tags0 H0.
    pose proof (select_fuel_mono _ _ _ _ (fuel + select_fuel h) _ H0) as H1.
    rewrite Htags in H1 by lia. injection H1; [done|lia].
  - pose proof (Htags (select_fuel h) (le_n _)) as H.
    unfold Query.select in H. rewrite Hparse in H. cbn [mbind result_bind] in H.
    intros n. rewrite (select_loop_chain_match _ _ _ _ _ H n).
    rewrite pending_cons, pending_nil. split; [|tauto].
    intros [?%elem_of_nil|[?|?]]; done.
Qed.

Lemma select_returns_chain_matches_witness :
  ∃ h r sels,
    CustomHTMLParser.feed C10_events = Ok (h, r)
    ∧ Selector.parse "div span" = Ok sels
    ∧ (∀ fuel, select_fuel h ≤ fuel
               → Query.select fuel h r "div span" = Ok [3; 3])
    ∧ ∀ n, n ∈ [3; 3] ↔ chain_match h sels r n.
Proof.
  assert (∃ h r sels,
            CustomHTMLParser.feed C10_events = Ok (h, r)
            ∧ Selector.parse "div span" = Ok sels
            ∧ Query.select 8 h r "div span" = Ok [3; 3]
            ∧ r < length h)
    as (h & r & sels & Hfeed & Hparse & Hsel & Hr).
  { eexists _, _, _. split; [vm_compute; reflexivity|].
    split; [vm_compute; reflexivity|]. split; [vm_compute; reflexivity|].
    vm_compute. lia. }
  exists h, r, sels. do 2 (split; [assumption|]).
  destruct (select_returns_chain_matches h r "div span" sels
              (proj1 (feed_wf C10_events h r Hfeed)) Hr Hparse)
    as (tags & Hall & Hsame & Hiff).
  rewrite <- (Hsame 8 [3; 3] Hsel) in Hall, Hiff.
  split; [exact Hall|exact Hiff].
Defined.

(** ** Text and comments leave the queries alone *)

Lemma check_html_tag_ext s a b :
  HtmlTag.tag a = HtmlTag.tag b → HtmlTag.attrs a = HtmlTag.attrs b →
  Selector.check_html_tag s a = Selector.check_html_tag s b.
Proof.
  intros Ht Ha.
  unfold Selector.check_html_tag, Selector.check_tag, Selector.check_id,
    Selector.check_cls, Selector.check_attrs.
  by rewrite Ht, Ha.
Qed.

Lemma same_tree_lookup h h' i :
  same_tree h h' →
  (h !! i = None ∧ h' !! i = None)
  ∨ ∃ a b, h !! i = Some a ∧ h' !! i = Some b
      ∧ HtmlTag.tag a = HtmlTag.tag b ∧ HtmlTag.attrs a = HtmlTag.attrs b
      ∧ HtmlTag.parent a = HtmlTag.parent b
      ∧ HtmlTag.children a = HtmlTag.children b.
Proof.
  intros [Hlen Hsame]. destruct (h !! i) as [a|] eqn:Ha.
  - destruct (lookup_lt_is_Some_2 h' i) as [b Hb].
    { rewrite <- Hlen. by eapply lookup_lt_Some. }
    right. exists a, b. rewrite Hb. split; [done|]. split; [done|]. eauto.
  - left. split; [done|]. apply lookup_ge_None. rewrite <- Hlen.
    by apply lookup_ge_None.
Qed.

Lemma select_loop_same_tree h h' fuel q results :
  same_tree h h' →
  Query.select_loop fuel h q results = Query.select_loop fuel h' q results.
Proof.
  intros Hsame. revert q results.
  induction fuel as [|fuel IH]; intros q results; [done|]. simpl.
  destruct q as [|[a ss] q]; [done|]. unfold deref.
  destruct (same_tree_lookup h h' a Hsame)
    as [[-> ->]|(x & y & -> & -> & Ht & Ha & _ & Hc)]; [done|]. simpl.
  destruct ss as [|s rest]; [done|].
  rewrite (check_html_tag_ext s x y Ht Ha), Hc.
  destruct (Selector.check_html_tag s y) as [[]| |];
    cbn [mbind result_bind]; [| |done..];
    [destruct (length (s :: rest) =? 1)|]; apply IH.
Qed.

Lemma get_path_loop_same_tree h h' fuel n path :
  same_tree h h' →
  Query.get_path_loop fuel h n path = Query.get_path_loop fuel h' n path.
Proof.
  intros Hsame. revert n path.
  induction fuel as [|fuel IH]; intros n path; [done|]. simpl. unfold deref.
  destruct (same_tree_lookup h h' n Hsame)
    as [[-> ->]|(x & y & -> & -> & _ & _ & Hp & _)]; [done|]. simpl.
  rewrite Hp. destruct (HtmlTag.parent y) as [p|]; [|done].
  destruct (same_tree_lookup h h' p Hsame)
    as [[-> ->]|(px & py & -> & -> & _ & _ & _ & Hc)]; [done|]. simpl.
  rewrite Hc. apply IH.
Qed.

Lemma descend_same_tree h h' a ixs :
  same_tree h h' → HtmlParser.descend h a ixs = HtmlParser.descend h' a ixs.
Proof.
  intros Hsame. revert a. induction ixs as [|i ixs IH]; intros a; [done|].
  simpl. unfold deref.
  destruct (same_tree_lookup h h' a Hsame)
    as [[-> ->]|(x & y & -> & -> & _ & _ & _ & Hc)]; [done|]. simpl.
  rewrite Hc. destruct (py_index (HtmlTag.children y) i); simpl; [apply IH|done..].
Qed.

Lemma same_tree_alter (f : HtmlTag.t → HtmlTag.t) c (h : heap) :
  (∀ n, HtmlTag.tag (f n) = HtmlTag.tag n ∧ HtmlTag.attrs (f n) = HtmlTag.attrs n
        ∧ HtmlTag.parent (f n) = HtmlTag.parent n
        ∧ HtmlTag.children (f n) = HtmlTag.children n) →
  same_tree (alter f c h) h.
Proof.
  intros Hf. split; [apply length_alter|]. intros i a b.
  destruct (decide (c = i)) as [->|Hne].
  - rewrite list_lookup_alter_eq. intros Ha Hb. rewrite Hb in Ha.
    injection Ha as <-. apply Hf.
  - rewrite list_lookup_alter_ne by done. intros Ha Hb.
    assert (a = b) as -> by congruence. done.
Qed.

(** A text or a comment event changes no answer: after it [select],
    [get_path] and [get_tag] return, for every argument, what they returned
    before, and the cursor has not moved. *)
Theorem text_and_comments_keep_queries e p p' :
  (∃ data, e = Text data ∨ e = Comment data) →
  CustomHTMLParser.handle e p = Ok p' →
  CustomHTMLParser.root p' = CustomHTMLParser.root p
  ∧ CustomHTMLParser.cur_tag p' = CustomHTMLParser.cur_tag p
  ∧ (∀ fuel self cmd,
       Query.select fuel (CustomHTMLParser.heap_of p') self cmd
       = Query.select fuel (CustomHTMLParser.heap_of p) self cmd)
  ∧ (∀ n, Query.get_path (CustomHTMLParser.heap_of p') n
          = Query.get_path (CustomHTMLParser.heap_of p) n)
  ∧ (∀ r cache path,
       HtmlParser.get_tag (HtmlParser.mk (CustomHTMLParser.heap_of p') r cache) path
       = HtmlParser.get_tag (HtmlParser.mk (CustomHTMLParser.heap_of p) r cache) path).
Proof.
  intros (data & He) Hh.
  assert (CustomHTMLParser.root p' = CustomHTMLParser.root p
          ∧ CustomHTMLParser.cur_tag p' = CustomHTMLParser.cur_tag p
          ∧ same_tree (CustomHTMLParser.heap_of p') (CustomHTMLParser.heap_of p))
    as (Hr & Hc & Hsame).
  { destruct p as [h r cur].
    destruct He as [-> | ->]; simpl in Hh;
      unfold CustomHTMLParser.handle_data, CustomHTMLParser.handle_comment in Hh;
      simpl in Hh; (destruct cur as [c|]; [|done]); simpl in Hh;
      (destruct (deref h c); [|done..]); simpl in Hh; injection Hh as <-;
      simpl; (split; [done|]); (split; [done|]); by apply same_tree_alter. }
  split; [done|]. split; [done|]. split; [|split].
  - intros fuel self cmd. unfold Query.select.
    destruct (Selector.parse cmd); simpl; [|done..].
    by apply select_loop_same_tree.
  - intros n. unfold Query.get_path. destruct Hsame as [Hlen Hs].
    rewrite Hlen. by rewrite (get_path_loop_same_tree _ _ _ _ _ (conj Hlen Hs)).
  - intros r cache path. unfold HtmlParser.get_tag. simpl.
    destruct (map_result int (split ":" path)); simpl; [|done..].
    by apply descend_same_tree.
Qed.

Lemma text_and_comments_keep_queries_witness :
  ∃ p p', CustomHTMLParser.run C5_events CustomHTMLParser.init = Ok p
    ∧ CustomHTMLParser.handle (Text "x") p = Ok p'
    ∧ text_of (CustomHTMLParser.heap_of p') 0 = "x"
    ∧ ∀ fuel self cmd,
        Query.select fuel (CustomHTMLParser.heap_of p') self cmd
        = Query.select fuel (CustomHTMLParser.heap_of p) self cmd.
Proof.
  assert (∃ p p', CustomHTMLParser.run C5_events CustomHTMLParser.init = Ok p
            ∧ CustomHTMLParser.handle (Text "x") p = Ok p'
            ∧ text_of (CustomHTMLParser.heap_of p') 0 = "x")
    as (p & p' & Hrun & Hh & Ht).
  { eexists _, _. split; [vm_compute; reflexivity|].
    split; [vm_compute; reflexivity|]. reflexivity. }
  exists p, p'. do 3 (split; [assumption|]).
  apply (text_and_comments_keep_queries (Text "x") p p'); [|exact Hh].
  exists "x". by left.
Defined.

(** ** Writing a selector and reading it back *)

Lemma clean_loop_leading cmd c0 stops rest :
  ∀ i acc,
    string_drop i cmd = rest → 0 < i →
    Selector.clean_loop cmd c0 stops i rest (Some 0) acc
    = acc ++ (if char_in c0 rest then pieces c0 stops None rest
              else [string_drop 1 cmd]).
Proof.
  induction rest as [|c rest IH]; intros i acc Hdrop Hi; [done|].
  pose proof (string_drop_S _ _ _ _ Hdrop) as Hdrop'.
  cbn [Selector.clean_loop Selector.truthy pieces char_in].
  rewrite andb_false_r.
  destruct (decide (c = c0)) as [->|Hne].
  - rewrite bool_decide_eq_true_2 by done. cbn [orb].
    rewrite (clean_loop_pieces cmd c0 stops rest (S i) (Some i) acc);
      [|done|left; lia|intros ? [= <-]; lia].
    cbn [fmap option_fmap option_map]. rewrite slice_same.
    by destruct (char_in c0 stops).
  - rewrite bool_decide_eq_false_2 by done. cbn [orb].
    rewrite IH by (done || lia).
    by destruct (char_in c stops).
Qed.

(** A token that begins with the separator: the test [and start] of line
    142 takes the index 0 for false, so the piece that begins there is never
    closed.  When the separator comes again, the first piece is lost; when
    it does not, the piece is all the rest of the token, whatever stop
    characters it holds. *)
Theorem clean_leading_separator c0 stops rest :
  Selector.clean (String c0 rest) c0 stops
  = if char_in c0 rest then pieces c0 stops None rest else [rest].
Proof.
  unfold Selector.clean. cbn [char_in].
  rewrite bool_decide_eq_true_2 by done. cbn [orb negb Selector.clean_loop
    Selector.truthy]. rewrite andb_false_r, decide_True by done.
  rewrite (clean_loop_leading (String c0 rest) c0 stops rest 1 []);
    [done|done|lia].
Qed.

Lemma clean_tag_loop_until cmd seps rest :
  ∀ i, string_drop i cmd = rest →
       Selector.clean_tag_loop cmd seps i rest
       = string_take i cmd +:+ until_stop seps rest.
Proof.
  induction rest as [|c rest IH]; intros i Hdrop.
  - cbn [Selector.clean_tag_loop until_stop]. rewrite append_nil_r.
    pose proof (slice_end 0 i cmd Hdrop) as H. unfold slice in H.
    cbn [string_drop] in H. by rewrite <- H.
  - cbn [Selector.clean_tag_loop until_stop].
    destruct (char_in c seps); [by rewrite append_nil_r|].
    rewrite IH by by eapply string_drop_S.
    pose proof (slice_snoc 0 i cmd c rest (Nat.le_0_l _) Hdrop) as H.
    unfold slice in H. cbn [string_drop] in H. rewrite H.
    by rewrite append_assoc.
Qed.

Lemma clean_tag_until cmd : Selector.clean_tag cmd = until_stop ".#[]" cmd.
Proof. apply (clean_tag_loop_until cmd ".#[]" cmd 0 eq_refl). Qed.

Lemma avoids_app set a b : avoids set (a +:+ b) ↔ avoids set a ∧ avoids set b.
Proof.
  induction a as [|c a IH]; simpl; [tauto|].
  change (String c a +:+ b) with (String c (a +:+ b)). simpl. tauto.
Qed.

Lemma avoids_sub set set' w :
  (∀ c, char_in c set' = true → char_in c set = true) →
  avoids set w → avoids set' w.
Proof.
  intros Hsub. induction w as [|c w IH]; [done|]. intros [Hc Hw].
  split; [|auto]. destruct (char_in c set') eqn:E; [|done].
  apply Hsub in E. congruence.
Qed.

Lemma char_in_app c a b : char_in c (a +:+ b) = char_in c a || char_in c b.
Proof.
  induction a as [|x a IH]; [done|].
  change (String x a +:+ b) with (String x (a +:+ b)). simpl.
  by rewrite IH, orb_assoc.
Qed.

Lemma avoids_char_in c set w :
  char_in c set = true → avoids set w → char_in c w = false.
Proof.
  intros Hc. induction w as [|x w IH]; [done|]. intros [Hx Hw]. simpl.
  rewrite IH by done. rewrite orb_false_r. apply bool_decide_eq_false.
  intros ->. congruence.
Qed.

Lemma avoids_no_char c set w :
  char_in c set = true → avoids set w → no_char c w.
Proof.
  intros Hc. induction w as [|x w IH]; [done|]. intros [Hx Hw].
  split; [|auto]. intros ->. congruence.
Qed.

Lemma pieces_skip c0 stops w s :
  char_in c0 w = false →
  pieces c0 stops None (w +:+ s) = pieces c0 stops None s.
Proof.
  induction w as [|c w IH]; [done|].
  change (String c w +:+ s) with (String c (w +:+ s)). simpl.
  intros [Hc Hw]%orb_false_iff. apply bool_decide_eq_false in Hc.
  rewrite decide_False by done.
  by destruct (char_in c stops); simpl; apply IH.
Qed.

Lemma pieces_read c0 stops w :
  avoids (String c0 stops) w →
  ∀ p s, pieces c0 stops (Some p) (w +:+ s)
         = pieces c0 stops (Some (p +:+ w)) s.
Proof.
  induction w as [|c w IH]; intros Hw p s.
  - by rewrite append_nil_r.
  - destruct Hw as [Hc Hw]. simpl in Hc.
    apply orb_false_iff in Hc as [Hc Hs]. apply bool_decide_eq_false in Hc.
    change (String c w +:+ s) with (String c (w +:+ s)). simpl.
    rewrite decide_False, Hs by done. simpl. rewrite IH by done.
    by rewrite append_assoc.
Qed.

Lemma pieces_end c0 stops p s :
  boundary stops s →
  pieces c0 stops (Some p) s = p :: pieces c0 stops None s.
Proof.
  destruct s as [|c s]; [done|]. simpl. intros ->. simpl.
  by destruct (decide (c = c0)).
Qed.

Lemma until_stop_word stops w s :
  avoids stops w → boundary stops s → until_stop stops (w +:+ s) = w.
Proof.
  intros Hw Hs. induction w as [|c w IH].
  - destruct s as [|c s]; [done|]. simpl in *. by rewrite Hs.
  - destruct Hw as [Hc Hw].
    change (String c w +:+ s) with (String c (w +:+ s)). simpl.
    rewrite Hc. by rewrite IH.
Qed.

Lemma char_in_id_part c id :
  c ≠ "#"%char → char_in c id = false → char_in c (id_part id) = false.
Proof.
  intros Hc Hid. unfold id_part. case_decide; [done|].
  change ("#" +:+ id) with (String "#" id). simpl.
  by rewrite Hid, bool_decide_eq_false_2.
Qed.

Lemma cls_part_cons w cls :
  cls_part (w :: cls) = String "." (w +:+ cls_part cls).
Proof. reflexivity. Qed.

Lemma attr_part_cons k v attrs :
  attr_part ((k, v) :: attrs)
  = String "[" ((k +:+ String "=" v) +:+ String "]" (attr_part attrs)).
Proof.
  unfold attr_part. cbn [foldr fst snd]. by rewrite !append_assoc.
Qed.

Lemma char_in_cls_part c cls :
  c ≠ "."%char → Forall (λ w, char_in c w = false) cls →
  char_in c (cls_part cls) = false.
Proof.
  intros Hc. induction 1 as [|w cls Hw _ IH]; [done|].
  rewrite cls_part_cons. cbn [char_in].
  by rewrite char_in_app, Hw, IH, bool_decide_eq_false_2.
Qed.

Lemma char_in_attr_part c attrs :
  c ≠ "["%char → c ≠ "="%char → c ≠ "]"%char →
  Forall (λ kv, char_in c kv.1 = false ∧ char_in c kv.2 = false) attrs →
  char_in c (attr_part attrs) = false.
Proof.
  intros H1 H2 H3. induction 1 as [|[k v] attrs [Hk Hv] _ IH]; [done|].
  simpl in Hk, Hv. rewrite attr_part_cons. cbn [char_in].
  rewrite !char_in_app, Hk. cbn [char_in]. rewrite Hv, IH.
  by rewrite !bool_decide_eq_false_2.
Qed.

Lemma boundary_cls_part stops cls s :
  char_in "." stops = true → boundary stops s →
  boundary stops (cls_part cls +:+ s).
Proof. intros Hdot Hs. by destruct cls. Qed.

Lemma boundary_attr_part stops attrs :
  char_in "[" stops = true → boundary stops (attr_part attrs).
Proof. intros Hb. by destruct attrs. Qed.

Lemma boundary_id_part stops id s :
  char_in "#" stops = true → boundary stops s →
  boundary stops (id_part id +:+ s).
Proof. intros Hb Hs. unfold id_part. by case_decide. Qed.

Lemma pieces_cls_part cls s :
  Forall plain cls → boundary ".#[]" s →
  pieces "." ".#[]" None (cls_part cls +:+ s)
  = cls ++ pieces "." ".#[]" None s.
Proof.
  intros Hcls Hs. induction Hcls as [|w cls Hw _ IH]; [done|].
  rewrite cls_part_cons, append_cons, append_assoc.
  cbn [pieces]. rewrite decide_True by done.
  change (char_in "." ".#[]") with true. cbn [option_list app].
  rewrite pieces_read.
  2:{ revert Hw. apply avoids_sub. intros c. simpl.
      repeat case_bool_decide; simpl; done. }
  rewrite pieces_end by by apply boundary_cls_part.
  cbn [String.append app]. by rewrite IH.
Qed.

Lemma pieces_attr_part attrs :
  Forall (λ kv, plain kv.1 ∧ plain kv.2) attrs →
  pieces "[" "]" None (attr_part attrs)
  = (λ kv, kv.1 +:+ "=" +:+ kv.2) <$> attrs.
Proof.
  induction 1 as [|[k v] attrs [Hk Hv] _ IH]; [done|].
  simpl in Hk, Hv. rewrite attr_part_cons.
  cbn [pieces fmap list_fmap fst snd]. rewrite decide_True by done.
  change (char_in "[" "]") with false. cbn [app].
  rewrite pieces_read.
  2:{ apply avoids_app. split; [|split; [done|]];
      (eapply avoids_sub; [|eassumption]); intros c; simpl;
      repeat case_bool_decide; simpl; done. }
  cbn [pieces String.append]. rewrite decide_False by done.
  change (char_in "]" "]") with true. cbn [option_list app].
  by rewrite IH.
Qed.

Lemma split_attr_pair k v :
  plain k → plain v → Selector.split_attr (k +:+ "=" +:+ v) = Ok (k, v).
Proof.
  intros Hk Hv. unfold Selector.split_attr.
  change (k +:+ "=" +:+ v) with (k +:+ String "=" v).
  rewrite split_app by by eapply avoids_no_char; [|exact Hk].
  rewrite split_no_char by by eapply avoids_no_char; [|exact Hv].
  done.
Qed.

Lemma char_in_no_char c s : char_in c s = false → no_char c s.
Proof.
  induction s as [|x s IH]; [done|]. simpl.
  intros [Hx Hs]%orb_false_iff. apply bool_decide_eq_false in Hx.
  split; [congruence|auto].
Qed.

Lemma plain_char_in c w :
  char_in c ".#[]= " = true → plain w → char_in c w = false.
Proof. apply avoids_char_in. Qed.

Lemma Forall_plain_char_in c cls :
  char_in c ".#[]= " = true → Forall plain cls →
  Forall (λ w, char_in c w = false) cls.
Proof.
  intros Hc H. induction H as [|w l Hw _ IH]; constructor; [|done].
  by apply plain_char_in.
Qed.

Lemma Forall_plain_pair_char_in c (attrs : list (string * string)) :
  char_in c ".#[]= " = true → Forall (λ kv, plain kv.1 ∧ plain kv.2) attrs →
  Forall (λ kv, char_in c kv.1 = false ∧ char_in c kv.2 = false) attrs.
Proof.
  intros Hc H. induction H as [|kv l [Hk Hv] _ IH]; constructor; [|done].
  split; by apply plain_char_in.
Qed.

Lemma split_attr_pairs (attrs : list (string * string)) :
  Forall (λ kv, plain kv.1 ∧ plain kv.2) attrs →
  Forall2 (λ attr kv, Selector.split_attr attr = Ok kv)
          ((λ kv, kv.1 +:+ "=" +:+ kv.2) <$> attrs) attrs.
Proof.
  induction 1 as [|[k v] l [Hk Hv] _ IH]; [constructor|].
  rewrite fmap_cons. constructor; [|done]. by apply split_attr_pair.
Qed.

Section roundtrip.
Variables (tag id : string) (cls : list string) (attrs : list (string * string)).
Hypothesis Htag : tag ≠ EmptyString.
Hypothesis Hptag : plain tag.
Hypothesis Hpid : plain id.
Hypothesis Hpcls : Forall plain cls.
Hypothesis Hpattrs : Forall (λ kv, plain kv.1 ∧ plain kv.2) attrs.

Lemma render_first c0 r :
  char_in c0 ".#[]= " = true → render tag id cls attrs ≠ String c0 r.
Proof.
  intros Hc0. unfold render. destruct tag as [|c t]; [done|].
  destruct Hptag as [Hc _]. rewrite append_cons. intros [= -> _]. congruence.
Qed.

Lemma render_tag : Selector.clean_tag (render tag id cls attrs) = tag.
Proof.
  rewrite clean_tag_until. unfold render. apply until_stop_word.
  - revert Hptag. apply avoids_sub. intros c. simpl.
    repeat case_bool_decide; simpl; done.
  - apply boundary_id_part; [done|]. apply boundary_cls_part; [done|].
    by apply boundary_attr_part.
Qed.

Lemma render_cls : Selector.clean_cls (render tag id cls attrs) = cls.
Proof.
  unfold Selector.clean_cls.
  change (Selector.cls_sep +:+ Selector.id_sep +:+ Selector.attr_sep)
    with ".#[]".
  rewrite clean_pieces by (intros r; by apply render_first).
  unfold render.
  rewrite pieces_skip by by apply plain_char_in.
  rewrite pieces_skip by (apply char_in_id_part; [done|by apply plain_char_in]).
  rewrite pieces_cls_part by (done || by apply boundary_attr_part).
  rewrite pieces_absent; [by rewrite app_nil_r|].
  apply char_in_attr_part; [done..|]. by apply Forall_plain_pair_char_in.
Qed.

Lemma render_id : Selector.clean_id (render tag id cls attrs) = id.
Proof.
  unfold Selector.clean_id.
  change (Selector.cls_sep +:+ Selector.id_sep +:+ Selector.attr_sep)
    with ".#[]".
  rewrite clean_pieces by (intros r; by apply render_first).
  unfold render.
  rewrite pieces_skip by by apply plain_char_in.
  assert (char_in "#" (cls_part cls +:+ attr_part attrs) = false) as Hrest.
  { rewrite char_in_app, char_in_cls_part, char_in_attr_part; try done.
    - by apply Forall_plain_pair_char_in.
    - by apply Forall_plain_char_in. }
  unfold id_part. case_decide as Hid.
  - cbn [String.append]. by rewrite pieces_absent.
  - change ("#" +:+ id) with (String "#" id).
    rewrite append_cons. cbn [pieces]. rewrite decide_True by done.
    change (char_in "#" ".#[]") with true. cbn [option_list app].
    rewrite pieces_read.
    2:{ revert Hpid. apply avoids_sub. intros c. simpl.
        repeat case_bool_decide; simpl; done. }
    rewrite pieces_end.
    2:{ apply boundary_cls_part; [done|]. by apply boundary_attr_part. }
    by rewrite pieces_absent.
Qed.

Lemma render_attrs :
  Selector.clean_attrs (render tag id cls attrs)
  = Ok (CustomHTMLParser.dict attrs).
Proof.
  unfold Selector.clean_attrs. cbn [Selector.attr_sep mbind result_bind].
  rewrite clean_pieces by (intros r; by apply render_first).
  unfold render.
  rewrite pieces_skip by by apply plain_char_in.
  rewrite pieces_skip by (apply char_in_id_part; [done|by apply plain_char_in]).
  rewrite pieces_skip.
  2:{ apply char_in_cls_part; [done|]. by apply Forall_plain_char_in. }
  rewrite pieces_attr_part by done.
  apply attrs_loop_pairs. by apply split_attr_pairs.
Qed.

Lemma render_no_space : no_char " " (render tag id cls attrs).
Proof.
  apply char_in_no_char. unfold render.
  rewrite !char_in_app, plain_char_in, char_in_id_part, char_in_cls_part,
    char_in_attr_part; try done.
  - by apply Forall_plain_pair_char_in.
  - by apply Forall_plain_char_in.
  - by apply plain_char_in.
Qed.

End roundtrip.

(** A selector written [tag#id.class...[key=value]...] is read back as it
    was written: with a tag name that is not empty, and names and values
    that hold no ".", "#", "[", "]", "=" and no space, [Selector.parse]
    returns one selector, whose tag, id, classes (in their order) and
    attributes are the ones written. *)
Theorem selector_roundtrip tag id cls attrs :
  tag ≠ EmptyString → plain tag → plain id → Forall plain cls →
  Forall (λ kv, plain kv.1 ∧ plain kv.2) attrs →
  Selector.parse (render tag id cls attrs)
  = Ok [Selector.mk (render tag id cls attrs) tag cls id
          (CustomHTMLParser.dict attrs)].
Proof.
  intros Htag Hptag Hpid Hpcls Hpattrs. unfold Selector.parse.
  change Selector.sep with " "%char.
  rewrite split_no_char by by apply render_no_space.
  cbn [Selector.init_all]. unfold Selector.init.
  rewrite render_tag, render_cls, render_id, render_attrs by done.
  done.
Qed.

Lemma selector_roundtrip_witness :
  render "a" "main" ["x"; "y"] [("href", "u"); ("rel", "v")]
  = "a#main.x.y[href=u][rel=v]"
  ∧ Selector.parse "a#main.x.y[href=u][rel=v]"
    = Ok [Selector.mk "a#main.x.y[href=u][rel=v]" "a" ["x"; "y"] "main"
            (CustomHTMLParser.dict [("href", "u"); ("rel", "v")])].
Proof.
  split; [reflexivity|].
  apply (selector_roundtrip "a" "main" ["x"; "y"] [("href", "u"); ("rel", "v")]).
  - discriminate.
  - by vm_compute.
  - by vm_compute.
  - repeat constructor.
  - repeat constructor.
Defined.
